(** * Sella (old minimum-mode code): operators and controllers

    A shallow embedding of [sella/linalg.py] and [sella/sella_old.py].

    Python objects become records, methods become functions that take the
    object and return the outcome together with the mutated object.  An
    exception is an outcome of its own: the mutations made before it was
    raised stay visible, as in Python.

    numpy's float64 entries are an abstract scalar type with the operations
    the code uses; nothing is assumed about them (no ring laws), so what is
    proved holds for any arithmetic.  The dihedral wrapping, whose statement
    is about the real interval, is read over the real numbers. *)

From Stdlib Require Import List Arith Bool Lia.
From Stdlib Require Import ZArith.
From Stdlib Require Import Reals Lra.
Import ListNotations.

Set Implicit Arguments.
Local Open Scope nat_scope.

(* ===================================================================== *)
(** * Python outcomes *)
(* ===================================================================== *)

Inductive exn : Type :=
| TypeError | ValueError | AttributeError | IndexError | KeyError
| AssertionError | NotImplementedError.

Inductive res (A : Type) : Type :=
| Ok (a : A)
| Raise (e : exn).
Arguments Ok {A} a.
Arguments Raise {A} e.

Definition res_bind {A B} (r : res A) (k : A -> res B) : res B :=
  match r with Ok a => k a | Raise e => Raise e end.

Notation "'let*' x ':=' r 'in' k" := (res_bind r (fun x => k))
  (at level 10, x pattern, r at level 100, k at level 200).

(** A method: it runs on the object (and whatever else it can reach), and
    leaves it mutated whether it returns or raises. *)
Definition M (S A : Type) : Type := S -> res A * S.

Definition ret {S A} (a : A) : M S A := fun s => (Ok a, s).
Definition raise {S A} (e : exn) : M S A := fun s => (Raise e, s).
Definition bind {S A B} (c : M S A) (k : A -> M S B) : M S B :=
  fun s => match c s with
           | (Ok a, s1) => k a s1
           | (Raise e, s1) => (Raise e, s1)
           end.
Definition get {S} : M S S := fun s => (Ok s, s).
Definition modify {S} (g : S -> S) : M S unit := fun s => (Ok tt, g s).
Definition lift {S A} (r : res A) : M S A := fun s => (r, s).

Declare Scope py_scope.
Delimit Scope py_scope with py.
Notation "x <- c ;; k" := (bind c (fun x => k))
  (at level 61, c at next level, right associativity) : py_scope.
Notation "' p <- c ;; k" := (bind c (fun p => k))
  (at level 61, p pattern, c at next level, right associativity) : py_scope.
Notation "c ;; k" := (bind c (fun _ => k))
  (at level 61, right associativity) : py_scope.

(* ===================================================================== *)
(** * Scalars and arrays *)
(* ===================================================================== *)

(** The arithmetic of the array entries. *)
Class Scalar (F : Type) : Type := {
  F0 : F;
  F1 : F;
  (** [Fdec m k] is the literal m * 10^k, as in [5e-3]. *)
  Fdec : Z -> Z -> F;
  Fadd : F -> F -> F;
  Fsub : F -> F -> F;
  Fmul : F -> F -> F;
  Fdiv : F -> F -> F;
  Fconj : F -> F;
  Fabs : F -> F;
  Fsqrt : F -> F;
  Feqb : F -> F -> bool;
  Fltb : F -> F -> bool
}.

(** numpy dtypes.  [a <= b] on dtypes is [np.can_cast(a, b)], which is not
    a total order: [float32 <= float64 <= complex128] and
    [int64 <= float64], but neither of [int64] and [float32] is below the
    other. *)
Inductive dtype : Type := int64 | float32 | float64 | complex128.

Definition dtype_leb (a b : dtype) : bool :=
  match a, b with
  | int64, float32 => false
  | int64, _ => true
  | float32, int64 => false
  | float32, _ => true
  | float64, (float64 | complex128) => true
  | float64, _ => false
  | complex128, complex128 => true
  | complex128, _ => false
  end.

(** The first of [sorted([a, b], reverse=True)]: the higher of the two,
    and [a] where they do not compare.  Folded over a list it is the
    first of the sorted list when the dtypes compare pairwise. *)
Definition dtype_max (a b : dtype) : dtype := if dtype_leb a b then b else a.

(** [np.promote_types(a, b)], the dtype of an array computed from two. *)
Definition promote_types (a b : dtype) : dtype :=
  if dtype_leb a b then b else if dtype_leb b a then a else float64.

Section Arrays.
Context {F : Type} {SF : Scalar F}.

(** A one-dimensional array. *)
Definition vec : Type := list F.

(** A two-dimensional array: its dtype, its shape and its rows. *)
Record ndarray : Type := mkArr {
  adtype : dtype;
  ashape : nat * nat;
  rows : list vec
}.

Definition nrows (A : ndarray) : nat := fst (ashape A).
Definition ncols (A : ndarray) : nat := snd (ashape A).

(** The shape says what the rows are. *)
Definition well_shaped (A : ndarray) : Prop :=
  length (rows A) = nrows A /\ Forall (fun r => length r = ncols A) (rows A).

Definition Fneg (a : F) : F := Fsub F0 a.
Definition Ftwo : F := Fadd F1 F1.

Fixpoint zip_with (op : F -> F -> F) (u v : vec) : vec :=
  match u, v with
  | a :: u', b :: v' => op a b :: zip_with op u' v'
  | _, _ => []
  end.

(** An elementwise operation on two 1-d arrays, with numpy's broadcasting
    of a length-one array. *)
Definition broadcast (op : F -> F -> F) (u v : vec) : res vec :=
  if length u =? length v then Ok (zip_with op u v)
  else match u, v with
       | [a], _ => Ok (map (op a) v)
       | _, [b] => Ok (map (fun a => op a b) u)
       | _, _ => Raise ValueError
       end.

Definition vadd := broadcast Fadd.
Definition vsub := broadcast Fsub.

Definition scale (c : F) (v : vec) : vec := map (Fmul c) v.
Definition vdivs (v : vec) (c : F) : vec := map (fun a => Fdiv a c) v.
Definition vneg (v : vec) : vec := map Fneg v.

Definition vsum (v : vec) : F := fold_right Fadd F0 v.

(** [u @ v] for two 1-d arrays. *)
Definition inner (u v : vec) : res F :=
  if length u =? length v then Ok (vsum (zip_with Fmul u v))
  else Raise ValueError.

Definition col (j : nat) (A : ndarray) : vec := map (fun r => nth j r F0) (rows A).
Definition columns (A : ndarray) : list vec :=
  map (fun j => col j A) (seq 0 (ncols A)).

(** [A.dot(v)], [A @ v]: a 2-d array times a 1-d array. *)
Definition nd_dot_vec (A : ndarray) (v : vec) : res vec :=
  if ncols A =? length v
  then Ok (map (fun r => vsum (zip_with Fmul r v)) (rows A))
  else Raise ValueError.

(** [v.dot(A)], [v @ A]: a 1-d array times a 2-d array. *)
Definition vec_dot_nd (v : vec) (A : ndarray) : res vec :=
  if length v =? nrows A
  then Ok (map (fun c => vsum (zip_with Fmul v c)) (columns A))
  else Raise ValueError.

(** [A.dot(B)] for two 2-d arrays. *)
Definition nd_dot_nd (A B : ndarray) : res ndarray :=
  if ncols A =? nrows B
  then Ok (mkArr (promote_types (adtype A) (adtype B)) (nrows A, ncols B)
             (map (fun r => map (fun c => vsum (zip_with Fmul r c)) (columns B))
                  (rows A)))
  else Raise ValueError.

(** [A.T] *)
Definition transpose (A : ndarray) : ndarray :=
  mkArr (adtype A) (ncols A, nrows A) (columns A).

(** [A.conj()] *)
Definition conj (A : ndarray) : ndarray :=
  mkArr (adtype A) (ashape A) (map (map Fconj) (rows A)).

(** [np.zeros(shape, dtype)] *)
Definition zeros (sh : nat * nat) (t : dtype) : ndarray :=
  mkArr t sh (repeat (repeat F0 (snd sh)) (fst sh)).

(** [np.eye(n)] *)
Definition eye (n : nat) : ndarray :=
  mkArr float64 (n, n)
    (map (fun i => map (fun j => if i =? j then F1 else F0) (seq 0 n)) (seq 0 n)).

(** [np.empty((n, 0))] *)
Definition empty_cols (n : nat) (t : dtype) : ndarray :=
  mkArr t (n, 0) (repeat [] n).

Fixpoint zip_rows (op : F -> F -> F) (X Y : list vec) : list vec :=
  match X, Y with
  | r :: X', q :: Y' => zip_with op r q :: zip_rows op X' Y'
  | _, _ => []
  end.

(** Elementwise operation on two 2-d arrays of one shape. *)
Definition nd_zip (op : F -> F -> F) (A B : ndarray) : res ndarray :=
  if (nrows A =? nrows B) && (ncols A =? ncols B)
  then Ok (mkArr (promote_types (adtype A) (adtype B)) (ashape A)
             (zip_rows op (rows A) (rows B)))
  else Raise ValueError.

Definition nd_scale (c : F) (A : ndarray) : ndarray :=
  mkArr (adtype A) (ashape A) (map (scale c) (rows A)).

(** [np.outer(u, v)] *)
Definition outer (u v : vec) : ndarray :=
  mkArr float64 (length u, length v) (map (fun a => map (Fmul a) v) u).

(** [np.linalg.norm(v)] of a 1-d array. *)
Definition norm (v : vec) : F := Fsqrt (vsum (map (fun a => Fmul (Fabs a) (Fabs a)) v)).

(** [np.all(x == y)] on 1-d arrays: the entries are compared after
    broadcasting; arrays that cannot be broadcast compare unequal. *)
Definition np_all_eq (x y : vec) : bool :=
  if length x =? length y
  then forallb (fun b => b) (map (fun p => Feqb (fst p) (snd p)) (combine x y))
  else match x, y with
       | [a], _ => forallb (Feqb a) y
       | _, [b] => forallb (fun a => Feqb a b) x
       | _, _ => false
       end.

End Arrays.

Arguments vec F : clear implicits.
Arguments ndarray F : clear implicits.

(* ===================================================================== *)
(** * linalg.py *)
(* ===================================================================== *)

Section Linalg.
Context {F : Type} {SF : Scalar F}.
Local Open Scope py_scope.

(** ** class MatrixWrapper *)

(** What [MatrixWrapper(...)] may be handed: an array, or the method
    object [A.transpose] (the attribute, not its call). *)
Inductive wrapped_arg : Type :=
| AnArray (A : ndarray F)
| TransposeMethodOf (A : ndarray F).

Record MatrixWrapper : Type := mkWrapper {
  mw_shape : nat * nat;
  mw_dtype : dtype;
  mw_A : ndarray F
}.

(** [__init__]: reads [A.shape] and [A.dtype]; a method object has
    neither attribute. *)
Definition MatrixWrapper_init (a : wrapped_arg) : res MatrixWrapper :=
  match a with
  | AnArray A => Ok (mkWrapper (ashape A) (adtype A) A)
  | TransposeMethodOf _ => Raise AttributeError
  end.

Definition MatrixWrapper_matvec (self : MatrixWrapper) (v : vec F) : res (vec F) :=
  nd_dot_vec (mw_A self) v.

Definition MatrixWrapper_rmatvec (self : MatrixWrapper) (v : vec F) : res (vec F) :=
  vec_dot_nd v (mw_A self).

(** [return MatrixWrapper(self.A.transpose)] *)
Definition MatrixWrapper_transpose (self : MatrixWrapper) : res MatrixWrapper :=
  MatrixWrapper_init (TransposeMethodOf (mw_A self)).

(** [return MatrixWrapper(self.A.conj().T)] *)
Definition MatrixWrapper_adjoint (self : MatrixWrapper) : res MatrixWrapper :=
  MatrixWrapper_init (AnArray (transpose (conj (mw_A self)))).

(** ** class MatrixSum *)

(** A term of a sum: a numpy array or a wrapped matrix. *)
Inductive summand : Type :=
| SArr (A : ndarray F)
| SWrap (W : MatrixWrapper).

Record MatrixSum : Type := mkSum {
  ms_dtype : dtype;
  ms_shape : nat * nat;
  matrices : list summand
}.

(** One of the arguments of the [MatrixSum] constructor. *)
Inductive sum_arg : Type :=
| ATerm (m : summand)
| ASum (S0 : MatrixSum).

Definition summand_dtype (m : summand) : dtype :=
  match m with SArr A => adtype A | SWrap W => mw_dtype W end.
Definition summand_shape (m : summand) : nat * nat :=
  match m with SArr A => ashape A | SWrap W => mw_shape W end.

Definition shape_eqb (a b : nat * nat) : bool :=
  (fst a =? fst b) && (snd a =? snd b).

(** [mnum += matrix] *)
Definition nd_iadd (mnum A : ndarray F) : ndarray F :=
  mkArr (adtype mnum) (ashape mnum) (zip_rows Fadd (rows mnum) (rows A)).

(** The second loop of [__init__]: the dense terms are folded into
    [mnum], the others kept in order. *)
Fixpoint fold_terms (dt : dtype) (sh : nat * nat) (ms : list summand)
         (mnum : option (ndarray F)) (kept : list summand)
  : res (option (ndarray F) * list summand) :=
  match ms with
  | [] => Ok (mnum, kept)
  | m :: ms' =>
      if negb (dtype_leb (summand_dtype m) dt) then Raise AssertionError
      else if negb (shape_eqb (summand_shape m) sh) then Raise AssertionError
      else match m with
           | SArr A =>
               let acc := match mnum with
                          | None => zeros sh dt
                          | Some X => X
                          end in
               fold_terms dt sh ms' (Some (nd_iadd acc A)) kept
           | SWrap _ => fold_terms dt sh ms' mnum (kept ++ [m])
           end
  end.

(** [__init__].  Its dtype is [sorted(dtypes, reverse=True)[0]], here the
    fold of [dtype_max]: the highest dtype when the dtypes of the terms
    compare pairwise. *)
Definition MatrixSum_init (args : list sum_arg) : res MatrixSum :=
  let flat := flat_map (fun a => match a with
                                 | ASum S0 => matrices S0
                                 | ATerm m => [m]
                                 end) args in
  match flat with
  | [] => Raise IndexError
  | m0 :: rest =>
      let dt := fold_left dtype_max (map summand_dtype rest) (summand_dtype m0) in
      let sh := summand_shape m0 in
      let* (mnum, kept) := fold_terms dt sh flat None [] in
      Ok (mkSum dt sh (match mnum with
                       | None => kept
                       | Some X => kept ++ [SArr X]
                       end))
  end.

(** [matrix.dot(v)] for a term of the sum. *)
Definition summand_dot (m : summand) (v : vec F) : res (vec F) :=
  match m with
  | SArr A => nd_dot_vec A v
  | SWrap W =>
      if snd (mw_shape W) =? length v then MatrixWrapper_matvec W v
      else Raise ValueError
  end.

(** [w += y] on 1-d arrays. *)
Definition vec_iadd (w y : vec F) : res (vec F) :=
  if length w =? length y then Ok (zip_with Fadd w y)
  else match y with
       | [b] => Ok (map (fun a => Fadd a b) w)
       | _ => Raise ValueError
       end.

Definition MatrixSum_matvec (self : MatrixSum) (v : vec F) : res (vec F) :=
  fold_left (fun acc m => let* w := acc in let* y := summand_dot m v in vec_iadd w y)
            (matrices self) (Ok (repeat F0 (length v))).


Definition MatrixSum_add (self : MatrixSum) (other : sum_arg) : res MatrixSum :=
  MatrixSum_init [ASum self; other].

Definition MatrixWrapper_add (self : MatrixWrapper) (other : sum_arg) : res MatrixSum :=
  MatrixSum_init [ATerm (SWrap self); other].

(** The right operand of a matrix-matrix product. *)
Inductive operand : Type :=
| OArr (B : ndarray F)
| OSum (S0 : MatrixSum).

Definition MatrixWrapper_matmat (self : MatrixWrapper) (other : operand)
  : res MatrixWrapper :=
  match other with
  | OSum _ => Raise ValueError
  | OArr B => let* C := nd_dot_nd (mw_A self) B in MatrixWrapper_init (AnArray C)
  end.

Definition MatrixWrapper_rmatmat (self : MatrixWrapper) (other : operand)
  : res MatrixWrapper :=
  match other with
  | OSum _ => Raise ValueError
  | OArr B => let* C := nd_dot_nd B (mw_A self) in MatrixWrapper_init (AnArray C)
  end.

End Linalg.

Arguments MatrixWrapper F : clear implicits.
Arguments MatrixSum F : clear implicits.
Arguments summand F : clear implicits.
Arguments sum_arg F : clear implicits.
Arguments operand F : clear implicits.
Arguments wrapped_arg F : clear implicits.

(** ** class NumericalHessian *)

Section NumericalHessian.
Context {F : Type} {SF : Scalar F}.
(** What the potential [func] can reach and mutate when it is called. *)
Context {W : Type}.
Local Open Scope py_scope.

Record NumericalHessian : Type := mkNH {
  nh_func : vec F -> M W (F * vec F);
  nh_x0 : vec F;
  nh_g0 : vec F;
  nh_dxL : F;
  nh_threepoint : bool;
  nh_calls : nat;
  nh_shape : nat * nat
}.

Definition NumericalHessian_init (func : vec F -> M W (F * vec F))
           (x0 g0 : vec F) (dxL : F) (threepoint : bool) : NumericalHessian :=
  mkNH func x0 g0 dxL threepoint 0 (length x0, length x0).

Definition nh_set_calls (n : nat) (self : NumericalHessian) : NumericalHessian :=
  mkNH (nh_func self) (nh_x0 self) (nh_g0 self) (nh_dxL self)
       (nh_threepoint self) n (nh_shape self).

(** A call of the potential from inside a method of the operator. *)
Definition call_func {A} (c : M W A) : M (NumericalHessian * W) A :=
  fun s => let (r, w) := c (snd s) in (r, (fst s, w)).

Definition NumericalHessian_matvec (v : vec F)
  : M (NumericalHessian * W) (vec F) :=
  modify (fun s => (nh_set_calls (nh_calls (fst s) + 1) (fst s), snd s)) ;;
  s <- get ;;
  let self := fst s in
  let vnorm := norm v in
  xplus <- lift (vadd (nh_x0 self) (vdivs (scale (nh_dxL self) v) vnorm)) ;;
  '(_, gplus) <- call_func (nh_func self xplus) ;;
  if nh_threepoint self then
    xminus <- lift (vsub (nh_x0 self) (vdivs (scale (nh_dxL self) v) vnorm)) ;;
    '(_, gminus) <- call_func (nh_func self xminus) ;;
    dg <- lift (vsub gplus gminus) ;;
    ret (vdivs (scale vnorm dg) (Fmul Ftwo (nh_dxL self)))
  else
    dg <- lift (vsub gplus (nh_g0 self)) ;;
    if length dg =? length v
    then ret (scale vnorm (vdivs dg (nh_dxL self)))
    else raise ValueError.

Definition NumericalHessian_rmatvec (v : vec F)
  : M (NumericalHessian * W) (vec F) :=
  NumericalHessian_matvec v.

Definition NumericalHessian_transpose (self : NumericalHessian) : NumericalHessian := self.
Definition NumericalHessian_adjoint (self : NumericalHessian) : NumericalHessian := self.

End NumericalHessian.

Arguments NumericalHessian F W : clear implicits.

(** ** class ProjectedMatrix *)

Section ProjectedMatrix.
Context {F : Type} {SF : Scalar F}.
(** The wrapped full operator [A], with whatever its [dot] mutates. *)
Context {Op : Type}.
Variable op_dtype : Op -> dtype.
Variable op_dot : vec F -> M Op (vec F).
Local Open Scope py_scope.

Record ProjectedMatrix : Type := mkPM {
  pm_A : Op;
  pm_dtype : dtype;
  pm_Tm : ndarray F;
  pm_dtrue : nat;
  pm_dproj : nat;
  pm_shape : nat * nat;
  pm_Vs : ndarray F;
  pm_AVs : ndarray F
}.

Definition ProjectedMatrix_init (A : Op) (Tm : ndarray F) : ProjectedMatrix :=
  mkPM A (op_dtype A) Tm (nrows Tm) (ncols Tm) (ncols Tm, ncols Tm)
       (empty_cols (nrows Tm) (op_dtype A))
       (empty_cols (nrows Tm) (op_dtype A)).

(** [v.reshape((n, -1))] of a 1-d array: [n] rows; the row length is
    inferred, which numpy refuses when [n] is zero or does not divide
    the size. *)
Definition reshape_rows (n : nat) (t : dtype) (v : vec F) : res (ndarray F) :=
  if n =? 0 then Raise ValueError
  else if negb (length v mod n =? 0) then Raise ValueError
  else let k := length v / n in
       Ok (mkArr t (n, k) (map (fun i => firstn k (skipn (i * k) v)) (seq 0 n))).

Fixpoint append_rows (X Y : list (vec F)) : list (vec F) :=
  match X, Y with
  | r :: X', q :: Y' => (r ++ q) :: append_rows X' Y'
  | _, _ => []
  end.

(** [np.hstack((X, Y))] *)
Definition hstack (X Y : ndarray F) : res (ndarray F) :=
  if nrows X =? nrows Y
  then Ok (mkArr (promote_types (adtype X) (adtype Y)) (nrows X, ncols X + ncols Y)
             (append_rows (rows X) (rows Y)))
  else Raise ValueError.

Definition pm_set_Vs (X : ndarray F) (self : ProjectedMatrix) : ProjectedMatrix :=
  mkPM (pm_A self) (pm_dtype self) (pm_Tm self) (pm_dtrue self) (pm_dproj self)
       (pm_shape self) X (pm_AVs self).
Definition pm_set_AVs (X : ndarray F) (self : ProjectedMatrix) : ProjectedMatrix :=
  mkPM (pm_A self) (pm_dtype self) (pm_Tm self) (pm_dtrue self) (pm_dproj self)
       (pm_shape self) (pm_Vs self) X.
Definition pm_set_A (A : Op) (self : ProjectedMatrix) : ProjectedMatrix :=
  mkPM A (pm_dtype self) (pm_Tm self) (pm_dtrue self) (pm_dproj self)
       (pm_shape self) (pm_Vs self) (pm_AVs self).

(** [self.A.dot(v)]: the wrapped operator runs, and is left mutated. *)
Definition call_A (v : vec F) : M ProjectedMatrix (vec F) :=
  fun self => let (r, A') := op_dot v (pm_A self) in (r, pm_set_A A' self).

Definition ProjectedMatrix_dot (v_m : vec F) : M ProjectedMatrix (vec F) :=
  self <- get ;;
  v <- lift (nd_dot_vec (pm_Tm self) v_m) ;;
  vcol <- lift (reshape_rows (pm_dtrue self) (adtype (pm_Tm self)) v) ;;
  Vs' <- lift (hstack (pm_Vs self) vcol) ;;
  modify (pm_set_Vs Vs') ;;
  w <- call_A v ;;
  self <- get ;;
  wcol <- lift (reshape_rows (pm_dtrue self) (pm_dtype self) w) ;;
  AVs' <- lift (hstack (pm_AVs self) wcol) ;;
  modify (pm_set_AVs AVs') ;;
  lift (nd_dot_vec (transpose (pm_Tm self)) w).

(** A run of applies, one reduced vector after the other; it stops at the
    first one that raises. *)
Fixpoint ProjectedMatrix_dots (vs : list (vec F)) : M ProjectedMatrix (list (vec F)) :=
  match vs with
  | [] => ret []
  | v :: vs' =>
      y <- ProjectedMatrix_dot v ;;
      ys <- ProjectedMatrix_dots vs' ;;
      ret (y :: ys)
  end.

End ProjectedMatrix.

Arguments ProjectedMatrix F Op : clear implicits.

(* ===================================================================== *)
(** * sella_old.py *)
(* ===================================================================== *)

(** A Python sequence of atom indices, as a key of a constraint. *)
Definition indices : Type := list nat.

(** [_sort_constr_indices]: the tuple is kept if its first entry is below
    its last, reversed otherwise. *)
Definition _sort_constr_indices (ix : indices) : indices :=
  match ix with
  | [] => ix
  | i0 :: _ => if i0 <? last ix 0 then ix else rev ix
  end.

Section Controller.
Context {F : Type} {SF : Scalar F}.

(** An argument of [update_H]: a single vector or a batch of columns. *)
Inductive samples : Type :=
| OneVec (v : vec F)
| Columns (V : ndarray F).

(** The collaborators imported from modules outside this embedding
    ([hessian_update.update_H], [scipy.linalg.eigh]). *)
Class Collaborators : Type := {
  update_H : option (ndarray F) -> samples -> samples -> ndarray F;
  eigh : ndarray F -> vec F * ndarray F
}.

(** A dict in insertion order: canonical index tuple to target value. *)
Definition targets : Type := list (indices * F).

(** [self.constraints]: a dict whose keys ['fix'], ['bonds'], ['angles'],
    ['dihedrals'] may each be absent. *)
Record ConstraintSet : Type := mkConstraints {
  cs_fix : option (list nat);
  cs_bonds : option targets;
  cs_angles : option targets;
  cs_dihedrals : option targets
}.

(** A positional argument of a controller method, where the code's
    behaviour depends on what kind of object arrives. *)
Inductive pyval : Type :=
| PyArr (v : vec F)
| PyFloat (a : F)
| PyBool (b : bool)
| PySelf.

End Controller.

Arguments samples F : clear implicits.
Arguments Collaborators F : clear implicits.
Arguments targets F : clear implicits.
Arguments ConstraintSet F : clear implicits.
Arguments pyval F : clear implicits.

(** ** class MinMode *)

Section MinMode.
Context {F : Type} {SF : Scalar F} {EX : Collaborators F}.
(** What the potential [f] can reach and mutate when it is called. *)
Context {W : Type}.
Local Open Scope py_scope.

(** The eigensolver [minmode(H, maxres, P, T, shift=...)]: it works on
    the operator [H] it is handed, and returns [lams, Vs, AVs]. *)
Definition eigensolver : Type :=
  F -> ndarray F -> ndarray F -> F ->
  M (NumericalHessian F W * W) (vec F * ndarray F * ndarray F).

Record MinMode : Type := mkMinMode {
  mm_f : vec F -> M W (F * vec F);
  mm_d : nat;
  mm_minmode : eigensolver;
  mm_H : option (ndarray F);
  mm_flast : option F;
  mm_xlast2 : option (vec F);
  mm_xlast : option (vec F);
  mm_glast : option (vec F);
  mm_shift : F;
  mm_shift_factor : F;
  mm_calls : nat;
  mm_df : option F;
  mm_df_pred : option F;
  mm_ratio : option F;
  mm_v0 : option (vec F);
  mm_constraints : option (ConstraintSet F);
  mm_lams : option (vec F);
  mm_vecs : option (ndarray F)
}.

Definition set_H (a : option (ndarray F)) (self : MinMode) : MinMode :=
  mkMinMode (mm_f self) (mm_d self) (mm_minmode self) a (mm_flast self) (mm_xlast2
    self) (mm_xlast self) (mm_glast self) (mm_shift self) (mm_shift_factor self)
    (mm_calls self) (mm_df self) (mm_df_pred self) (mm_ratio self) (mm_v0 self)
    (mm_constraints self) (mm_lams self) (mm_vecs self).

Definition set_flast (a : option F) (self : MinMode) : MinMode :=
  mkMinMode (mm_f self) (mm_d self) (mm_minmode self) (mm_H self) a (mm_xlast2 self)
    (mm_xlast self) (mm_glast self) (mm_shift self) (mm_shift_factor self) (mm_calls
    self) (mm_df self) (mm_df_pred self) (mm_ratio self) (mm_v0 self) (mm_constraints
    self) (mm_lams self) (mm_vecs self).

Definition set_xlast2 (a : option (vec F)) (self : MinMode) : MinMode :=
  mkMinMode (mm_f self) (mm_d self) (mm_minmode self) (mm_H self) (mm_flast self) a
    (mm_xlast self) (mm_glast self) (mm_shift self) (mm_shift_factor self) (mm_calls
    self) (mm_df self) (mm_df_pred self) (mm_ratio self) (mm_v0 self) (mm_constraints
    self) (mm_lams self) (mm_vecs self).

Definition set_xlast (a : option (vec F)) (self : MinMode) : MinMode :=
  mkMinMode (mm_f self) (mm_d self) (mm_minmode self) (mm_H self) (mm_flast self)
    (mm_xlast2 self) a (mm_glast self) (mm_shift self) (mm_shift_factor self) (mm_calls
    self) (mm_df self) (mm_df_pred self) (mm_ratio self) (mm_v0 self) (mm_constraints
    self) (mm_lams self) (mm_vecs self).

Definition set_glast (a : option (vec F)) (self : MinMode) : MinMode :=
  mkMinMode (mm_f self) (mm_d self) (mm_minmode self) (mm_H self) (mm_flast self)
    (mm_xlast2 self) (mm_xlast self) a (mm_shift self) (mm_shift_factor self) (mm_calls
    self) (mm_df self) (mm_df_pred self) (mm_ratio self) (mm_v0 self) (mm_constraints
    self) (mm_lams self) (mm_vecs self).

Definition set_shift (a : F) (self : MinMode) : MinMode :=
  mkMinMode (mm_f self) (mm_d self) (mm_minmode self) (mm_H self) (mm_flast self)
    (mm_xlast2 self) (mm_xlast self) (mm_glast self) a (mm_shift_factor self) (mm_calls
    self) (mm_df self) (mm_df_pred self) (mm_ratio self) (mm_v0 self) (mm_constraints
    self) (mm_lams self) (mm_vecs self).

Definition set_calls (a : nat) (self : MinMode) : MinMode :=
  mkMinMode (mm_f self) (mm_d self) (mm_minmode self) (mm_H self) (mm_flast self)
    (mm_xlast2 self) (mm_xlast self) (mm_glast self) (mm_shift self) (mm_shift_factor
    self) a (mm_df self) (mm_df_pred self) (mm_ratio self) (mm_v0 self) (mm_constraints
    self) (mm_lams self) (mm_vecs self).

Definition set_df (a : option F) (self : MinMode) : MinMode :=
  mkMinMode (mm_f self) (mm_d self) (mm_minmode self) (mm_H self) (mm_flast self)
    (mm_xlast2 self) (mm_xlast self) (mm_glast self) (mm_shift self) (mm_shift_factor
    self) (mm_calls self) a (mm_df_pred self) (mm_ratio self) (mm_v0 self)
    (mm_constraints self) (mm_lams self) (mm_vecs self).

Definition set_df_pred (a : option F) (self : MinMode) : MinMode :=
  mkMinMode (mm_f self) (mm_d self) (mm_minmode self) (mm_H self) (mm_flast self)
    (mm_xlast2 self) (mm_xlast self) (mm_glast self) (mm_shift self) (mm_shift_factor
    self) (mm_calls self) (mm_df self) a (mm_ratio self) (mm_v0 self) (mm_constraints
    self) (mm_lams self) (mm_vecs self).

Definition set_ratio (a : option F) (self : MinMode) : MinMode :=
  mkMinMode (mm_f self) (mm_d self) (mm_minmode self) (mm_H self) (mm_flast self)
    (mm_xlast2 self) (mm_xlast self) (mm_glast self) (mm_shift self) (mm_shift_factor
    self) (mm_calls self) (mm_df self) (mm_df_pred self) a (mm_v0 self) (mm_constraints
    self) (mm_lams self) (mm_vecs self).

Definition set_lams (a : option (vec F)) (self : MinMode) : MinMode :=
  mkMinMode (mm_f self) (mm_d self) (mm_minmode self) (mm_H self) (mm_flast self)
    (mm_xlast2 self) (mm_xlast self) (mm_glast self) (mm_shift self) (mm_shift_factor
    self) (mm_calls self) (mm_df self) (mm_df_pred self) (mm_ratio self) (mm_v0 self)
    (mm_constraints self) a (mm_vecs self).

Definition set_vecs (a : option (ndarray F)) (self : MinMode) : MinMode :=
  mkMinMode (mm_f self) (mm_d self) (mm_minmode self) (mm_H self) (mm_flast self)
    (mm_xlast2 self) (mm_xlast self) (mm_glast self) (mm_shift self) (mm_shift_factor
    self) (mm_calls self) (mm_df self) (mm_df_pred self) (mm_ratio self) (mm_v0 self)
    (mm_constraints self) (mm_lams self) a.

(** The object a method runs on, and the world of the potential. *)
Definition st : Type := (MinMode * W)%type.

Definition self_ : M st MinMode := fun s => (Ok (fst s), s).
Definition update (g : MinMode -> MinMode) : M st unit :=
  modify (fun s => (g (fst s), snd s)).

(** [self.f(x)] *)
Definition call_f (x : vec F) : M st (F * vec F) :=
  fun s => let (r, w) := mm_f (fst s) x (snd s) in (r, (fst s, w)).

(** A value that must not be [None] where it is used. *)
Definition not_none {A S} (e : exn) (o : option A) : M S A :=
  match o with Some a => ret a | None => raise e end.

Definition MinMode_init (f : vec F -> M W (F * vec F)) (d : nat)
           (minmode : eigensolver) (H0 : option (ndarray F))
           (v0 : option (vec F)) (trshift trshift_factor : F) : MinMode :=
  mkMinMode f d minmode H0 None None None None trshift trshift_factor 0
            None None None v0 None
            (option_map (fun H => fst (eigh H)) H0)
            (option_map (fun H => snd (eigh H)) H0).

(** [np.all(x == self.xlast)], behind [self.xlast is not None]. *)
Definition is_last (self : MinMode) (x : vec F) : bool :=
  match mm_xlast self with
  | Some xl => np_all_eq x xl
  | None => false
  end.

Definition f_update (x : vec F) : M st (option F * option (vec F)) :=
  self <- self_ ;;
  if is_last self x then ret (mm_flast self, mm_glast self)
  else
    update (fun s => set_calls (mm_calls s + 1) s) ;;
    '(f, g) <- call_f x ;;
    (match mm_flast self with
     | Some fl =>
         update (set_df (Some (Fsub f fl))) ;;
         xl <- not_none TypeError (mm_xlast self) ;;
         dx <- lift (vsub x xl) ;;
         gl <- not_none AttributeError (mm_glast self) ;;
         lin <- lift (inner gl dx) ;;
         H <- not_none TypeError (mm_H self) ;;
         dxH <- lift (vec_dot_nd dx H) ;;
         quad <- lift (inner dxH dx) ;;
         let df_pred := Fadd lin (Fdiv quad (Fdec 2 0)) in
         update (set_df_pred (Some df_pred)) ;;
         update (set_ratio (Some (Fdiv df_pred (Fsub f fl))))
     | None => ret tt
     end) ;;
    (match mm_xlast self, mm_glast self with
     | Some xl, Some gl =>
         dx <- lift (vsub x xl) ;;
         dg <- lift (vsub g gl) ;;
         let H' := update_H (mm_H self) (OneVec dx) (OneVec dg) in
         update (set_H (Some H')) ;;
         update (set_lams (Some (fst (eigh H')))) ;;
         update (set_vecs (Some (snd (eigh H'))))
     | _, _ => ret tt
     end) ;;
    update (set_flast (Some f)) ;;
    update (set_xlast2 (mm_xlast self)) ;;
    update (set_xlast (Some x)) ;;
    update (set_glast (Some g)) ;;
    ret (Some f, Some g).

(** [dx]: [self.xlast - x] *)
Definition dx (x : vec F) : M st (vec F) :=
  self <- self_ ;;
  xl <- not_none TypeError (mm_xlast self) ;;
  lift (vsub xl x).

(** Python binds the positional arguments to [x0, dxL=1e-5,
    maxres=5e-3, threepoint=False]; one too many is a TypeError, and so
    is none at all. *)
Definition bind_minmode_args (args : list (pyval F))
  : res (pyval F * pyval F * pyval F * pyval F) :=
  match args with
  | [x0] => Ok (x0, PyFloat (Fdec 1 (-5)), PyFloat (Fdec 5 (-3)), PyBool false)
  | [x0; dxL] => Ok (x0, dxL, PyFloat (Fdec 5 (-3)), PyBool false)
  | [x0; dxL; maxres] => Ok (x0, dxL, maxres, PyBool false)
  | [x0; dxL; maxres; threepoint] => Ok (x0, dxL, maxres, threepoint)
  | _ => Raise TypeError
  end.

(** [len(x0)]: only the array has a length; the value is handed on as
    the array it then is. *)
Definition sized (p : pyval F) : res (nat * vec F) :=
  match p with
  | PyArr v => Ok (length v, v)
  | _ => Raise TypeError
  end.

(** A step length or a tolerance is a number; anything else is outside
    what is modelled and is refused where it is first read. *)
Definition as_float (p : pyval F) : res F :=
  match p with
  | PyFloat a => Ok a
  | PyBool b => Ok (if b then F1 else F0)
  | _ => Raise TypeError
  end.

(** Truth value of [threepoint]. *)
Definition truth (p : pyval F) : res bool :=
  match p with
  | PyBool b => Ok b
  | PyFloat a => Ok (negb (Feqb a F0))
  | PyArr [] => Ok false
  | PyArr [a] => Ok (negb (Feqb a F0))
  | PyArr _ => Raise ValueError
  | PySelf => Ok true
  end.

(** [np.average] of a 1-d array. *)
Definition average (v : vec F) : F :=
  Fdiv (vsum v) (Fdec (Z.of_nat (length v)) 0).

(** [self.minmode(H, maxres, P, T, shift=self.shift)]; the operator comes
    back as the solver left it. *)
Definition call_minmode (H : NumericalHessian F W) (maxres : F)
           (P T : ndarray F) (shift : F)
  : M st (vec F * ndarray F * ndarray F * NumericalHessian F W) :=
  fun s =>
    match mm_minmode (fst s) maxres P T shift (H, snd s) with
    | (Ok out, (H', w)) => (Ok (out, H'), (fst s, w))
    | (Raise e, (_, w)) => (Raise e, (fst s, w))
    end.

Definition f_minmode (args : list (pyval F))
  : M st (option F * option (vec F)) :=
  '(x0, dxL, maxres, threepoint) <- lift (bind_minmode_args args) ;;
  '(d, x0) <- lift (sized x0) ;;
  '(f0, g0) <- f_update x0 ;;
  g0c <- not_none AttributeError g0 ;;
  dxL <- lift (as_float dxL) ;;
  threepoint <- lift (truth threepoint) ;;
  maxres <- lift (as_float maxres) ;;
  self <- self_ ;;
  let Htrue := NumericalHessian_init (mm_f self) x0 g0c dxL threepoint in
  let I := eye (mm_d self) in
  let T := empty_cols (mm_d self) float64 in
  P <- (match mm_H self with
        | Some H => ret H
        | None =>
            let u := vdivs g0c (norm g0c) in
            lift (nd_zip Fsub I (nd_scale (Fdec 2 0) (outer u u)))
        end) ;;
  '(lams, Vs, AVs, H) <- call_minmode Htrue maxres P T (mm_shift self) ;;
  update (fun s => set_calls (mm_calls s + nh_calls H) s) ;;
  (match mm_H self with
   | None => update (set_H (Some (nd_scale (average (map Fabs lams)) I)))
   | Some _ => ret tt
   end) ;;
  self <- self_ ;;
  let H' := update_H (mm_H self) (Columns Vs) (Columns AVs) in
  update (set_H (Some H')) ;;
  lam_top <- (match rev (fst (eigh H')) with
              | l :: _ => ret l
              | [] => raise IndexError
              end) ;;
  update (set_shift (Fmul (mm_shift_factor self) lam_top)) ;;
  update (set_lams (Some (fst (eigh H')))) ;;
  update (set_vecs (Some (snd (eigh H')))) ;;
  ret (f0, g0).

(** [f_dimer(self, x0, *args)]: its first statement is
    [self.f_minmode(self, x0, *args)], so the controller itself is the
    first positional argument of the call. *)
Definition f_dimer (x0 : vec F) (args : list (pyval F))
  : M st (option F * vec F) :=
  '(f, g) <- f_minmode (PySelf :: PyArr x0 :: args) ;;
  self <- self_ ;;
  vecs <- not_none TypeError (mm_vecs self) ;;
  v <- (if 0 <? ncols vecs then ret (col 0 vecs) else raise IndexError) ;;
  g <- not_none TypeError g ;;
  c <- lift (inner v g) ;;
  let gpar := map (fun a => Fmul a c) v in
  lams <- not_none TypeError (mm_lams self) ;;
  lam0 <- (match lams with l :: _ => ret l | [] => raise IndexError end) ;;
  if Fltb F0 lam0 then ret (f, vneg gpar)
  else
    r <- lift (vsub g (scale (Fdec 2 0) gpar)) ;;
    ret (f, r).

(** [kick(dx, minmode=False)] *)
Definition kick (step : vec F) (minmode : bool)
  : M st (option F * option (vec F) * vec F) :=
  self <- self_ ;;
  xl <- not_none TypeError (mm_xlast self) ;;
  x1 <- lift (vadd xl step) ;;
  '(f1, g1) <- (if minmode then f_minmode [PyArr x1] else f_update x1) ;;
  ret (f1, g1, step).

Definition xpolate (alpha : F) : M st (vec F) :=
  self <- self_ ;;
  x2 <- not_none TypeError (mm_xlast2 self) ;;
  xl <- not_none TypeError (mm_xlast self) ;;
  diff <- lift (vsub xl x2) ;;
  lift (vadd x2 (scale alpha diff)).

Definition constr_res (x : vec F) : M st (vec F * ndarray F) :=
  self <- self_ ;;
  match mm_constraints self with
  | None => ret ([], mkArr float64 (0, mm_d self) [])
  | Some _ => raise NotImplementedError
  end.

End MinMode.

Arguments MinMode F W : clear implicits.
Arguments st F W : clear implicits.
Arguments eigensolver F W : clear implicits.

(** ** class MinModeAtoms *)

Section MinModeAtoms.
Context {F : Type} {SF : Scalar F}.
Local Open Scope py_scope.

(** A row of an [N x 3] array: the coordinates of one atom, or the force
    on it. *)
Definition xyz : Type := (F * F * F)%type.

(** The calculator attached to the structure. *)
Record Calculator : Type := mkCalc {
  get_potential_energy : list xyz -> F;
  get_forces : list xyz -> list xyz
}.

(** The [ase.Atoms] object, as far as the controller uses it.  No ASE
    constraint object is attached to it: [ase.constraints] is outside
    this embedding. *)
Record Atoms : Type := mkAtoms {
  positions : list xyz;
  calc : Calculator
}.

(** The geometry routines the controller calls, and the constants of the
    angle arithmetic. *)
Class Geometry : Type := {
  Fpi : F;
  (** [a % b] *)
  Fmod : F -> F -> F;
  get_distance : Atoms -> indices -> F;
  get_angle : Atoms -> indices -> F;
  get_dihedral : Atoms -> indices -> F;
  (** [cart_to_internal(pos, bonds, angles, dihedrals, mask,
      gradient=True)]: the internal coordinates and their Jacobian. *)
  cart_to_internal :
    list xyz -> list indices -> list indices -> list indices ->
    vec F * ndarray F
}.
Context {GEO : Geometry}.

(** An entry of the user's constraint lists: with its target, or bare. *)
Inductive entry : Type :=
| WithTarget (target : F) (ix : indices)
| Bare (ix : indices).

(** The [constraints] argument: a dict with the optional keys ['fix'],
    ['bonds'], ['angles'], ['dihedrals']. *)
Record user_constraints : Type := mkUser {
  uc_fix : option (list nat);
  uc_bonds : option (list entry);
  uc_angles : option (list entry);
  uc_dihedrals : option (list entry)
}.

(** The fields of the object that the constraint set-up, [eval_eg] and
    [res_constr] read or write. *)
Record MinModeAtoms : Type := mkMinModeAtoms {
  ma_atoms : Atoms;
  ma_x0 : vec F;
  ma_d : nat;
  ma_constraints : option (ConstraintSet F);
  ma_nconstr : nat;
  ma_trajectory : option (list (list xyz))
}.

Definition indices_eqb (a b : indices) : bool :=
  if list_eq_dec Nat.eq_dec a b then true else false.

(** [d[key] = value]: a known key keeps its place, a new one goes last. *)
Fixpoint dict_set (d : targets F) (key : indices) (value : F) : targets F :=
  match d with
  | [] => [(key, value)]
  | (k, v) :: d' =>
      if indices_eqb k key then (k, value) :: d'
      else (k, v) :: dict_set d' key value
  end.

(** [d[key]] *)
Fixpoint dict_get (d : targets F) (key : indices) : res F :=
  match d with
  | [] => Raise KeyError
  | (k, v) :: d' => if indices_eqb k key then Ok v else dict_get d' key
  end.

Definition or_empty {A} (o : option (list A)) : list A :=
  match o with Some l => l | None => [] end.

(** A dict goes into [self.constraints] only if it is not empty. *)
Definition if_any {A} (l : list A) : option (list A) :=
  match l with [] => None | _ => Some l end.

Definition deg_to_rad (a : F) : F := Fdiv (Fmul a Fpi) (Fdec 180 0).

Definition add_entry (measure : indices -> F) (d : targets F) (e : entry)
  : targets F :=
  match e with
  | WithTarget t ix => dict_set d (_sort_constr_indices ix) t
  | Bare ix => dict_set d (_sort_constr_indices ix) (measure ix)
  end.

(** [__init__], the set-up of the constraints.  With no [constraints]
    argument the loop over the structure's own constraint objects runs
    over none, and leaves an empty dict. *)
Definition MinModeAtoms_init (atoms : Atoms) (calculator : Calculator)
           (trajectory : bool) (constraints : option user_constraints)
  : MinModeAtoms :=
  let atoms' := mkAtoms (positions atoms) calculator in
  let x0 := flat_map (fun p => match p with (a, b, c) => [a; b; c] end)
                     (positions atoms) in
  let d := 3 * length (positions atoms) in
  let traj := if trajectory then Some [] else None in
  match constraints with
  | Some uc =>
      let fixd := or_empty (uc_fix uc) in
      let bonds := fold_left (add_entry (get_distance atoms)) (or_empty (uc_bonds uc)) [] in
      let angles :=
        fold_left (add_entry (fun ix => deg_to_rad (get_angle atoms ix)))
                  (or_empty (uc_angles uc)) [] in
      let dihedrals :=
        fold_left (add_entry (fun ix => deg_to_rad (get_dihedral atoms ix)))
                  (or_empty (uc_dihedrals uc)) [] in
      mkMinModeAtoms atoms' x0 (d - 3 * length fixd)
        (Some (mkConstraints (if_any fixd) (if_any bonds) (if_any angles)
                             (if_any dihedrals)))
        (length bonds + length angles + length dihedrals) traj
  | None =>
      mkMinModeAtoms atoms' x0 d (Some (mkConstraints None None None None)) 0 traj
  end.

(** [x.reshape((-1, 3))] of a 1-d array. *)
Fixpoint reshape3 (x : vec F) : res (list xyz) :=
  match x with
  | [] => Ok []
  | a :: b :: c :: x' => let* t := reshape3 x' in Ok ((a, b, c) :: t)
  | _ => Raise ValueError
  end.

(** [g.ravel()] of an [n x 3] array. *)
Definition ravel3 (p : list xyz) : vec F :=
  flat_map (fun q => match q with (a, b, c) => [a; b; c] end) p.

Definition neg3 (p : xyz) : xyz :=
  match p with (a, b, c) => (Fneg a, Fneg b, Fneg c) end.

Definition zero3 : xyz := (F0, F0, F0).

(** [a[i]] *)
Definition row {A} (a : list A) (i : nat) : res A :=
  match nth_error a i with Some p => Ok p | None => Raise IndexError end.

(** [a[i] = p] *)
Fixpoint set_row {A} (a : list A) (i : nat) (p : A) : res (list A) :=
  match a, i with
  | [], _ => Raise IndexError
  | _ :: a', 0 => Ok (p :: a')
  | q :: a', S i' => let* t := set_row a' i' p in Ok (q :: t)
  end.

(** [i in fix] *)
Definition is_fixed (fixd : list nat) (i : nat) : bool :=
  existsb (Nat.eqb i) fixd.

(** The first loop of [eval_eg], over the atoms [ids] with the counter
    [n]: a fixed atom takes its row of [x0], a free one the next row of
    [xin]. *)
Fixpoint scatter (fixd : list nat) (x0 xin : list xyz) (ids : list nat) (n : nat)
  : res (list xyz) :=
  match ids with
  | [] => Ok []
  | i :: ids' =>
      if is_fixed fixd i
      then let* p := row x0 i in
           let* t := scatter fixd x0 xin ids' n in Ok (p :: t)
      else let* p := row xin n in
           let* t := scatter fixd x0 xin ids' (S n) in Ok (p :: t)
  end.

(** The second loop of [eval_eg]: the rows of [f] of the free atoms are
    written to [g], one after the other. *)
Fixpoint gather (fixd : list nat) (f : list xyz) (ids : list nat) (n : nat)
         (g : list xyz) : res (list xyz) :=
  match ids with
  | [] => Ok g
  | i :: ids' =>
      if is_fixed fixd i then gather fixd f ids' n g
      else let* fi := row f i in
           let* g' := set_row g n fi in
           gather fixd f ids' (S n) g'
  end.

(** [self.atoms.set_positions(pos)]: the array must have the shape of the
    one it replaces. *)
Definition set_positions (pos : list xyz) : M MinModeAtoms unit :=
  fun self =>
    if length pos =? length (positions (ma_atoms self))
    then (Ok tt, mkMinModeAtoms (mkAtoms pos (calc (ma_atoms self)))
                   (ma_x0 self) (ma_d self) (ma_constraints self)
                   (ma_nconstr self) (ma_trajectory self))
    else (Raise ValueError, self).

(** [self.trajectory.write(self.atoms)] *)
Definition write_trajectory : M MinModeAtoms unit :=
  fun self =>
    (Ok tt, mkMinModeAtoms (ma_atoms self) (ma_x0 self) (ma_d self)
              (ma_constraints self) (ma_nconstr self)
              (option_map (fun t => t ++ [positions (ma_atoms self)])
                          (ma_trajectory self))).

(** [self.constraints.get('fix')], where it is tested for truth: a
    missing key and an empty list both count as false. *)
Definition fixed_atoms (self : MinModeAtoms) : res (option (list nat)) :=
  match ma_constraints self with
  | None => Raise AttributeError
  | Some cs => Ok (match cs_fix cs with
                   | Some (i :: l) => Some (i :: l)
                   | _ => None
                   end)
  end.

Definition eval_eg (x : vec F) : M MinModeAtoms (F * vec F) :=
  xin <- lift (reshape3 x) ;;
  self <- get ;;
  fixd <- lift (fixed_atoms self) ;;
  let natoms := length (positions (ma_atoms self)) in
  pos <- (match fixd with
          | Some fixd =>
              x0 <- lift (reshape3 (ma_x0 self)) ;;
              lift (scatter fixd x0 xin (seq 0 natoms) 0)
          | None => ret xin
          end) ;;
  set_positions pos ;;
  self <- get ;;
  let e := get_potential_energy (calc (ma_atoms self)) (positions (ma_atoms self)) in
  let f := map neg3 (get_forces (calc (ma_atoms self)) (positions (ma_atoms self))) in
  g <- (match fixd with
        | Some fixd =>
            lift (gather fixd f (seq 0 (length pos)) 0 (repeat zero3 (length xin)))
        | None => ret f
        end) ;;
  write_trajectory ;;
  ret (e, ravel3 g).

(** The loop of [res_constr] that builds [pos]: a fixed atom's row is
    filled with the single entry [self.x0[i]] of the flat array, a free
    one takes the next row of [xin]. *)
Fixpoint scatter_flat (fixd : list nat) (x0 : vec F) (xin : list xyz)
         (ids : list nat) (n : nat) : res (list xyz) :=
  match ids with
  | [] => Ok []
  | i :: ids' =>
      if is_fixed fixd i
      then let* a := row x0 i in
           let* t := scatter_flat fixd x0 xin ids' n in Ok ((a, a, a) :: t)
      else let* p := row xin n in
           let* t := scatter_flat fixd x0 xin ids' (S n) in Ok (p :: t)
  end.

(** [for indices in keys: r[n] -= d[tuple(indices)]; n += 1] *)
Fixpoint subtract_targets (d : targets F) (keys : list indices) (r : vec F)
         (n : nat) : res (vec F * nat) :=
  match keys with
  | [] => Ok (r, n)
  | k :: keys' =>
      let* rn := row r n in
      let* t := dict_get d k in
      let* r' := set_row r n (Fsub rn t) in
      subtract_targets d keys' r' (S n)
  end.

(** [(a + np.pi) % (2 * np.pi) - np.pi] *)
Definition wrap (a : F) : F :=
  Fsub (Fmod (Fadd a Fpi) (Fmul (Fdec 2 0) Fpi)) Fpi.

(** [for indices in d_indices: r[n] = (r[n] - d[tuple(indices)] + pi) %
    (2 pi) - pi]; the counter [n] stays where the angle loop left it. *)
Fixpoint wrap_dihedrals (d : targets F) (keys : list indices) (r : vec F)
         (n : nat) : res (vec F) :=
  match keys with
  | [] => Ok r
  | k :: keys' =>
      let* rn := row r n in
      let* t := dict_get d k in
      let* r' := set_row r n (wrap (Fsub rn t)) in
      wrap_dihedrals d keys' r' n
  end.

(** [a.reshape(-1, w)] of the entries [v] in row-major order. *)
Definition reshape_width (w : nat) (t : dtype) (v : vec F) : res (ndarray F) :=
  if w =? 0 then Raise ValueError
  else if negb (length v mod w =? 0) then Raise ValueError
  else let n := length v / w in
       Ok (mkArr t (n, w) (map (fun i => firstn w (skipn (i * w) v)) (seq 0 n))).

(** [drdx.reshape(-1, natoms, 3)[:, unfix, :].reshape(-1, d)] *)
Definition free_columns (natoms d : nat) (unfix : list nat) (drdx : ndarray F)
  : res (ndarray F) :=
  let* blocks := reshape_width (3 * natoms) (adtype drdx) (concat (rows drdx)) in
  let kept := map (fun b => flat_map (fun i => firstn 3 (skipn (3 * i) b)) unfix)
                  (rows blocks) in
  reshape_width d (adtype drdx) (concat kept).

Definition res_constr (x : vec F) : M MinModeAtoms (vec F * ndarray F) :=
  xin <- lift (reshape3 x) ;;
  self <- get ;;
  cs <- not_none AttributeError (ma_constraints self) ;;
  let fixd := or_empty (cs_fix cs) in
  let bonds := or_empty (cs_bonds cs) in
  let angles := or_empty (cs_angles cs) in
  let dihedrals := or_empty (cs_dihedrals cs) in
  let b_indices := map fst bonds in
  let a_indices := map fst angles in
  let d_indices := map fst dihedrals in
  let natoms := length (positions (ma_atoms self)) in
  pos <- lift (scatter_flat fixd (ma_x0 self) xin (seq 0 natoms) 0) ;;
  let unfix := filter (fun i => negb (is_fixed fixd i)) (seq 0 natoms) in
  let internal := cart_to_internal pos b_indices a_indices d_indices in
  '(r, n) <- lift (subtract_targets bonds b_indices (fst internal) 0) ;;
  '(r, n) <- lift (subtract_targets angles a_indices r n) ;;
  r <- lift (wrap_dihedrals dihedrals d_indices r n) ;;
  drdx <- lift (free_columns natoms (ma_d self) unfix (snd internal)) ;;
  ret (r, drdx).

(** A run of evaluations, whatever each of them does: one that raises
    leaves the object as it was when it raised, and the next goes on
    from there. *)
Fixpoint evaluations (xs : list (vec F)) (self : MinModeAtoms) : MinModeAtoms :=
  match xs with
  | [] => self
  | x :: xs' => evaluations xs' (snd (eval_eg x self))
  end.

End MinModeAtoms.

Arguments xyz F : clear implicits.
Arguments Calculator F : clear implicits.
Arguments Atoms F : clear implicits.
Arguments Geometry F : clear implicits.
Arguments entry F : clear implicits.
Arguments user_constraints F : clear implicits.
Arguments MinModeAtoms F : clear implicits.

(* ===================================================================== *)
(** * The arithmetic of the real numbers, and a potential that is watched *)
(* ===================================================================== *)

(** Exact real arithmetic as the scalars. *)
#[export] Instance R_Scalar : Scalar R := {|
  F0 := 0%R;
  F1 := 1%R;
  Fdec := fun m k => (IZR m * powerRZ 10 k)%R;
  Fadd := Rplus;
  Fsub := Rminus;
  Fmul := Rmult;
  Fdiv := Rdiv;
  Fconj := fun a => a;
  Fabs := Rabs;
  Fsqrt := sqrt;
  Feqb := fun a b => if Req_dec_T a b then true else false;
  Fltb := fun a b => if Rlt_dec a b then true else false
|}.

(** Python's [a % b] on real numbers: [a - b * floor(a / b)]. *)
Definition floor_mod (a b : R) : R := (a - b * IZR (Int_part (a / b)))%R.

(** A geometry over the reals: [np.pi] is pi and [%] is [pmod]; the
    routines of the structure stay what the caller supplies. *)
Definition modular_geometry (pmod : R -> R -> R)
           (distance angle dihedral : Atoms R -> indices -> R)
           (internal : list (xyz R) -> list indices -> list indices ->
                       list indices -> vec R * ndarray R)
  : Geometry R :=
  {| Fpi := PI;
     Fmod := pmod;
     get_distance := distance;
     get_angle := angle;
     get_dihedral := dihedral;
     cart_to_internal := internal |}.

(** The geometry in exact arithmetic: [%] is [floor_mod]. *)
Definition real_geometry
           (distance angle dihedral : Atoms R -> indices -> R)
           (internal : list (xyz R) -> list indices -> list indices ->
                       list indices -> vec R * ndarray R)
  : Geometry R :=
  modular_geometry floor_mod distance angle dihedral internal.

(** A potential [pot] whose calls are observed: the world it runs in is the
    list of the positions it has been evaluated at, oldest first. *)
Definition watched {F : Type} (pot : vec F -> F * vec F)
  : vec F -> M (list (vec F)) (F * vec F) :=
  fun x log => (Ok (pot x), log ++ [x]).

(* ===================================================================== *)
(** * Properties of linalg.py *)
(* ===================================================================== *)

Section LinalgFacts.
Context {F : Type} {SF : Scalar F}.

Lemma dtype_leb_refl (t : dtype) : dtype_leb t t = true.
Proof. destruct t; reflexivity. Qed.

Lemma shape_eqb_refl (sh : nat * nat) : shape_eqb sh sh = true.
Proof. unfold shape_eqb. now rewrite !Nat.eqb_refl. Qed.

(** With an array of fitting shape as the operand, [_matmat] does return
    a wrapper around the product. *)
Lemma matmat_with_array (W : MatrixWrapper F) (B : ndarray F) :
  ncols (mw_A W) = nrows B ->
  exists C, nd_dot_nd (mw_A W) B = Ok C /\
            MatrixWrapper_matmat W (OArr B) = Ok (mkWrapper (ashape C) (adtype C) C).
Proof.
  intros Hs. unfold MatrixWrapper_matmat, nd_dot_nd.
  rewrite Hs, Nat.eqb_refl. eexists. split; reflexivity.
Qed.

(** [_matvec] and [_rmatvec] hand the vector to the wrapped array. *)
Lemma matvec_is_dot (W : MatrixWrapper F) (v : vec F) :
  MatrixWrapper_matvec W v = nd_dot_vec (mw_A W) v /\
  MatrixWrapper_rmatvec W v = vec_dot_nd v (mw_A W).
Proof. split; reflexivity. Qed.

(** [_adjoint] wraps the conjugate transpose, and keeps nothing else. *)
Lemma adjoint_wraps_conj_transpose (W : MatrixWrapper F) :
  exists W', MatrixWrapper_adjoint W = Ok W' /\
             mw_A W' = transpose (conj (mw_A W)) /\
             mw_shape W' = (ncols (mw_A W), nrows (mw_A W)).
Proof. eexists. repeat split. Qed.

End LinalgFacts.

(** C7. A dense matrix-matrix product whose right operand is a
    [MatrixSum] raises ValueError, in [_matmat] and in [_rmatmat], for
    every wrapped matrix and every sum, whatever their shapes. *)
Theorem matmat_with_sum_raises :
  forall (F : Type) (SF : Scalar F) (W : MatrixWrapper F) (S0 : MatrixSum F),
    MatrixWrapper_matmat W (OSum S0) = Raise ValueError /\
    MatrixWrapper_rmatmat W (OSum S0) = Raise ValueError.
Proof. intros F SF W S0. split; reflexivity. Qed.

(** C9. [_transpose] hands the method object [self.A.transpose] (not its
    result) to the constructor, which reads [.shape] from it: the call
    raises AttributeError for every wrapped matrix, and returns no
    operator for the transpose. *)
Theorem MatrixWrapper_transpose_raises :
  forall (F : Type) (SF : Scalar F) (W : MatrixWrapper F),
    MatrixWrapper_transpose W = Raise AttributeError.
Proof. intros F SF W. reflexivity. Qed.

(** The matrix [[0 1] [0 0]], which is not its own transpose. *)
Definition shift_matrix : ndarray R :=
  mkArr float64 (2, 2) [[0; 1]; [0; 0]]%R.


Section NumericalHessianFacts.
Context {F : Type} {SF : Scalar F} {W : Type}.

(** Whatever the potential does and however the call ends, the operator
    comes out of [_matvec] with its counter one higher and nothing else
    changed. *)
Lemma matvec_bumps_calls (H : NumericalHessian F W) (v : vec F) (w : W) :
  fst (snd (NumericalHessian_matvec v (H, w))) = nh_set_calls (nh_calls H + 1) H.
Proof.
  unfold NumericalHessian_matvec, bind, modify, get, lift, call_func, ret, raise.
  cbn.
  destruct (vadd _ _) as [xp|e]; cbn; [| reflexivity].
  destruct (nh_func H xp w) as [[[fp gp]|e] w1]; cbn; [| reflexivity].
  destruct (nh_threepoint H); cbn.
  - destruct (vsub (nh_x0 H) _) as [xm|e]; cbn; [| reflexivity].
    destruct (nh_func H xm w1) as [[[fm gm]|e] w2]; cbn; [| reflexivity].
    destruct (vsub gp gm); reflexivity.
  - destruct (vsub gp _) as [dg|e]; cbn; [| reflexivity].
    destruct (length dg =? length v); reflexivity.
Qed.

End NumericalHessianFacts.

(** A quadratic potential: [f(x) = sum(x * x) / 2], with gradient [x]. *)
Definition quadratic (x : vec R) : R * vec R :=
  ((vsum (zip_with Rmult x x) / 2)%R, x).

(** A three-point probe of it, anchored at the origin of the line. *)
Definition threepoint_probe : NumericalHessian R (list (vec R)) :=
  NumericalHessian_init (watched quadratic) [0%R] [0%R] 1%R true.

(** C3 fails in three-point mode: one [_matvec] of a three-point operator
    evaluates the potential twice and adds one to [calls]. *)
Lemma threepoint_matvec_counts_one_of_two :
  (exists y, fst (NumericalHessian_matvec [1%R] (threepoint_probe, [])) = Ok y) /\
  length (snd (snd (NumericalHessian_matvec [1%R] (threepoint_probe, [])))) = 2 /\
  nh_calls (fst (snd (NumericalHessian_matvec [1%R] (threepoint_probe, []))))
  = nh_calls threepoint_probe + 1 /\
  nh_calls (fst (snd (NumericalHessian_matvec [1%R] (threepoint_probe, []))))
  <> nh_calls threepoint_probe + 2.
Proof.
  cbn. repeat split.
  - eexists. reflexivity.
  - discriminate.
Qed.

(** C3. What [_matvec] does, against what the counter is for: [calls] is
    added to the controller's count of potential evaluations, yet every
    [_matvec] adds exactly one to it, in two-point and in three-point mode
    alike, while a call that returns has evaluated the potential once in
    two-point mode and twice in three-point mode.  The second evaluation
    of the three-point branch goes uncounted.  No other field of the
    operator changes. *)
Theorem matvec_counts_calls :
  forall (F : Type) (SF : Scalar F) (pot : vec F -> F * vec F)
         (x0 g0 : vec F) (dxL : F) (threepoint : bool) (calls : nat)
         (shape : nat * nat) (v : vec F) (log : list (vec F)),
    let H := mkNH (watched pot) x0 g0 dxL threepoint calls shape in
    let out := NumericalHessian_matvec v (H, log) in
    fst (snd out) = mkNH (watched pot) x0 g0 dxL threepoint (calls + 1) shape /\
    (forall y, fst out = Ok y ->
               length (snd (snd out))
               = length log + (if threepoint then 2 else 1)).
Proof.
  intros F SF pot x0 g0 dxL threepoint calls shape v log H out.
  split.
  - unfold out. rewrite matvec_bumps_calls. reflexivity.
  - unfold out, H, NumericalHessian_matvec, bind, modify, get, lift, call_func,
      ret, raise, watched.
    cbn. intros y.
    destruct (vadd _ _) as [xp|e]; cbn; [| intros Hy; discriminate Hy].
    destruct (pot xp) as [fp gp]; cbn.
    destruct threepoint; cbn.
    + destruct (vsub x0 _) as [xm|e]; cbn; [| intros Hy; discriminate Hy].
      destruct (pot xm) as [fm gm]; cbn.
      destruct (vsub _ _); cbn; [| intros Hy; discriminate Hy].
      intros _. rewrite !length_app. cbn. lia.
    + destruct (vsub _ _) as [dg|e]; cbn; [| intros Hy; discriminate Hy].
      destruct (length dg =? length v); cbn; [| intros Hy; discriminate Hy].
      intros _. rewrite length_app. cbn. lia.
Qed.

(** C3 at the three-point probe of the quadratic. *)
Lemma matvec_counts_calls_witness :
  fst (NumericalHessian_matvec [1%R] (threepoint_probe, []))
  = Ok [(sqrt (Rabs 1 * Rabs 1 + 0) *
         ((0 + 1 * 1 / sqrt (Rabs 1 * Rabs 1 + 0)) -
          (0 - 1 * 1 / sqrt (Rabs 1 * Rabs 1 + 0))) /
         ((1 + 1) * 1))%R] /\
  length (snd (snd (NumericalHessian_matvec [1%R] (threepoint_probe, [])))) = 0 + 2.
Proof.
  split.
  - reflexivity.
  - eapply (proj2 (matvec_counts_calls R_Scalar quadratic [0%R] [0%R] 1%R true 0
                                       (1, 1) [1%R] [])).
    reflexivity.
Defined.

(* ===================================================================== *)
(** * Properties of the generic controller *)
(* ===================================================================== *)

(** Case analysis on the innermost test or call that blocks a run. *)
Ltac break_match :=
  match goal with
  | |- context [match ?X with _ => _ end] =>
      match X with
      | context [match _ with _ => _ end] => fail 1
      | _ => destruct X eqn:?
      end
  end.

Ltac run_method := repeat (cbn; break_match); cbn.

Section ArrayFacts.
Context {F : Type} {SF : Scalar F}.

Lemma length_zip_with (op : F -> F -> F) (u v : vec F) :
  length u = length v -> length (zip_with op u v) = length v.
Proof.
  revert v. induction u as [|a u IH]; intros [|b v] Hl; cbn in *; try congruence.
  f_equal. apply IH. congruence.
Qed.

Lemma broadcast_same_length (op : F -> F -> F) (u v : vec F) :
  length u = length v -> broadcast op u v = Ok (zip_with op u v).
Proof. intros Hl. unfold broadcast. now rewrite Hl, Nat.eqb_refl. Qed.

Lemma inner_same_length (u v : vec F) :
  length u = length v -> inner u v = Ok (vsum (zip_with Fmul u v)).
Proof. intros Hl. unfold inner. now rewrite Hl, Nat.eqb_refl. Qed.

Lemma length_columns (A : ndarray F) : length (columns A) = ncols A.
Proof. unfold columns. now rewrite length_map, length_seq. Qed.

End ArrayFacts.

Section MinModeFacts.
Context {F : Type} {SF : Scalar F} {EX : Collaborators F} {W : Type}.

(** A query at the cached position returns the cache and touches neither
    the controller nor the world of the potential. *)
Lemma f_update_hit (self : MinMode F W) (w : W) (x : vec F) :
  is_last self x = true ->
  f_update x (self, w) = (Ok (mm_flast self, mm_glast self), (self, w)).
Proof.
  intros Hhit. unfold f_update, bind, self_, ret. cbn. rewrite Hhit. reflexivity.
Qed.

(** An evaluation that returns has cached what it returns, and has counted
    itself. *)
Lemma f_update_returns (self self1 : MinMode F W) (w w1 : W) (x : vec F)
      (r : option F * option (vec F)) :
  is_last self x = false ->
  f_update x (self, w) = (Ok r, (self1, w1)) ->
  mm_xlast self1 = Some x /\ mm_flast self1 = fst r /\ mm_glast self1 = snd r /\
  mm_calls self1 = mm_calls self + 1.
Proof.
  intros Hmiss. unfold f_update, bind, self_, ret, update, modify, call_f, lift,
    not_none, raise. cbn. rewrite Hmiss.
  run_method; intros Heq; try discriminate Heq;
    injection Heq as <- <- <-; cbn; auto.
Qed.

(** On a controller that has evaluated nothing yet, the first evaluation
    returns what the potential returns. *)
Lemma f_update_first (self : MinMode F W) (w w1 : W) (x : vec F) (f : F) (g : vec F) :
  mm_flast self = None -> mm_xlast self = None ->
  mm_f self x w = (Ok (f, g), w1) ->
  exists self1, f_update x (self, w) = (Ok (Some f, Some g), (self1, w1)) /\
                mm_calls self1 = mm_calls self + 1.
Proof.
  intros Hf Hx Hpot.
  unfold f_update, bind, self_, ret, update, modify, call_f, lift, not_none,
    raise, is_last.
  cbn. rewrite Hx, Hf. cbn. rewrite Hpot. cbn.
  eexists. split; reflexivity.
Qed.

(** The stored ratio is never read: with another value in its place the
    evaluation returns the same, and leaves the same controller and the
    same world, up to the ratio itself. *)
Lemma f_update_ignores_ratio (self : MinMode F W) (w : W) (x : vec F) (r0 : option F) :
  fst (f_update x (set_ratio r0 self, w)) = fst (f_update x (self, w)) /\
  snd (snd (f_update x (set_ratio r0 self, w))) = snd (snd (f_update x (self, w))) /\
  set_ratio None (fst (snd (f_update x (set_ratio r0 self, w))))
  = set_ratio None (fst (snd (f_update x (self, w)))).
Proof.
  destruct self.
  unfold f_update, bind, self_, ret, update, modify, call_f, lift, not_none,
    raise, is_last.
  run_method; repeat split; reflexivity.
Qed.

(** [f_minmode] with the controller as its first positional argument
    raises TypeError before it touches anything. *)
Lemma f_minmode_self_first (s : st F W) (rest : list (pyval F)) :
  f_minmode (PySelf :: rest) s = (Raise TypeError, s).
Proof.
  unfold f_minmode, bind, lift.
  destruct rest as [|a [|b [|c [|d rest]]]]; reflexivity.
Qed.

End MinModeFacts.

(** C1. If [x] is the position last evaluated (and compares equal to
    itself), [f_update] returns the cached [(f, g)] and leaves the
    controller and the world of the potential as they were: no call of the
    potential, no count.  Hence of two calls with the same [x], the first
    of which returns, the second returns the same pair and changes
    nothing, and [calls] has gone up once if the first call had to
    evaluate, and not at all otherwise. *)
Theorem f_update_twice :
  forall (F : Type) (SF : Scalar F) (EX : Collaborators F) (W : Type)
         (self : MinMode F W) (w : W) (x : vec F),
    np_all_eq x x = true ->
    (mm_xlast self = Some x ->
     f_update x (self, w) = (Ok (mm_flast self, mm_glast self), (self, w))) /\
    (forall r self1 w1,
        f_update x (self, w) = (Ok r, (self1, w1)) ->
        f_update x (self1, w1) = (Ok r, (self1, w1)) /\
        mm_calls self1 = mm_calls self + (if is_last self x then 0 else 1)).
Proof.
  intros F SF EX W self w x Hxx. split.
  - intros Hlast. apply f_update_hit. unfold is_last. now rewrite Hlast.
  - intros r self1 w1 Hfirst.
    destruct (is_last self x) eqn:Hhit.
    + rewrite (f_update_hit self w x Hhit) in Hfirst.
      injection Hfirst as <- <- <-.
      split; [apply f_update_hit; exact Hhit | lia].
    + destruct (f_update_returns self w x Hhit Hfirst) as (Hx & Hf & Hg & Hc).
      split; [| exact Hc].
      rewrite f_update_hit.
      * rewrite Hf, Hg. now destruct r.
      * unfold is_last. now rewrite Hx.
Qed.

(** C2. [f_dimer] raises TypeError for every anchor and every further
    argument, and leaves the controller untouched: its call of
    [f_minmode] binds the controller itself to [x0], whose length is then
    asked for.  The decomposition of the gradient is never reached. *)
Theorem f_dimer_raises :
  forall (F : Type) (SF : Scalar F) (EX : Collaborators F) (W : Type)
         (s : st F W) (x0 : vec F) (args : list (pyval F)),
    f_dimer x0 args s = (Raise TypeError, s).
Proof.
  intros F SF EX W s x0 args. unfold f_dimer, bind.
  now rewrite f_minmode_self_first.
Qed.

(** Collaborators for concrete runs: the update keeps the matrix it is
    given, and the decomposition reads off the diagonal. *)
Definition diagonal_model : Collaborators R :=
  {| update_H := fun H _ _ => match H with Some h => h | None => eye 0 end;
     eigh := fun H => (map (fun i => nth i (nth i (rows H) []) 0%R) (seq 0 (nrows H)),
                       eye (nrows H)) |}.

(** An eigensolver that makes no probe. *)
Definition idle_solver : eigensolver R (list (vec R)) :=
  fun _ _ T _ s => (Ok ([], T, T), s).

(** A controller on the line, with no Hessian yet. *)
Definition fresh_controller : MinMode R (list (vec R)) :=
  MinMode_init (EX := diagonal_model) (watched quadratic) 1 idle_solver
               None None 1000%R 4%R.

(** A controller on the line whose model Hessian is [[4]], four times the
    curvature of the quadratic. *)
Definition stiff_controller : MinMode R (list (vec R)) :=
  MinMode_init (EX := diagonal_model) (watched quadratic) 1 idle_solver
               (Some (mkArr float64 (1, 1) [[4%R]])) None 1000%R 4%R.

Definition after_first_step : st R (list (vec R)) :=
  snd (f_update (EX := diagonal_model) [0%R] (stiff_controller, [])).

Definition after_second_step : st R (list (vec R)) :=
  snd (f_update (EX := diagonal_model) [1%R] after_first_step).

Lemma one_is_not_zero_position : np_all_eq [1%R] [0%R] = false.
Proof.
  cbn. destruct (Req_dec_T 1 0) as [E|_]; [exfalso; lra | reflexivity].
Qed.

Lemma real_position_equals_itself (x : vec R) : np_all_eq x x = true.
Proof.
  unfold np_all_eq. rewrite Nat.eqb_refl.
  induction x as [|a x IH]; cbn; [reflexivity |].
  destruct (Req_dec_T a a) as [_|E]; [exact IH | contradiction].
Qed.

(** The first claim at a fresh controller on the line, asked twice for the
    position 1. *)
Lemma f_update_twice_witness :
  np_all_eq [1%R] [1%R] = true /\
  f_update (EX := diagonal_model) [1%R]
           (snd (f_update (EX := diagonal_model) [1%R] (fresh_controller, [])))
  = (Ok (Some ((1 * 1 + 0) / 2)%R, Some [1%R]),
     snd (f_update (EX := diagonal_model) [1%R] (fresh_controller, []))) /\
  mm_calls (fst (snd (f_update (EX := diagonal_model) [1%R] (fresh_controller, []))))
  = 0 + 1.
Proof.
  split; [apply real_position_equals_itself |].
  apply (proj2 (@f_update_twice R R_Scalar diagonal_model (list (vec R))
                                fresh_controller [] [1%R]
                                (real_position_equals_itself [1%R]))
               (Some ((1 * 1 + 0) / 2)%R, Some [1%R])
               (fst (snd (f_update (EX := diagonal_model) [1%R] (fresh_controller, []))))
               (snd (snd (f_update (EX := diagonal_model) [1%R] (fresh_controller, []))))).
  reflexivity.
Defined.

(** C5, as stated, fails: on the line, with model Hessian [[4]] and the
    quadratic potential, the step from 0 to 1 has actual change 1/2 and
    predicted change 2; the stored ratio is 4, predicted over actual, and
    not actual over predicted. *)
Lemma ratio_is_predicted_over_actual :
  exists df df_pred ratio : R,
    mm_df (fst after_second_step) = Some df /\
    mm_df_pred (fst after_second_step) = Some df_pred /\
    mm_ratio (fst after_second_step) = Some ratio /\
    df = (1 / 2)%R /\ df_pred = 2%R /\ ratio = 4%R /\
    ratio <> (df / df_pred)%R.
Proof.
  unfold after_second_step, after_first_step. cbn.
  destruct (Req_dec_T 1 0) as [E|_]; [exfalso; lra |]. cbn.
  do 3 eexists. split; [reflexivity |]. split; [reflexivity |].
  split; [reflexivity |].
  assert (Hdf : ((1 * 1 + 0) / 2 - (0 * 0 + 0) / 2 = 1 / 2)%R) by lra.
  assert (Hp : (0 * (1 - 0) + 0 + (((1 - 0) * 4 + 0) * (1 - 0) + 0) / (2 * 1) = 2)%R)
    by lra.
  rewrite Hdf, Hp.
  repeat split; lra.
Qed.

(** C5, amended. On an evaluation at a new position, with a previous
    value, position and gradient cached, a model Hessian present and the
    shapes fitting, [f_update] stores [df = f - flast], the predicted
    change [df_pred = glast . dx + (dx . H . dx) / 2] with
    [dx = x - xlast] and the Hessian as it was before the update, and
    [ratio = df_pred / df], predicted over actual.  The ratio is only
    stored: with any other value in its place beforehand the evaluation
    returns the same and leaves the same controller, ratio apart. *)
Theorem f_update_stores_ratio :
  forall (F : Type) (SF : Scalar F) (EX : Collaborators F) (W : Type)
         (self : MinMode F W) (w w1 : W) (x xl gl g : vec F) (fl f : F)
         (H : ndarray F),
    mm_flast self = Some fl -> mm_xlast self = Some xl ->
    mm_glast self = Some gl -> mm_H self = Some H ->
    np_all_eq x xl = false ->
    mm_f self x w = (Ok (f, g), w1) ->
    length xl = length x -> length gl = length x -> length g = length x ->
    ashape H = (length x, length x) ->
    let dx := zip_with Fsub x xl in
    let dxH := map (fun c => vsum (zip_with Fmul dx c)) (columns H) in
    let df_pred := Fadd (vsum (zip_with Fmul gl dx))
                        (Fdiv (vsum (zip_with Fmul dxH dx)) (Fdec 2 0)) in
    (exists self1,
        f_update x (self, w) = (Ok (Some f, Some g), (self1, w1)) /\
        mm_df self1 = Some (Fsub f fl) /\
        mm_df_pred self1 = Some df_pred /\
        mm_ratio self1 = Some (Fdiv df_pred (Fsub f fl))) /\
    (forall r0,
        fst (f_update x (set_ratio r0 self, w)) = fst (f_update x (self, w)) /\
        set_ratio None (fst (snd (f_update x (set_ratio r0 self, w))))
        = set_ratio None (fst (snd (f_update x (self, w))))).
Proof.
  intros F SF EX W self w w1 x xl gl g fl f H Hfl Hxl Hgl HH Hnew Hpot
         Lxl Lgl Lg Hshape dx dxH df_pred.
  assert (Ldx : length dx = length x).
  { unfold dx. rewrite length_zip_with; congruence. }
  split.
  - unfold f_update, bind, self_, ret, update, modify, call_f, lift, not_none,
      raise, is_last.
    cbn. rewrite Hxl, Hnew, Hfl, Hgl, HH. cbn. rewrite Hpot. cbn.
    unfold vsub. rewrite (broadcast_same_length Fsub x xl) by congruence.
    cbn. fold dx.
    rewrite (inner_same_length gl dx) by congruence. cbn.
    unfold vec_dot_nd, nrows. rewrite Hshape. cbn. rewrite Ldx, Nat.eqb_refl. cbn.
    fold dxH.
    rewrite (inner_same_length dxH dx).
    2:{ unfold dxH. rewrite length_map, length_columns. unfold ncols.
        rewrite Hshape. cbn. congruence. }
    cbn. rewrite (broadcast_same_length Fsub g gl) by congruence. cbn.
    eexists. repeat split.
  - intros r0.
    destruct (f_update_ignores_ratio self w x r0) as (Hr & _ & Hs).
    split; assumption.
Qed.

(** The amended C5 at the second step of the stiff controller. *)
Lemma f_update_stores_ratio_witness :
  exists self1,
    f_update (EX := diagonal_model) [1%R] after_first_step
    = (Ok (Some ((1 * 1 + 0) / 2)%R, Some [1%R]), (self1, [[0%R]; [1%R]])) /\
    mm_df self1 = Some ((1 * 1 + 0) / 2 - (0 * 0 + 0) / 2)%R /\
    mm_ratio self1
    = Some ((0 * (1 - 0) + 0 + (((1 - 0) * 4 + 0) * (1 - 0) + 0) / (2 * 1)) /
            ((1 * 1 + 0) / 2 - (0 * 0 + 0) / 2))%R.
Proof.
  destruct (@f_update_stores_ratio R R_Scalar diagonal_model (list (vec R))
              (fst after_first_step) (snd after_first_step) [[0%R]; [1%R]]
              [1%R] [0%R] [0%R] [1%R] ((0 * 0 + 0) / 2)%R ((1 * 1 + 0) / 2)%R
              (mkArr float64 (1, 1) [[4%R]])
              eq_refl eq_refl eq_refl eq_refl one_is_not_zero_position
              eq_refl eq_refl eq_refl eq_refl eq_refl)
    as [(self1 & Hret & Hdf & _ & Hratio) _].
  exists self1. repeat split; assumption.
Defined.

(* ===================================================================== *)
(** * Properties of the projected operator *)
(* ===================================================================== *)

Section HistoryFacts.
Context {F : Type} {SF : Scalar F}.

Lemma map_seq_offset {A : Type} (f : nat -> A) (k n : nat) :
  map f (seq k n) = map (fun j => f (k + j)) (seq 0 n).
Proof.
  revert k. induction n as [|n IH]; intros k; cbn; [reflexivity |].
  rewrite Nat.add_0_r. f_equal. rewrite IH, <- seq_shift, map_map.
  apply map_ext. intros j. f_equal. lia.
Qed.

Lemma length_append_rows (X Y : list (vec F)) :
  length X = length Y -> length (append_rows X Y) = length X.
Proof.
  revert Y. induction X as [|r X IH]; intros [|q Y] Hl; cbn in *; try congruence.
  f_equal. apply IH. congruence.
Qed.

Lemma Forall_append_rows (k1 k2 : nat) (X Y : list (vec F)) :
  Forall (fun r => length r = k1) X -> Forall (fun r => length r = k2) Y ->
  Forall (fun r => length r = k1 + k2) (append_rows X Y).
Proof.
  intros HX. revert Y. induction HX as [|r X Hr HX IH]; intros Y HY; cbn.
  - constructor.
  - destruct HY as [|q Y Hq HY]; constructor.
    + rewrite length_app. congruence.
    + apply IH. exact HY.
Qed.

Lemma col_append_rows_left (k j : nat) (X Y : list (vec F)) :
  Forall (fun r => length r = k) X -> length X = length Y -> j < k ->
  map (fun r => nth j r F0) (append_rows X Y) = map (fun r => nth j r F0) X.
Proof.
  intros HX. revert Y. induction HX as [|r X Hr HX IH]; intros [|q Y] Hl Hj;
    cbn in *; try congruence.
  rewrite app_nth1 by lia. f_equal. apply IH; [congruence | exact Hj].
Qed.

Lemma col_append_rows_right (k j : nat) (X Y : list (vec F)) :
  Forall (fun r => length r = k) X -> length X = length Y ->
  map (fun r => nth (k + j) r F0) (append_rows X Y) = map (fun r => nth j r F0) Y.
Proof.
  intros HX. revert Y. induction HX as [|r X Hr HX IH]; intros [|q Y] Hl;
    cbn in *; try congruence.
  rewrite app_nth2 by lia. replace (k + j - length r) with j by lia.
  f_equal. apply IH. congruence.
Qed.

(** [hstack] of two well-shaped arrays with the same number of rows: the
    columns of the first, then those of the second. *)
Lemma hstack_columns (X Y : ndarray F) :
  well_shaped X -> well_shaped Y -> nrows X = nrows Y ->
  exists Z, hstack X Y = Ok Z /\ columns Z = columns X ++ columns Y /\
            well_shaped Z /\ nrows Z = nrows X.
Proof.
  intros [LX RX] [LY RY] Hn. unfold hstack. rewrite Hn, Nat.eqb_refl.
  eexists. split; [reflexivity |]. split; [| split].
  - unfold columns, col, ncols. cbn.
    rewrite seq_app, map_app. f_equal.
    + apply map_ext_in. intros j Hj. apply in_seq in Hj.
      apply col_append_rows_left with (k := snd (ashape X)); [exact RX | congruence | lia].
    + rewrite map_seq_offset. apply map_ext. intros j.
      apply col_append_rows_right; [exact RX | congruence].
  - split; cbn.
    + rewrite length_append_rows; congruence.
    + apply Forall_append_rows; assumption.
  - cbn. congruence.
Qed.

Lemma map_nth_seq (v : vec F) : map (fun i => nth i v F0) (seq 0 (length v)) = v.
Proof.
  induction v as [|a v IH]; cbn; [reflexivity |].
  f_equal. rewrite <- seq_shift, map_map. exact IH.
Qed.

(** What [reshape_rows] returns is well shaped, with the rows asked
    for. *)
Lemma reshape_rows_shape (n : nat) (t : dtype) (v : vec F) (Z : ndarray F) :
  reshape_rows n t v = Ok Z -> well_shaped Z /\ nrows Z = n.
Proof.
  unfold reshape_rows.
  destruct (n =? 0) eqn:Hn; [discriminate |].
  destruct (length v mod n =? 0) eqn:Hm; cbn; [| discriminate].
  intros Heq. injection Heq as <-.
  apply Nat.eqb_neq in Hn. apply Nat.eqb_eq in Hm.
  assert (Hlen : length v = n * (length v / n)).
  { rewrite (Nat.div_mod_eq (length v) n) at 1. lia. }
  split; [split |]; cbn.
  - now rewrite length_map, length_seq.
  - apply Forall_forall. intros r Hr. apply in_map_iff in Hr.
    destruct Hr as (i & <- & Hi). apply in_seq in Hi.
    rewrite length_firstn, length_skipn. nia.
  - reflexivity.
Qed.

(** A 1-d array with as many entries as rows are asked for becomes one
    column. *)
Lemma reshape_rows_vector (t : dtype) (v : vec F) :
  0 < length v ->
  exists Z, reshape_rows (length v) t v = Ok Z /\ columns Z = [v].
Proof.
  intros Hpos. unfold reshape_rows.
  destruct (length v =? 0) eqn:Hn; [apply Nat.eqb_eq in Hn; lia |].
  rewrite Nat.Div0.mod_same. cbn.
  rewrite Nat.div_same by lia.
  eexists. split; [reflexivity |].
  unfold columns, col, ncols. cbn. f_equal.
  rewrite map_map. rewrite <- (map_nth_seq v) at 2.
  apply map_ext. intros i.
  rewrite Nat.mul_1_r. rewrite <- (Nat.add_0_r i) at 2. rewrite <- nth_skipn.
  destruct (skipn i v); reflexivity.
Qed.
End HistoryFacts.

Ltac conjuncts := repeat match goal with |- _ /\ _ => split end.

Section ProjectedMatrixFacts.
Context {F : Type} {SF : Scalar F} {Op : Type}.
Variable op_dtype : Op -> dtype.
Variable op_dot : vec F -> M Op (vec F).

(** [Tm @ v] and [Tm.T @ w], entry by entry. *)
Definition lift_by (Tm : ndarray F) (v : vec F) : vec F :=
  map (fun r => vsum (zip_with Fmul r v)) (rows Tm).
Definition project_by (Tm : ndarray F) (w : vec F) : vec F :=
  map (fun c => vsum (zip_with Fmul c w)) (columns Tm).

(** The histories are arrays with [dtrue] rows. *)
Definition history_ok (pm : ProjectedMatrix F Op) : Prop :=
  well_shaped (pm_Vs pm) /\ nrows (pm_Vs pm) = pm_dtrue pm /\
  well_shaped (pm_AVs pm) /\ nrows (pm_AVs pm) = pm_dtrue pm.

(** The basis is a [dtrue x dproj] array, and the full space is not
    empty. *)
Definition basis_ok (pm : ProjectedMatrix F Op) : Prop :=
  well_shaped (pm_Tm pm) /\ ashape (pm_Tm pm) = (pm_dtrue pm, pm_dproj pm) /\
  0 < pm_dtrue pm.

(** [pm'] is [pm] with columns added at the end of its histories. *)
Definition grown (pm pm' : ProjectedMatrix F Op) (n1 n2 : list (vec F)) : Prop :=
  pm_Tm pm' = pm_Tm pm /\ pm_dtrue pm' = pm_dtrue pm /\ pm_dproj pm' = pm_dproj pm /\
  pm_dtype pm' = pm_dtype pm /\
  columns (pm_Vs pm') = columns (pm_Vs pm) ++ n1 /\
  columns (pm_AVs pm') = columns (pm_AVs pm) ++ n2 /\
  history_ok pm'.

Lemma grown_refl (pm : ProjectedMatrix F Op) :
  history_ok pm -> grown pm pm [] [].
Proof. intros Hok. unfold grown. now rewrite !app_nil_r. Qed.

Lemma grown_trans (a b c : ProjectedMatrix F Op) (n1 n2 m1 m2 : list (vec F)) :
  grown a b n1 n2 -> grown b c m1 m2 -> grown a c (n1 ++ m1) (n2 ++ m2).
Proof.
  intros (T1 & D1 & P1 & Y1 & V1 & A1 & _) (T2 & D2 & P2 & Y2 & V2 & A2 & Hok).
  unfold grown. rewrite !app_assoc, <- V1, <- A1.
  repeat split; try congruence; apply Hok.
Qed.

(** Whatever an apply does, returning or raising on the way, it only adds
    columns at the end of the histories. *)
Lemma dot_grows (v_m : vec F) (pm : ProjectedMatrix F Op) :
  history_ok pm ->
  exists n1 n2, grown pm (snd (ProjectedMatrix_dot op_dot v_m pm)) n1 n2.
Proof.
  intros Hok. pose proof Hok as (WV & NV & WA & NA).
  unfold ProjectedMatrix_dot, bind, get, lift, modify, call_A. cbn.
  destruct (nd_dot_vec (pm_Tm pm) v_m) as [v|e]; cbn;
    [| exists [], []; now apply grown_refl].
  destruct (reshape_rows (pm_dtrue pm) (adtype (pm_Tm pm)) v) as [vcol|e] eqn:Hr;
    cbn; [| exists [], []; now apply grown_refl].
  destruct (reshape_rows_shape _ _ _ Hr) as (Wc & Nc).
  destruct (hstack_columns WV Wc) as (Z & HZ & CZ & WZ & NZ); [congruence |].
  rewrite HZ. cbn.
  destruct (op_dot v (pm_A pm)) as [[w|e] A']; cbn.
  2:{ exists (columns vcol), []. unfold grown, history_ok. cbn.
      rewrite app_nil_r. conjuncts; solve [assumption | congruence]. }
  destruct (reshape_rows (pm_dtrue pm) (pm_dtype pm) w) as [wcol|e] eqn:Hw; cbn.
  2:{ exists (columns vcol), []. unfold grown, history_ok. cbn.
      rewrite app_nil_r. conjuncts; solve [assumption | congruence]. }
  destruct (reshape_rows_shape _ _ _ Hw) as (Wd & Nd).
  destruct (hstack_columns WA Wd) as (Z2 & HZ2 & CZ2 & WZ2 & NZ2); [congruence |].
  rewrite HZ2. cbn.
  exists (columns vcol), (columns wcol).
  destruct (nd_dot_vec (transpose (pm_Tm pm)) w); cbn;
    unfold grown, history_ok; cbn; conjuncts; solve [assumption | congruence].
Qed.

Lemma length_lift_by (Tm : ndarray F) (v : vec F) :
  well_shaped Tm -> length (lift_by Tm v) = nrows Tm.
Proof. intros [L _]. unfold lift_by. now rewrite length_map. Qed.

(** An apply with a reduced vector of the right length, on which the
    wrapped operator returns an image of the right length, returns the
    projected image and adds the probe and the image as last columns. *)
Lemma dot_returns (v_m w : vec F) (A' : Op) (pm : ProjectedMatrix F Op) :
  history_ok pm -> basis_ok pm ->
  length v_m = pm_dproj pm ->
  op_dot (lift_by (pm_Tm pm) v_m) (pm_A pm) = (Ok w, A') ->
  length w = pm_dtrue pm ->
  exists pm',
    ProjectedMatrix_dot op_dot v_m pm = (Ok (project_by (pm_Tm pm) w), pm') /\
    pm_A pm' = A' /\
    grown pm pm' [lift_by (pm_Tm pm) v_m] [w].
Proof.
  intros (WV & NV & WA & NA) (WT & ST & Hpos) Lv HA Lw.
  assert (NT : nrows (pm_Tm pm) = pm_dtrue pm) by (unfold nrows; now rewrite ST).
  assert (CT : ncols (pm_Tm pm) = pm_dproj pm) by (unfold ncols; now rewrite ST).
  unfold ProjectedMatrix_dot, bind, get, lift, modify, call_A. cbn.
  unfold nd_dot_vec at 1. rewrite CT, Lv, Nat.eqb_refl. cbn.
  fold (lift_by (pm_Tm pm) v_m).
  assert (Ll : length (lift_by (pm_Tm pm) v_m) = pm_dtrue pm)
    by (rewrite length_lift_by; assumption).
  destruct (reshape_rows_vector (adtype (pm_Tm pm)) (lift_by (pm_Tm pm) v_m))
    as (vcol & Hr & Cv); [lia |].
  rewrite Ll in Hr. rewrite Hr. cbn.
  destruct (reshape_rows_shape _ _ _ Hr) as (Wc & Nc).
  destruct (hstack_columns WV Wc) as (Z & HZ & CZ & WZ & NZ); [congruence |].
  rewrite HZ. cbn. rewrite HA. cbn.
  destruct (reshape_rows_vector (pm_dtype pm) w) as (wcol & Hw & Cw); [lia |].
  rewrite Lw in Hw. rewrite Hw. cbn.
  destruct (reshape_rows_shape _ _ _ Hw) as (Wd & Nd).
  destruct (hstack_columns WA Wd) as (Z2 & HZ2 & CZ2 & WZ2 & NZ2); [congruence |].
  rewrite HZ2. cbn.
  unfold nd_dot_vec, ncols. cbn. fold (nrows (pm_Tm pm)).
  rewrite NT, Lw, Nat.eqb_refl.
  eexists. split; [reflexivity |]. split; [reflexivity |].
  unfold grown, history_ok. cbn. rewrite <- Cv, <- Cw.
  conjuncts; solve [assumption | congruence].
Qed.

(** The wrapped operator applied to one full-space vector after the
    other. *)
Fixpoint op_run (us : list (vec F)) : M Op (list (vec F)) :=
  match us with
  | [] => ret []
  | u :: us' => bind (op_dot u) (fun w => bind (op_run us') (fun ws => ret (w :: ws)))
  end.

Lemma dots_grow (vs : list (vec F)) (pm : ProjectedMatrix F Op) :
  history_ok pm ->
  exists n1 n2, grown pm (snd (ProjectedMatrix_dots op_dot vs pm)) n1 n2.
Proof.
  revert pm. induction vs as [|v vs IH]; intros pm Hok; cbn.
  - exists [], []. now apply grown_refl.
  - destruct (dot_grows v Hok) as (n1 & n2 & Hg).
    unfold bind.
    destruct (ProjectedMatrix_dot op_dot v pm) as [[y|e] pm1]; cbn in *.
    + destruct (IH pm1) as (m1 & m2 & Hg2); [apply Hg |].
      exists (n1 ++ m1), (n2 ++ m2).
      destruct (ProjectedMatrix_dots op_dot vs pm1) as [[ys|e] pm2]; cbn in *;
        eapply grown_trans; eassumption.
    + exists n1, n2. exact Hg.
Qed.

Lemma dots_return (vs ws : list (vec F)) (A' : Op) (pm : ProjectedMatrix F Op) :
  history_ok pm -> basis_ok pm ->
  Forall (fun v => length v = pm_dproj pm) vs ->
  op_run (map (lift_by (pm_Tm pm)) vs) (pm_A pm) = (Ok ws, A') ->
  Forall (fun w => length w = pm_dtrue pm) ws ->
  exists pm',
    ProjectedMatrix_dots op_dot vs pm = (Ok (map (project_by (pm_Tm pm)) ws), pm') /\
    pm_A pm' = A' /\
    grown pm pm' (map (lift_by (pm_Tm pm)) vs) ws.
Proof.
  revert ws pm. induction vs as [|v vs IH]; intros ws pm Hok Hb Hvs Hrun Hws; cbn in *.
  - injection Hrun as <- <-. eexists. split; [reflexivity |].
    split; [reflexivity |]. now apply grown_refl.
  - unfold bind in Hrun.
    destruct (op_dot (lift_by (pm_Tm pm) v) (pm_A pm)) as [[w|e] A1] eqn:HA;
      [| discriminate].
    destruct (op_run (map (lift_by (pm_Tm pm)) vs) A1) as [[ws1|e] A2] eqn:HR;
      [| discriminate].
    cbn in Hrun. injection Hrun as <- <-.
    inversion Hvs as [|? ? Lv Hvs']; subst. inversion Hws as [|? ? Lw Hws']; subst.
    destruct (@dot_returns v w A1 pm Hok Hb Lv HA Lw) as (pm1 & Hd & HA1 & Hg).
    pose proof Hg as (T1 & D1 & P1 & _ & _ & _ & Hok1).
    destruct (IH ws1 pm1) as (pm2 & Hds & HA2 & Hg2).
    + exact Hok1.
    + destruct Hb as (WT & ST & Hpos). unfold basis_ok.
      rewrite T1, D1, P1. auto.
    + now rewrite P1.
    + now rewrite T1, HA1.
    + now rewrite D1.
    + unfold bind. rewrite Hd, Hds. rewrite T1. cbn.
      eexists. split; [reflexivity |]. split; [exact HA2 |].
      rewrite T1 in Hg2.
      exact (@grown_trans _ _ _ _ _ _ _ Hg Hg2).
Qed.

End ProjectedMatrixFacts.

(** C6. On a projected operator whose histories have [dtrue] rows and
    whose basis is [dtrue x dproj] with [dtrue > 0]: a run of applies with
    reduced vectors of length [dproj], on which the wrapped operator
    returns images of length [dtrue], returns [Tm.T @ w] for each image
    [w = A.dot(Tm @ v)], and leaves as histories the old columns followed
    by the probes [Tm @ v], and by the images, in the order of the
    applies.  And whatever a run of applies does, the old columns of both
    histories stay the first columns, in their order. *)
Theorem ProjectedMatrix_history :
  forall (F : Type) (SF : Scalar F) (Op : Type) (op_dot : vec F -> M Op (vec F))
         (pm : ProjectedMatrix F Op),
    history_ok pm -> basis_ok pm ->
    (forall (vs ws : list (vec F)) (A' : Op),
        Forall (fun v => length v = pm_dproj pm) vs ->
        op_run op_dot (map (lift_by (pm_Tm pm)) vs) (pm_A pm) = (Ok ws, A') ->
        Forall (fun w => length w = pm_dtrue pm) ws ->
        exists pm',
          ProjectedMatrix_dots op_dot vs pm
          = (Ok (map (project_by (pm_Tm pm)) ws), pm') /\
          columns (pm_Vs pm') = columns (pm_Vs pm) ++ map (lift_by (pm_Tm pm)) vs /\
          columns (pm_AVs pm') = columns (pm_AVs pm) ++ ws) /\
    (forall vs : list (vec F),
        exists n1 n2,
          columns (pm_Vs (snd (ProjectedMatrix_dots op_dot vs pm)))
          = columns (pm_Vs pm) ++ n1 /\
          columns (pm_AVs (snd (ProjectedMatrix_dots op_dot vs pm)))
          = columns (pm_AVs pm) ++ n2).
Proof.
  intros F SF Op op_dot pm Hok Hb. split.
  - intros vs ws A' Hvs Hrun Hws.
    destruct (@dots_return F SF Op op_dot vs ws A' pm Hok Hb Hvs Hrun Hws) as (pm' & Hd & _ & Hg).
    exists pm'. split; [exact Hd |]. split; apply Hg.
  - intros vs. destruct (@dots_grow F SF Op op_dot vs pm Hok) as (n1 & n2 & Hg).
    exists n1, n2. split; apply Hg.
Qed.

(** The operator [[2 0] [0 3]], the basis of its first axis, and the
    projection of the one on the other. *)
Definition stretch : ndarray R := mkArr float64 (2, 2) [[2; 0]; [0; 3]]%R.
Definition first_axis : ndarray R := mkArr float64 (2, 1) [[1]; [0]]%R.
Definition dense_dot (v : vec R) : M (ndarray R) (vec R) :=
  fun A => (nd_dot_vec A v, A).
Definition projected_stretch : ProjectedMatrix R (ndarray R) :=
  ProjectedMatrix_init (@adtype R) stretch first_axis.

Lemma projected_stretch_ok :
  history_ok projected_stretch /\ basis_ok projected_stretch.
Proof.
  unfold history_ok, basis_ok, well_shaped. cbn.
  repeat split; try lia; repeat constructor.
Qed.

(** C6 at one apply of the projected stretch. *)
Lemma ProjectedMatrix_history_witness :
  exists pm',
    ProjectedMatrix_dots dense_dot [[1%R]] projected_stretch
    = (Ok [[(1 * (2 * (1 * 1 + 0) + (0 * (0 * 1 + 0) + 0)) +
             (0 * (0 * (1 * 1 + 0) + (3 * (0 * 1 + 0) + 0)) + 0))%R]], pm') /\
    columns (pm_Vs pm') = [] ++ [[(1 * 1 + 0)%R; (0 * 1 + 0)%R]] /\
    columns (pm_AVs pm')
    = [] ++ [[(2 * (1 * 1 + 0) + (0 * (0 * 1 + 0) + 0))%R;
              (0 * (1 * 1 + 0) + (3 * (0 * 1 + 0) + 0))%R]].
Proof.
  apply (proj1 (@ProjectedMatrix_history R R_Scalar (ndarray R) dense_dot
                  projected_stretch (proj1 projected_stretch_ok)
                  (proj2 projected_stretch_ok))
               [[1%R]]
               [[(2 * (1 * 1 + 0) + (0 * (0 * 1 + 0) + 0))%R;
                 (0 * (1 * 1 + 0) + (3 * (0 * 1 + 0) + 0))%R]]
               stretch).
  - repeat constructor.
  - reflexivity.
  - repeat constructor.
Defined.

(* ===================================================================== *)
(** * Properties of the Cartesian controller *)
(* ===================================================================== *)

Section EvalFacts.
Context {F : Type} {SF : Scalar F}.

(** The atoms that are not fixed, among [ids]. *)
Definition free_of (fixd ids : list nat) : list nat :=
  filter (fun i => negb (is_fixed fixd i)) ids.

(** The rows of an [N x 3] array whose atom is not fixed, in order. *)
Definition free_rows {A : Type} (fixd : list nat) (ids : list nat) (a : list A) : list A :=
  map snd (filter (fun p => negb (is_fixed fixd (fst p))) (combine ids a)).

Lemma row_Some {A : Type} (a : list A) (i : nat) (p : A) :
  row a i = Ok p <-> nth_error a i = Some p.
Proof.
  unfold row. destruct (nth_error a i); split; intros H; congruence.
Qed.

Lemma skipn_cons_nth {A : Type} (l : list A) (n : nat) (p : A) :
  nth_error l n = Some p -> skipn n l = p :: skipn (S n) l.
Proof.
  revert n. induction l as [|a l IH]; intros [|n] H; cbn in *; try discriminate.
  - now injection H as ->.
  - now apply IH.
Qed.

Lemma reshape3_ravel3 (ps : list (xyz F)) : reshape3 (ravel3 ps) = Ok ps.
Proof.
  induction ps as [|[[a b] c] ps IH]; cbn; [reflexivity |].
  unfold ravel3 in IH. now rewrite IH.
Qed.

Lemma length_ravel3 (ps : list (xyz F)) : length (ravel3 ps) = 3 * length ps.
Proof.
  induction ps as [|[[a b] c] ps IH]; cbn; [reflexivity |].
  unfold ravel3 in IH. rewrite IH. lia.
Qed.

(** A flat array of [3 n] entries reshapes to [n] rows. *)
Lemma reshape3_length (n : nat) (x : vec F) :
  length x = 3 * n -> exists xin, reshape3 x = Ok xin /\ length xin = n /\ ravel3 xin = x.
Proof.
  revert x. induction n as [|n IH]; intros x Hl.
  - destruct x; [| discriminate]. exists []. auto.
  - destruct x as [|a [|b [|c x]]]; cbn in Hl; try lia.
    destruct (IH x) as (t & Ht & Lt & Rt); [lia |].
    exists ((a, b, c) :: t). cbn. rewrite Ht. cbn.
    repeat split; [lia | unfold ravel3 in *; cbn; now rewrite Rt].
Qed.

(** What the first loop of [eval_eg] builds, when it runs through. *)
Lemma scatter_rows (fixd : list nat) (x0 xin : list (xyz F)) :
  forall (ids : list nat) (n : nat) (pos : list (xyz F)),
    scatter fixd x0 xin ids n = Ok pos ->
    length pos = length ids /\
    (forall k i, nth_error ids k = Some i -> is_fixed fixd i = true ->
                 nth_error pos k = nth_error x0 i) /\
    free_rows fixd ids pos
    = firstn (length (free_of fixd ids)) (skipn n xin).
Proof.
  induction ids as [|i ids IH]; intros n pos Hs; cbn in Hs.
  - injection Hs as <-. repeat split. intros [|k] j Hk; discriminate.
  - unfold free_rows, free_of in *. cbn.
    destruct (is_fixed fixd i) eqn:Hfix; cbn.
    + destruct (row x0 i) as [p|e] eqn:Hp; cbn in Hs; [| discriminate].
      destruct (scatter fixd x0 xin ids n) as [t|e] eqn:Ht; cbn in Hs; [| discriminate].
      injection Hs as <-. destruct (IH n t Ht) as (L & Hk & Hfree).
      cbn. rewrite Hfix. cbn. repeat split; [now rewrite L | | exact Hfree].
      intros [|k] j Hj Hfj; cbn in *.
      * injection Hj as <-. symmetry. now apply row_Some.
      * now apply Hk.
    + destruct (row xin n) as [p|e] eqn:Hp; cbn in Hs; [| discriminate].
      destruct (scatter fixd x0 xin ids (S n)) as [t|e] eqn:Ht; cbn in Hs; [| discriminate].
      injection Hs as <-. destruct (IH (S n) t Ht) as (L & Hk & Hfree).
      cbn. rewrite Hfix. cbn. repeat split; [now rewrite L | |].
      * intros [|k] j Hj Hfj; cbn in *.
        -- injection Hj as <-. congruence.
        -- now apply Hk.
      * rewrite Hfree. apply row_Some in Hp.
        now rewrite (skipn_cons_nth _ _ Hp).
Qed.

(** The first loop runs through when the fixed atoms have a row in [x0]
    and [xin] has a row for each free atom. *)
Lemma scatter_runs (fixd : list nat) (x0 xin : list (xyz F)) :
  forall (ids : list nat) (n : nat),
    (forall i, In i ids -> i < length x0) ->
    n + length (free_of fixd ids) <= length xin ->
    exists pos, scatter fixd x0 xin ids n = Ok pos.
Proof.
  induction ids as [|i ids IH]; intros n Hx0 Hxin; cbn.
  - eexists. reflexivity.
  - unfold free_of in *. cbn in Hxin.
    destruct (is_fixed fixd i) eqn:Hfix; cbn in *.
    + destruct (nth_error x0 i) as [p|] eqn:Hp.
      2:{ apply nth_error_None in Hp. specialize (Hx0 i (or_introl eq_refl)). lia. }
      unfold row. rewrite Hp. cbn.
      destruct (IH n) as (t & Ht); [auto | lia |]. rewrite Ht. cbn. eexists. reflexivity.
    + destruct (nth_error xin n) as [p|] eqn:Hp.
      2:{ apply nth_error_None in Hp. lia. }
      unfold row. rewrite Hp. cbn.
      destruct (IH (S n)) as (t & Ht); [auto | lia |]. rewrite Ht. cbn. eexists. reflexivity.
Qed.

Lemma set_row_at {A : Type} (g : list A) (n : nat) (p : A) :
  n < length g -> set_row g n p = Ok (firstn n g ++ p :: skipn (S n) g).
Proof.
  revert n. induction g as [|a g IH]; intros [|n] Hn; cbn in *; try lia.
  - reflexivity.
  - rewrite IH by lia. reflexivity.
Qed.

(** What the second loop of [eval_eg] leaves in [g]: its first [n] rows,
    then the rows of [f] of the free atoms, then what was there. *)
Lemma gather_rows (fixd : list nat) (f : list (xyz F)) :
  forall (ids : list nat) (fr : list (xyz F)),
    Forall2 (fun i q => nth_error f i = Some q) ids fr ->
    forall (n : nat) (g : list (xyz F)),
      n + length (free_of fixd ids) <= length g ->
      gather fixd f ids n g
      = Ok (firstn n g ++ free_rows fixd ids fr
                   ++ skipn (n + length (free_of fixd ids)) g).
Proof.
  induction 1 as [|i q ids fr Hq Hrest IH]; intros n g Hn; cbn.
  - unfold free_rows, free_of. cbn. rewrite Nat.add_0_r.
    now rewrite firstn_skipn.
  - unfold free_rows, free_of in *. cbn in *.
    destruct (is_fixed fixd i) eqn:Hfix; cbn in *.
    + apply IH. exact Hn.
    + unfold row. rewrite Hq. cbn.
      rewrite set_row_at by lia. cbn [res_bind].
      rewrite IH by (rewrite length_app, length_cons, length_firstn, length_skipn; lia).
      f_equal.
      assert (Ln : length (firstn n g) = n) by (rewrite length_firstn; lia).
      rewrite firstn_app, Ln, firstn_firstn.
      replace (Nat.min (S n) n) with n by lia.
      replace (S n - n) with 1 by lia. cbn [firstn].
      rewrite <- app_assoc. cbn [app]. f_equal. f_equal. f_equal.
      rewrite skipn_app, Ln.
      rewrite (skipn_all2 (firstn n g)) by lia. cbn [app].
      remember (length (filter (fun i0 => negb (is_fixed fixd i0)) ids)) as c.
      replace (S n + c - n) with (S c) by lia. rewrite skipn_cons.
      rewrite skipn_skipn. f_equal. lia.
Qed.

Lemma rows_by_index {A : Type} (f : list A) :
  Forall2 (fun i q => nth_error f i = Some q) (seq 0 (length f)) f.
Proof.
  induction f as [|a f IH] using rev_ind; cbn; [constructor |].
  rewrite length_app. cbn [length]. rewrite Nat.add_1_r, seq_S. cbn [Nat.add].
  apply Forall2_app.
  - eapply Forall2_impl; [| exact IH]. cbn. intros i q Hq.
    rewrite nth_error_app1; [exact Hq |].
    apply nth_error_Some. congruence.
  - constructor; [| constructor]. cbn.
    rewrite nth_error_app2 by lia. now rewrite Nat.sub_diag.
Qed.

Lemma one_fixed_leaves_the_rest (k n : nat) :
  length (free_of [k] (seq 0 n)) = if k <? n then n - 1 else n.
Proof.
  induction n as [|n IH]; [reflexivity |].
  rewrite seq_S. unfold free_of in *. rewrite filter_app, length_app, IH.
  cbn [seq filter is_fixed existsb Nat.add].
  destruct (Nat.eqb_spec n k) as [Heq|Hne];
    destruct (Nat.ltb_spec k n), (Nat.ltb_spec k (S n)); cbn; lia.
Qed.

Context {GEO : Geometry F}.

(** The controller holds the atoms [fixd] fixed at the rows of [x0]. *)
Definition holds_fixed (fixd : list nat) (x0 : list (xyz F)) (self : MinModeAtoms F)
  : Prop :=
  ma_x0 self = ravel3 x0 /\
  length (positions (ma_atoms self)) = length x0 /\
  (exists cs, ma_constraints self = Some cs /\ cs_fix cs = Some fixd) /\
  fixd <> [] /\
  (forall i, is_fixed fixd i = true ->
             nth_error (positions (ma_atoms self)) i = nth_error x0 i).

Lemma fixed_atoms_of (fixd : list nat) (x0 : list (xyz F)) (self : MinModeAtoms F) :
  holds_fixed fixd x0 self -> fixed_atoms self = Ok (Some fixd).
Proof.
  intros (_ & _ & (cs & Hcs & Hfix) & Hne & _). unfold fixed_atoms.
  rewrite Hcs, Hfix. destruct fixd; [contradiction | reflexivity].
Qed.

(** The constructor, given a non-empty ['fix'] list, returns such a
    controller, with the structure's positions as [x0]. *)
Lemma init_holds_fixed (atoms : Atoms F) (calculator : Calculator F) (trajectory : bool)
      (uc : user_constraints F) (fixd : list nat) :
  uc_fix uc = Some fixd -> fixd <> [] ->
  holds_fixed fixd (positions atoms)
              (MinModeAtoms_init atoms calculator trajectory (Some uc)) /\
  ma_d (MinModeAtoms_init atoms calculator trajectory (Some uc))
  = 3 * length (positions atoms) - 3 * length fixd.
Proof.
  intros Hfix Hne. unfold holds_fixed, MinModeAtoms_init. rewrite Hfix. cbn.
  repeat split; try assumption.
  eexists. split; [reflexivity |]. cbn. destruct fixd; [contradiction | reflexivity].
Qed.

(** Every evaluation, returning or raising, leaves the fixed atoms where
    [x0] has them. *)
Lemma eval_eg_holds_fixed (fixd : list nat) (x0 : list (xyz F)) (x : vec F)
      (self : MinModeAtoms F) :
  holds_fixed fixd x0 self -> holds_fixed fixd x0 (snd (eval_eg x self)).
Proof.
  intros Hh. pose proof (fixed_atoms_of Hh) as Hfa.
  pose proof Hh as (Hx0 & HN & Hcs & Hne & Hpos).
  assert (Hr : reshape3 (ma_x0 self) = Ok x0) by (rewrite Hx0; apply reshape3_ravel3).
  unfold eval_eg, bind, lift, get, ret, set_positions, write_trajectory.
  destruct (reshape3 x) as [xin|e]; cbn; [| exact Hh].
  rewrite Hfa. cbn. rewrite Hr. cbn.
  destruct (scatter fixd x0 xin (seq 0 (length (positions (ma_atoms self)))) 0)
    as [pos|e] eqn:Hs; cbn; [| exact Hh].
  destruct (scatter_rows _ _ _ _ _ Hs) as (L & Hk & _).
  rewrite length_seq in L. rewrite L, Nat.eqb_refl. cbn.
  assert (Hheld : forall i, is_fixed fixd i = true -> nth_error pos i = nth_error x0 i).
  { intros i Hi. destruct (Nat.lt_ge_cases i (length x0)) as [Hlt|Hge].
    - apply Hk; [| exact Hi]. rewrite nth_error_seq. rewrite HN.
      destruct (Nat.ltb_spec i (length x0)); [reflexivity | lia].
    - rewrite (proj2 (nth_error_None x0 i)) by lia.
      apply nth_error_None. lia. }
  match goal with
  | |- context [gather ?a ?b ?c ?d ?e] => destruct (gather a b c d e) as [g|e']
  end; cbn; unfold holds_fixed; cbn; repeat split; try assumption; congruence.
Qed.

Lemma evaluations_hold_fixed (fixd : list nat) (x0 : list (xyz F)) (xs : list (vec F)) :
  forall self, holds_fixed fixd x0 self -> holds_fixed fixd x0 (evaluations xs self).
Proof.
  induction xs as [|x xs IH]; intros self Hh; cbn [evaluations]; [exact Hh |].
  apply IH. now apply eval_eg_holds_fixed.
Qed.

Lemma length_free_rows {A : Type} (fixd ids : list nat) (a : list A) :
  length a = length ids -> length (free_rows fixd ids a) = length (free_of fixd ids).
Proof.
  revert a. unfold free_rows, free_of.
  induction ids as [|i ids IH]; intros [|q a] Hl; cbn in *; try lia.
  destruct (is_fixed fixd i); cbn; [| f_equal]; apply IH; lia.
Qed.

(** No evaluation touches the count of the degrees of freedom or the
    calculator. *)
Lemma eval_eg_statics (x : vec F) (self : MinModeAtoms F) :
  ma_d (snd (eval_eg x self)) = ma_d self /\
  calc (ma_atoms (snd (eval_eg x self))) = calc (ma_atoms self).
Proof.
  unfold eval_eg, bind, lift, get, ret, set_positions, write_trajectory.
  run_method; split; reflexivity.
Qed.

Lemma evaluations_statics (xs : list (vec F)) :
  forall self, ma_d (evaluations xs self) = ma_d self /\
               calc (ma_atoms (evaluations xs self)) = calc (ma_atoms self).
Proof.
  induction xs as [|x xs IH]; intros self; cbn [evaluations]; [split; reflexivity |].
  destruct (IH (snd (eval_eg x self))) as (Hd & Hc).
  destruct (eval_eg_statics x self) as (Hd1 & Hc1).
  split; congruence.
Qed.

(** An evaluation with a row for each free atom, on a calculator that
    returns a force for each atom, returns the energy and the rows of the
    negated forces of the free atoms, and has set the positions to the
    rows of [x0] for the fixed atoms and to the rows of [x] for the
    others. *)
Lemma eval_eg_returns (fixd : list nat) (x0 : list (xyz F)) (x : vec F)
      (self : MinModeAtoms F) :
  holds_fixed fixd x0 self ->
  length x = 3 * length (free_of fixd (seq 0 (length x0))) ->
  (forall pos, length (get_forces (calc (ma_atoms self)) pos) = length pos) ->
  exists xin pos self',
    reshape3 x = Ok xin /\
    eval_eg x self
    = (Ok (get_potential_energy (calc (ma_atoms self)) pos,
           ravel3 (free_rows fixd (seq 0 (length x0))
                             (map neg3 (get_forces (calc (ma_atoms self)) pos)))),
       self') /\
    positions (ma_atoms self') = pos /\ length pos = length x0 /\
    (forall i, is_fixed fixd i = true -> nth_error pos i = nth_error x0 i) /\
    free_rows fixd (seq 0 (length x0)) pos = xin.
Proof.
  intros Hh Lx Hforces. pose proof (fixed_atoms_of Hh) as Hfa.
  pose proof (eval_eg_holds_fixed x Hh) as Hafter.
  pose proof Hh as (Hx0 & HN & Hcs & Hne & Hpos).
  assert (Hr : reshape3 (ma_x0 self) = Ok x0) by (rewrite Hx0; apply reshape3_ravel3).
  destruct (reshape3_length _ x Lx) as (xin & Hxin & Lxin & _).
  destruct (@scatter_runs fixd x0 xin (seq 0 (length x0)) 0) as (pos & Hs).
  { intros i Hi. apply in_seq in Hi. lia. }
  { lia. }
  destruct (scatter_rows _ _ _ _ _ Hs) as (L & Hk & Hfree).
  rewrite length_seq in L.
  exists xin, pos.
  revert Hafter.
  unfold eval_eg, bind, lift, get, ret, set_positions, write_trajectory.
  rewrite Hxin. cbn. rewrite Hfa. cbn. rewrite Hr. cbn. rewrite HN, Hs. cbn.
  rewrite L, Nat.eqb_refl. cbn.
  rewrite (@gather_rows fixd _ (seq 0 (length x0))
                        (map neg3 (get_forces (calc (ma_atoms self)) pos))).
  - cbn. rewrite Lxin, skipn_all2 by (now rewrite repeat_length).
    rewrite app_nil_r. intros Hafter. eexists. split; [reflexivity |].
    split; [reflexivity |]. cbn. split; [reflexivity |]. split; [reflexivity |].
    split.
    + intros i Hi. destruct Hafter as (_ & _ & _ & _ & Hp). cbn in Hp. now apply Hp.
    + rewrite Hfree, skipn_O, <- Lxin. apply firstn_all.
  - replace (length x0) with (length (map neg3 (get_forces (calc (ma_atoms self)) pos)))
      by (rewrite length_map, Hforces; lia).
    apply rows_by_index.
  - rewrite repeat_length. lia.
Qed.

End EvalFacts.

(** C8. A Cartesian controller built with a non-empty ['fix'] list, after
    any run of evaluations: the fixed atoms are where the structure had
    them at construction; an evaluation with a row for each free atom
    sets the positions to those rows, with the fixed atoms at their
    initial rows in between, and returns the negated forces of the free
    atoms, fixed rows dropped, as a gradient as long as [x]; with one atom
    [k] fixed that length is [3 (N - 1)], which is also [self.d]. *)
Theorem eval_eg_fixed_atoms :
  forall (F : Type) (SF : Scalar F) (GEO : Geometry F)
         (atoms : Atoms F) (calculator : Calculator F) (trajectory : bool)
         (uc : user_constraints F) (fixd : list nat)
         (xs : list (vec F)) (x : vec F),
    uc_fix uc = Some fixd -> fixd <> [] ->
    (forall pos, length (get_forces calculator pos) = length pos) ->
    let N := length (positions atoms) in
    let self := evaluations xs (MinModeAtoms_init atoms calculator trajectory (Some uc)) in
    length x = 3 * length (free_of fixd (seq 0 N)) ->
    (forall i, is_fixed fixd i = true ->
               nth_error (positions (ma_atoms self)) i = nth_error (positions atoms) i) /\
    (exists xin pos self',
        reshape3 x = Ok xin /\
        eval_eg x self
        = (Ok (get_potential_energy calculator pos,
               ravel3 (free_rows fixd (seq 0 N) (map neg3 (get_forces calculator pos)))),
           self') /\
        positions (ma_atoms self') = pos /\ length pos = N /\
        (forall i, is_fixed fixd i = true ->
                   nth_error pos i = nth_error (positions atoms) i) /\
        free_rows fixd (seq 0 N) pos = xin /\
        length (ravel3 (free_rows fixd (seq 0 N) (map neg3 (get_forces calculator pos))))
        = length x) /\
    (forall k, fixd = [k] -> k < N ->
               length x = 3 * (N - 1) /\ ma_d self = 3 * (N - 1)).
Proof.
  intros F SF GEO atoms calculator trajectory uc fixd xs x Hfix Hne Hforces N self Lx.
  destruct (init_holds_fixed atoms calculator trajectory uc Hfix Hne) as (H0 & Hd0).
  pose proof (evaluations_hold_fixed xs H0) as Hh. fold self in Hh.
  destruct (evaluations_statics xs (MinModeAtoms_init atoms calculator trajectory (Some uc)))
    as (Hd & Hc).
  fold self in Hd, Hc. cbn in Hc.
  split; [| split].
  - apply Hh.
  - destruct (@eval_eg_returns F SF fixd (positions atoms) x self Hh Lx)
      as (xin & pos & self' & Hx & He & Hp & Lp & Hf & Hfree).
    { rewrite Hc. exact Hforces. }
    rewrite Hc in He. exists xin, pos, self'.
    repeat split; try assumption.
    rewrite length_ravel3, length_free_rows, Lx; [reflexivity |].
    now rewrite length_map, Hforces, length_seq.
  - intros k -> Hk. rewrite Hd, Hd0, Lx, one_fixed_leaves_the_rest.
    fold N. destruct (Nat.ltb_spec k N); cbn; lia.
Qed.

(** Two atoms on a line, tied to the origin by springs. *)
Definition spring : Calculator R :=
  {| get_potential_energy :=
       fun pos => (vsum (map (fun p => match p with
                                       | (a, b, c) => a * a + b * b + c * c
                                       end) pos) / 2)%R;
     get_forces := map neg3 |}.

Definition two_atoms : Atoms R :=
  mkAtoms [(0, 0, 0); (1, 0, 0)]%R spring.

(** The geometry of a structure with no internal coordinate. *)
Definition no_internals : Geometry R :=
  real_geometry (fun _ _ => 0%R) (fun _ _ => 0%R) (fun _ _ => 0%R)
                (fun _ _ _ _ => ([], mkArr float64 (0, 0) [])).

(** The controller of the two atoms with the first one fixed. *)
Definition first_atom_fixed : MinModeAtoms R :=
  MinModeAtoms_init (GEO := no_internals) two_atoms spring false
                    (Some (mkUser (Some [0]) None None None)).

Lemma first_is_fixed : [0] <> @nil nat.
Proof. discriminate. Qed.

(** C8 at the two atoms, the first fixed, after one step. *)
Lemma eval_eg_fixed_atoms_witness :
  nth_error (positions (ma_atoms (evaluations [[2; 0; 0]%R] first_atom_fixed))) 0
  = nth_error (positions two_atoms) 0 /\
  length [3; 0; 0]%R = 3 * (2 - 1) /\
  ma_d (evaluations [[2; 0; 0]%R] first_atom_fixed) = 3 * (2 - 1).
Proof.
  destruct (@eval_eg_fixed_atoms R R_Scalar no_internals two_atoms spring false
              (mkUser (Some [0]) None None None) [0] [[2; 0; 0]%R] [3; 0; 0]%R
              eq_refl first_is_fixed
              (fun pos => length_map neg3 pos) eq_refl)
    as (Hfixed & _ & Hone).
  split; [apply Hfixed; reflexivity |].
  apply (Hone 0 eq_refl). cbn. lia.
Defined.

(* ===================================================================== *)
(** * The constraint residual *)
(* ===================================================================== *)

Section ResidualFacts.
Context {F : Type} {SF : Scalar F} {GEO : Geometry F}.

Lemma set_row_nth {A : Type} (a a' : list A) (i : nat) (p : A) :
  set_row a i p = Ok a' ->
  length a' = length a /\ nth_error a' i = Some p /\
  (forall j, j <> i -> nth_error a' j = nth_error a j).
Proof.
  revert i a'. induction a as [|q a IH]; intros [|i] a' Hs; cbn in Hs; try discriminate.
  - injection Hs as <-. repeat split. intros [|j] Hj; [congruence | reflexivity].
  - destruct (set_row a i p) as [t|e] eqn:Ht; cbn in Hs; [| discriminate].
    injection Hs as <-. destruct (IH i t Ht) as (L & Hi & Hj).
    cbn. repeat split; [congruence | exact Hi |].
    intros [|j] Hne; [reflexivity |]. cbn. apply Hj. congruence.
Qed.

(** The bond and angle loops move the counter past their own entries and
    leave the later ones alone. *)
Lemma subtract_targets_later (d : targets F) :
  forall (keys : list indices) (r r' : vec F) (n n' : nat),
    subtract_targets d keys r n = Ok (r', n') ->
    n' = n + length keys /\ length r' = length r /\
    (forall j, n + length keys <= j -> nth_error r' j = nth_error r j).
Proof.
  induction keys as [|k keys IH]; intros r r' n n' Hs; cbn in Hs.
  - injection Hs as <- <-. cbn. repeat split; auto.
  - destruct (row r n) as [rn|e]; cbn in Hs; [| discriminate].
    destruct (dict_get d k) as [t|e]; cbn in Hs; [| discriminate].
    destruct (set_row r n (Fsub rn t)) as [r1|e] eqn:H1; cbn in Hs; [| discriminate].
    destruct (set_row_nth _ _ _ H1) as (L1 & _ & Hother).
    destruct (IH _ _ _ _ Hs) as (Hn & L & Hlater).
    cbn. repeat split; [lia | congruence |].
    intros j Hj. rewrite Hlater by lia. apply Hother. lia.
Qed.

(** With a single dihedral in the dict, its loop replaces the entry under
    the counter by the wrapped deviation from the target. *)
Lemma wrap_one_dihedral (ix : indices) (t : F) (r r' : vec F) (n : nat) :
  wrap_dihedrals [(ix, t)] [ix] r n = Ok r' ->
  exists m, nth_error r n = Some m /\ nth_error r' n = Some (wrap (Fsub m t)).
Proof.
  cbn. unfold row. destruct (nth_error r n) as [m|]; cbn; [| discriminate].
  unfold indices_eqb. destruct (list_eq_dec Nat.eq_dec ix ix) as [_|Hne]; [| contradiction].
  cbn. destruct (set_row r n (wrap (Fsub m t))) as [r1|e] eqn:H1; cbn; [| discriminate].
  intros Heq. injection Heq as <-. exists m. split; [reflexivity |].
  now destruct (set_row_nth _ _ _ H1) as (_ & Hn & _).
Qed.

(** [res_constr], when it returns, has left the object as it was, and
    with a single dihedral constraint of target [t] its entry after the
    bonds and the angles is the wrapped deviation of the measured value
    from [t]. *)
Lemma res_constr_one_dihedral (self self' : MinModeAtoms F) (x : vec F)
      (cs : ConstraintSet F) (ix : indices) (t : F) (r : vec F) (J : ndarray F) :
  ma_constraints self = Some cs -> cs_dihedrals cs = Some [(ix, t)] ->
  res_constr x self = (Ok (r, J), self') ->
  self' = self /\
  exists pos m,
    nth_error (fst (cart_to_internal pos (map fst (or_empty (cs_bonds cs)))
                                     (map fst (or_empty (cs_angles cs))) [ix]))
              (length (or_empty (cs_bonds cs)) + length (or_empty (cs_angles cs)))
    = Some m /\
    nth_error r (length (or_empty (cs_bonds cs)) + length (or_empty (cs_angles cs)))
    = Some (wrap (Fsub m t)).
Proof.
  intros Hcs Hd. unfold res_constr, bind, lift, get, ret, not_none.
  destruct (reshape3 x) as [xin|e]; cbn; [| discriminate].
  rewrite Hcs. cbn. rewrite Hd. cbn.
  destruct (scatter_flat _ _ _ _ _) as [pos|e]; cbn; [| discriminate].
  destruct (subtract_targets _ _ _ 0) as [[r1 n1]|e] eqn:H1; cbn; [| discriminate].
  destruct (subtract_targets _ _ r1 n1) as [[r2 n2]|e] eqn:H2; cbn; [| discriminate].
  destruct (row r2 n2) as [m|e] eqn:Hm; cbn; [| discriminate].
  unfold indices_eqb. destruct (list_eq_dec Nat.eq_dec ix ix) as [_|Hne]; [| contradiction].
  cbn. destruct (set_row r2 n2 _) as [r3|e] eqn:H3; cbn; [| discriminate].
  destruct (free_columns _ _ _ _) as [J'|e]; cbn; [| discriminate].
  intros Heq. injection Heq as <- <- <-. split; [reflexivity |].
  destruct (subtract_targets_later _ _ _ _ H1) as (N1 & _ & L1).
  destruct (subtract_targets_later _ _ _ _ H2) as (N2 & _ & L2).
  rewrite !length_map in *. cbn in N1. subst n1 n2.
  exists pos, m. split.
  - rewrite <- L1 by lia. rewrite <- L2 by lia. now apply row_Some.
  - now destruct (set_row_nth _ _ _ H3) as (_ & Hn & _).
Qed.

End ResidualFacts.

(* ===================================================================== *)
(** * The dihedral residual, over the real numbers *)
(* ===================================================================== *)

Section DihedralFacts.
Local Open Scope R_scope.

Lemma pi_above_3_1 : 3.1 < PI.
Proof.
  pose proof (PI_2_3_7_ineq 0) as [H _].
  unfold sum_f_R0, tg_alt, PI_2_3_7_tg, Ratan_seq in H. simpl in H.
  lra.
Qed.

(** Python's [%] with a positive modulus lands in [[0, b)], a whole
    number of moduli away. *)
Lemma floor_mod_range (a b : R) : 0 < b -> 0 <= floor_mod a b < b.
Proof.
  intros Hb. unfold floor_mod.
  destruct (base_Int_part (a / b)) as [Hle Hgt].
  assert (Ha : a = b * (a / b)) by (field; lra).
  set (k := IZR (Int_part (a / b))) in *.
  set (q := a / b) in *.
  rewrite Ha. nra.
Qed.

Variables distance angle dihedral : Atoms R -> indices -> R.
Variable internal : list (xyz R) -> list indices -> list indices -> list indices ->
                    vec R * ndarray R.
Local Abbreviation GEO := (real_geometry distance angle dihedral internal).

Lemma wrap_real (a : R) : wrap (GEO := GEO) a = floor_mod (a + PI) (2 * PI) - PI.
Proof.
  unfold wrap. cbn. replace (2 * 1 * PI) with (2 * PI) by ring. reflexivity.
Qed.

(** The wrapped value lies in [[-pi, pi)]. *)
Lemma wrap_range (a : R) : - PI <= wrap (GEO := GEO) a < PI.
Proof.
  rewrite wrap_real.
  pose proof PI_RGT_0.
  pose proof (@floor_mod_range (a + PI) (2 * PI) ltac:(lra)). lra.
Qed.

(** It is the argument, less a whole number of turns. *)
Lemma wrap_turns (a : R) : exists k : Z, wrap (GEO := GEO) a = a - 2 * PI * IZR k.
Proof.
  rewrite wrap_real. unfold floor_mod.
  exists (Int_part ((a + PI) / (2 * PI))). ring.
Qed.

(** Where the argument is known to within a turn, so is the number of
    turns. *)
Lemma wrap_by_turns (a : R) (k : Z) :
  - PI <= a - 2 * PI * IZR k < PI -> wrap (GEO := GEO) a = a - 2 * PI * IZR k.
Proof.
  intros Hr. rewrite wrap_real. unfold floor_mod.
  pose proof PI_RGT_0 as Hpi.
  replace (Int_part ((a + PI) / (2 * PI))) with k; [ring |].
  apply Int_part_spec.
  assert (Hq : (a + PI) / (2 * PI) - IZR k = (a - 2 * PI * IZR k + PI) / (2 * PI))
    by (field; lra).
  assert (H0 : 0 <= (a - 2 * PI * IZR k + PI) / (2 * PI) < 1).
  { split.
    - apply Rmult_le_pos; [lra |]. apply Rlt_le, Rinv_0_lt_compat. lra.
    - apply Rmult_lt_reg_r with (r := 2 * PI); [lra |].
      unfold Rdiv. rewrite Rmult_assoc, Rinv_l by lra. lra. }
  lra.
Qed.

End DihedralFacts.

Section RoundedMod.
Local Open Scope R_scope.

(** [%] in exact arithmetic lands in [[0, b)]; in float64 it can round up
    to the modulus itself.  Either way it lands in [[0, b]]. *)
Lemma floor_mod_closed (a b : R) : 0 < b -> 0 <= floor_mod a b <= b.
Proof. intros Hb. pose proof (floor_mod_range a Hb). lra. Qed.

Variable pmod : R -> R -> R.
Hypothesis pmod_range : forall a b, 0 < b -> 0 <= pmod a b <= b.
Variables distance angle dihedral : Atoms R -> indices -> R.
Variable internal : list (xyz R) -> list indices -> list indices -> list indices ->
                    vec R * ndarray R.
Local Abbreviation GEO := (modular_geometry pmod distance angle dihedral internal).

Lemma wrap_modular (a : R) : wrap (GEO := GEO) a = pmod (a + PI) (2 * PI) - PI.
Proof.
  unfold wrap. cbn. replace (2 * 1 * PI) with (2 * PI) by ring. reflexivity.
Qed.

(** The wrapped value lies in [[-pi, pi]]. *)
Lemma wrap_closed_range (a : R) : - PI <= wrap (GEO := GEO) a <= PI.
Proof.
  rewrite wrap_modular.
  pose proof PI_RGT_0.
  pose proof (pmod_range (a + PI) (b := 2 * PI) ltac:(lra)). lra.
Qed.

End RoundedMod.

(** C4, amended. With a single dihedral constraint of target [t] in the
    constraint set (after any bonds and angles), [res_constr], when it
    returns, gives as its residual the measured value [m] less [t] (not
    [t] less [m]), wrapped as [(m - t + pi) % (2 pi) - pi].  For every
    [%] that lands between 0 and the modulus, both included, as exact
    floor-mod does and as float64 [%] does, which can round up to the
    modulus itself, the residual lies in [[-pi, pi]]: neither end is
    excluded.  Where [%] is exact the residual is [m - t] less a whole
    number of turns, and for target 3.0 and measured -3.1 it is
    [2 pi - 6.1]. *)
Theorem dihedral_residual_wrapped :
  forall (pmod : R -> R -> R)
         (distance angle dihedral : Atoms R -> indices -> R)
         (internal : list (xyz R) -> list indices -> list indices -> list indices ->
                     vec R * ndarray R)
         (self self' : MinModeAtoms R) (x : vec R) (cs : ConstraintSet R)
         (ix : indices) (t : R) (r : vec R) (J : ndarray R),
    (forall a b : R, (0 < b)%R -> (0 <= pmod a b <= b)%R) ->
    ma_constraints self = Some cs ->
    cs_dihedrals cs = Some [(ix, t)] ->
    res_constr (GEO := modular_geometry pmod distance angle dihedral internal) x self
    = (Ok (r, J), self') ->
    exists (pos : list (xyz R)) (m residual : R),
      nth_error (fst (internal pos (map fst (or_empty (cs_bonds cs)))
                               (map fst (or_empty (cs_angles cs))) [ix]))
                (length (or_empty (cs_bonds cs)) + length (or_empty (cs_angles cs)))
      = Some m /\
      nth_error r (length (or_empty (cs_bonds cs)) + length (or_empty (cs_angles cs)))
      = Some residual /\
      residual = (pmod (m - t + PI) (2 * PI) - PI)%R /\
      (- PI <= residual <= PI)%R /\
      ((pmod (m - t + PI) (2 * PI) = floor_mod (m - t + PI) (2 * PI))%R ->
       (exists k : Z, residual = (m - t - 2 * PI * IZR k)%R) /\
       (t = 3%R -> m = (-3.1)%R -> residual = (2 * PI - 6.1)%R)).
Proof.
  intros pmod distance angle dihedral internal self self' x cs ix t r J
         Hrange Hcs Hd Hres.
  destruct (@res_constr_one_dihedral R R_Scalar
              (modular_geometry pmod distance angle dihedral internal)
              self self' x cs ix t r J Hcs Hd Hres)
    as (_ & pos & m & Hm & Hr).
  exists pos, m,
    (wrap (GEO := modular_geometry pmod distance angle dihedral internal) (m - t)%R).
  split; [exact Hm |]. split; [exact Hr |].
  split; [apply wrap_modular |]. split; [now apply wrap_closed_range |].
  intros Hexact.
  assert (Hw : wrap (GEO := modular_geometry pmod distance angle dihedral internal)
                    (m - t)%R
               = wrap (GEO := real_geometry distance angle dihedral internal) (m - t)%R).
  { rewrite wrap_modular, wrap_real. now rewrite Hexact. }
  rewrite Hw. split; [apply wrap_turns |].
  intros -> ->.
  rewrite (@wrap_by_turns distance angle dihedral internal (-3.1 - 3)%R (-1)%Z).
  - lra.
  - pose proof pi_above_3_1. pose proof PI_4. lra.
Qed.

(** A chain of four atoms, a routine that measures its dihedral as [m],
    and the controller that constrains the dihedral to [t]. *)
Definition chain : Atoms R :=
  mkAtoms [(0, 0, 0); (1, 0, 0); (1, 1, 0); (2, 1, 0)]%R spring.

Definition measured_geometry (m : R) : Geometry R :=
  real_geometry (fun _ _ => 0%R) (fun _ _ => 0%R) (fun _ _ => 0%R)
                (fun _ _ _ _ => ([m], mkArr float64 (1, 12) [repeat 0%R 12])).

Definition chain_controller (t : R) : MinModeAtoms R :=
  MinModeAtoms_init (GEO := measured_geometry 0) chain spring false
                    (Some (mkUser None None None (Some [WithTarget t [0; 1; 2; 3]]))).

Definition chain_x : vec R := ravel3 (positions chain).

Lemma chain_residual (m t : R) :
  res_constr (GEO := measured_geometry m) chain_x (chain_controller t)
  = (Ok ([wrap (GEO := measured_geometry m) (m - t)%R],
         mkArr float64 (1, 12) [repeat 0%R 12]),
     chain_controller t).
Proof. reflexivity. Qed.

(** C4, as stated, fails twice.  For target 3.0 and measured -3.1 the
    residual is [2 pi - 6.1], the measured value less the target, and not
    [6.1 - 2 pi], which is what 3.0 - (-3.1) reduces to in [(-pi, pi]].
    For target 0 and measured pi the residual is [-pi], which is not in
    [(-pi, pi]]. *)
Lemma dihedral_residual_not_as_claimed :
  (exists residual J,
      res_constr (GEO := measured_geometry (-3.1)) chain_x (chain_controller 3)
      = (Ok ([residual], J), chain_controller 3) /\
      residual = (2 * PI - 6.1)%R /\
      (- PI < 6.1 - 2 * PI <= PI)%R /\
      residual <> (6.1 - 2 * PI)%R) /\
  (exists residual J,
      res_constr (GEO := measured_geometry PI) chain_x (chain_controller 0)
      = (Ok ([residual], J), chain_controller 0) /\
      residual = (- PI)%R /\
      ~ (- PI < residual <= PI)%R).
Proof.
  pose proof pi_above_3_1 as Hlo. pose proof PI_4 as Hhi.
  split.
  - do 2 eexists. split; [apply chain_residual |].
    unfold measured_geometry.
    rewrite (@wrap_by_turns _ _ _ _ (-3.1 - 3)%R (-1)%Z) by lra.
    repeat split; lra.
  - do 2 eexists. split; [apply chain_residual |].
    unfold measured_geometry.
    rewrite (@wrap_by_turns _ _ _ _ (PI - 0)%R 1%Z) by lra.
    split; lra.
Qed.

(** The amended C4 at the chain, target 3.0 and measured -3.1, in exact
    arithmetic. *)
Lemma dihedral_residual_wrapped_witness :
  exists (pos : list (xyz R)) (m residual : R),
    nth_error [wrap (GEO := measured_geometry (-3.1)) (-3.1 - 3)%R] (0 + 0)
    = Some residual /\
    m = (-3.1)%R /\
    residual = (floor_mod (m - 3 + PI) (2 * PI) - PI)%R /\
    (- PI <= residual <= PI)%R /\
    residual = (2 * PI - 6.1)%R.
Proof.
  destruct (@dihedral_residual_wrapped floor_mod
              (fun _ _ => 0%R) (fun _ _ => 0%R) (fun _ _ => 0%R)
              (fun _ _ _ _ => ([(-3.1)%R], mkArr float64 (1, 12) [repeat 0%R 12]))
              (chain_controller 3) (chain_controller 3) chain_x
              (mkConstraints None None None (Some [([0; 1; 2; 3], 3%R)]))
              [0; 1; 2; 3] 3%R
              [wrap (GEO := measured_geometry (-3.1)) (-3.1 - 3)%R]
              (mkArr float64 (1, 12) [repeat 0%R 12])
              floor_mod_closed eq_refl eq_refl (chain_residual (-3.1) 3))
    as (pos & m & residual & Hm & Hr & Hform & Hrange & Hexact).
  assert (Hm' : m = (-3.1)%R) by (cbn in Hm; now injection Hm as <-).
  exists pos, m, residual. split; [exact Hr |]. split; [exact Hm' |].
  split; [exact Hform |]. split; [exact Hrange |].
  exact (proj2 (Hexact eq_refl) eq_refl Hm').
Defined.

(** A routine that measures two dihedrals, and the chain constrained in
    two of its dihedrals. *)
Definition two_measured (m1 m2 : R) : Geometry R :=
  real_geometry (fun _ _ => 0%R) (fun _ _ => 0%R) (fun _ _ => 0%R)
                (fun _ _ _ _ => ([m1; m2], mkArr float64 (2, 12) [repeat 0%R 12; repeat 0%R 12])).

Definition twice_constrained (t1 t2 : R) : MinModeAtoms R :=
  MinModeAtoms_init (GEO := two_measured 0 0) chain spring false
                    (Some (mkUser None None None
                                  (Some [WithTarget t1 [0; 1; 2; 3];
                                         WithTarget t2 [0; 2; 1; 3]]))).

(** The dihedral loop of [res_constr] does not advance its counter: with
    two dihedral constraints both write the first slot, and the second
    measured value is returned as it is. *)
Lemma two_dihedrals_share_a_slot (m1 m2 t1 t2 : R) :
  exists J,
    res_constr (GEO := two_measured m1 m2) chain_x (twice_constrained t1 t2)
    = (Ok ([wrap (GEO := two_measured m1 m2)
                 (wrap (GEO := two_measured m1 m2) (m1 - t1) - t2)%R; m2], J),
       twice_constrained t1 t2).
Proof. eexists. reflexivity. Qed.
(* ===================================================================== *)
(** * More of linalg.py: the constructor of a sum *)
(* ===================================================================== *)

Section SumFacts.
Context {F : Type} {SF : Scalar F}.

(** The terms handed to the constructor, sums flattened. *)
Definition terms_of (args : list (sum_arg F)) : list (summand F) :=
  flat_map (fun a => match a with
                     | ASum S0 => matrices S0
                     | ATerm m => [m]
                     end) args.

(** The wrapped terms among [ms], and the dense ones, each in order. *)
Definition wrapped_of (ms : list (summand F)) : list (summand F) :=
  filter (fun m => match m with SWrap _ => true | SArr _ => false end) ms.
Definition dense_of (ms : list (summand F)) : list (ndarray F) :=
  flat_map (fun m => match m with SArr A => [A] | SWrap _ => [] end) ms.

(** The highest dtype of a non-empty list of terms. *)
Definition top_dtype (m0 : summand F) (rest : list (summand F)) : dtype :=
  fold_left dtype_max (map summand_dtype rest) (summand_dtype m0).

Lemma shape_eqb_eq (a b : nat * nat) : shape_eqb a b = true <-> a = b.
Proof.
  destruct a as [a1 a2], b as [b1 b2]. unfold shape_eqb. cbn.
  rewrite andb_true_iff, !Nat.eqb_eq. split.
  - intros [-> ->]. reflexivity.
  - intros Heq. injection Heq as -> ->. split; reflexivity.
Qed.

Lemma dtype_leb_trans (a b c : dtype) :
  dtype_leb a b = true -> dtype_leb b c = true -> dtype_leb a c = true.
Proof. destruct a, b, c; cbn; congruence. Qed.

(** Two dtypes compare when one can be cast to the other. *)
Definition comparable (a b : dtype) : Prop :=
  dtype_leb a b = true \/ dtype_leb b a = true.

(** Dtypes that compare pairwise: there the order is total and [sorted]
    puts a highest one first. *)
Definition dtype_chain (ds : list dtype) : Prop :=
  forall a b, In a ds -> In b ds -> comparable a b.

Lemma dtype_leb_max (a b : dtype) :
  comparable a b ->
  dtype_leb a (dtype_max a b) = true /\ dtype_leb b (dtype_max a b) = true.
Proof.
  unfold dtype_max. intros Hc. destruct (dtype_leb a b) eqn:E.
  - split; [exact E | apply dtype_leb_refl].
  - destruct Hc as [Hab|Hba]; [congruence |].
    split; [apply dtype_leb_refl | exact Hba].
Qed.

Lemma dtype_max_one_of (a b : dtype) : dtype_max a b = a \/ dtype_max a b = b.
Proof. unfold dtype_max. destruct (dtype_leb a b); auto. Qed.

Lemma fold_max_above (l : list dtype) :
  forall a, dtype_chain (a :: l) ->
            dtype_leb a (fold_left dtype_max l a) = true /\
            Forall (fun b => dtype_leb b (fold_left dtype_max l a) = true) l.
Proof.
  induction l as [|b l IH]; intros a Hc; cbn.
  - split; [apply dtype_leb_refl | constructor].
  - assert (Hc' : dtype_chain (dtype_max a b :: l)).
    { intros x y Hx Hy. apply Hc.
      - destruct Hx as [<-|Hx]; [| now right; right].
        destruct (dtype_max_one_of a b) as [-> | ->]; [now left | now right; left].
      - destruct Hy as [<-|Hy]; [| now right; right].
        destruct (dtype_max_one_of a b) as [-> | ->]; [now left | now right; left]. }
    destruct (IH (dtype_max a b) Hc') as [Ha Hl].
    destruct (dtype_leb_max (a := a) (b := b)) as [Hab Hbb].
    { apply Hc; [now left | now right; left]. }
    split; [eapply dtype_leb_trans; eassumption |].
    constructor; [eapply dtype_leb_trans; eassumption | exact Hl].
Qed.

(** On terms whose dtypes compare pairwise, no term is above the dtype
    the constructor picks. *)
Lemma top_dtype_above (m0 : summand F) (rest : list (summand F)) :
  dtype_chain (map summand_dtype (m0 :: rest)) ->
  Forall (fun m => dtype_leb (summand_dtype m) (top_dtype m0 rest) = true) (m0 :: rest).
Proof.
  intros Hc. unfold top_dtype.
  destruct (fold_max_above (l := map summand_dtype rest) (a := summand_dtype m0) Hc)
    as [H0 Hr].
  constructor; [exact H0 |].
  rewrite Forall_map in Hr. exact Hr.
Qed.

(** The dense term after the arrays [As] have been added to [X]. *)
Definition added (X : ndarray F) (As : list (ndarray F)) : ndarray F :=
  fold_left nd_iadd As X.

Lemma added_shape (As : list (ndarray F)) :
  forall X, ashape (added X As) = ashape X /\ adtype (added X As) = adtype X.
Proof.
  induction As as [|A As IH]; intros X; cbn; [split; reflexivity |].
  destruct (IH (nd_iadd X A)) as [Hs Hd]. unfold added in *.
  rewrite Hs, Hd. split; reflexivity.
Qed.

(** The second loop of the constructor, on terms that pass its checks. *)
Lemma fold_terms_fitting (dt : dtype) (sh : nat * nat) (ms : list (summand F)) :
  forall (mnum : option (ndarray F)) (kept : list (summand F)),
    Forall (fun m => dtype_leb (summand_dtype m) dt = true) ms ->
    Forall (fun m => summand_shape m = sh) ms ->
    fold_terms dt sh ms mnum kept
    = Ok (match dense_of ms, mnum with
          | [], _ => mnum
          | As, None => Some (added (zeros sh dt) As)
          | As, Some X => Some (added X As)
          end,
          kept ++ wrapped_of ms).
Proof.
  induction ms as [|m ms IH]; intros mnum kept Hd Hs.
  - cbn. rewrite app_nil_r. reflexivity.
  - apply Forall_cons_iff in Hd as [Hm Hd']. apply Forall_cons_iff in Hs as [Hm' Hs'].
    cbn [fold_terms]. rewrite Hm, Hm', shape_eqb_refl. cbn [negb].
    destruct m as [A|W0].
    + rewrite IH by assumption.
      change (dense_of (SArr A :: ms)) with (A :: dense_of ms).
      change (wrapped_of (SArr A :: ms)) with (wrapped_of ms).
      destruct mnum, (dense_of ms); reflexivity.
    + rewrite IH by assumption.
      change (dense_of (SWrap W0 :: ms)) with (dense_of ms).
      change (wrapped_of (SWrap W0 :: ms)) with (SWrap W0 :: wrapped_of ms).
      rewrite <- app_assoc. reflexivity.
Qed.

(** The second loop stops at the first term of another shape. *)
Lemma fold_terms_misfit (dt : dtype) (sh : nat * nat) (ms : list (summand F)) :
  forall (mnum : option (ndarray F)) (kept : list (summand F)),
    Forall (fun m => dtype_leb (summand_dtype m) dt = true) ms ->
    Exists (fun m => summand_shape m <> sh) ms ->
    fold_terms dt sh ms mnum kept = Raise AssertionError.
Proof.
  induction ms as [|m ms IH]; intros mnum kept Hd Hex; [inversion Hex |].
  apply Forall_cons_iff in Hd as [Hm Hd']. cbn [fold_terms]. rewrite Hm. cbn [negb].
  destruct (shape_eqb (summand_shape m) sh) eqn:Hsh; cbn [negb]; [| reflexivity].
  apply shape_eqb_eq in Hsh.
  apply Exists_cons in Hex as [Hbad|Hex']; [contradiction |].
  destruct m; apply IH; assumption.
Qed.

(** The constructor on terms of one shape whose dtypes compare. *)
Lemma MatrixSum_init_fits (args : list (sum_arg F)) (m0 : summand F)
      (rest : list (summand F)) :
  terms_of args = m0 :: rest ->
  dtype_chain (map summand_dtype (m0 :: rest)) ->
  Forall (fun m => summand_shape m = summand_shape m0) rest ->
  MatrixSum_init args
  = Ok (mkSum (top_dtype m0 rest) (summand_shape m0)
          (wrapped_of (m0 :: rest) ++
           match dense_of (m0 :: rest) with
           | [] => []
           | As => [SArr (added (zeros (summand_shape m0) (top_dtype m0 rest)) As)]
           end)).
Proof.
  intros Hterms Hc Hshape.
  assert (Hs : Forall (fun m => summand_shape m = summand_shape m0) (m0 :: rest))
    by (constructor; [reflexivity | exact Hshape]).
  unfold MatrixSum_init. fold (terms_of args). rewrite Hterms.
  fold (top_dtype m0 rest).
  rewrite (@fold_terms_fitting (top_dtype m0 rest) (summand_shape m0) (m0 :: rest)
             None [] (top_dtype_above Hc) Hs).
  cbn [res_bind app].
  destruct (dense_of (m0 :: rest)); [rewrite app_nil_r |]; reflexivity.
Qed.

End SumFacts.

(** X1. The constructor of a sum, handed terms whose dtypes compare
    pairwise (as float32, float64 and complex128 do; int64 and float32
    do not) and that all have the shape of the first: it returns a sum of
    that shape and of the highest dtype among the terms, whose list holds
    the wrapped terms in the order they came in (the terms of a sum
    handed in counted in its place) and, if there was any dense array,
    one array after them: zeros with every dense array added in order. *)
Theorem MatrixSum_init_terms :
  forall (F : Type) (SF : Scalar F) (args : list (sum_arg F))
         (m0 : summand F) (rest : list (summand F)),
    terms_of args = m0 :: rest ->
    dtype_chain (map summand_dtype (m0 :: rest)) ->
    Forall (fun m => summand_shape m = summand_shape m0) rest ->
    let dt := top_dtype m0 rest in
    let sh := summand_shape m0 in
    MatrixSum_init args
    = Ok (mkSum dt sh
            (wrapped_of (m0 :: rest) ++
             match dense_of (m0 :: rest) with
             | [] => []
             | As => [SArr (added (zeros sh dt) As)]
             end)) /\
    Forall (fun m => summand_shape m = sh /\ dtype_leb (summand_dtype m) dt = true)
           (wrapped_of (m0 :: rest) ++
            match dense_of (m0 :: rest) with
            | [] => []
            | As => [SArr (added (zeros sh dt) As)]
            end).
Proof.
  intros F SF args m0 rest Hterms Hc Hshape dt sh.
  assert (Hs : Forall (fun m => summand_shape m = sh) (m0 :: rest))
    by (constructor; [reflexivity | exact Hshape]).
  pose proof (top_dtype_above Hc) as Hd. fold dt in Hd.
  split.
  - exact (@MatrixSum_init_fits F SF args m0 rest Hterms Hc Hshape).
  - apply Forall_app. split.
    + unfold wrapped_of. rewrite Forall_forall. intros m Hin.
      apply filter_In in Hin. destruct Hin as [Hin _].
      rewrite Forall_forall in Hs, Hd. split; [apply Hs | apply Hd]; exact Hin.
    + destruct (dense_of (m0 :: rest)) as [|A As]; constructor; [| constructor].
      cbn [summand_shape summand_dtype].
      destruct (@added_shape F SF (A :: As) (zeros sh dt)) as [-> ->].
      split; [reflexivity | apply dtype_leb_refl].
Qed.

(** A wrapper around the matrix [[0 1] [0 0]]. *)
Definition shift_wrapper : MatrixWrapper R :=
  mkWrapper (2, 2) float64 shift_matrix.

Lemma float64_chain (n : nat) : dtype_chain (repeat float64 n).
Proof.
  intros a b Ha Hb. apply repeat_spec in Ha, Hb. subst. now left.
Qed.

(** X1 at the sum of one wrapped and two dense copies of [[0 1] [0 0]]. *)
Lemma MatrixSum_init_terms_witness :
  MatrixSum_init [ATerm (SArr shift_matrix); ATerm (SWrap shift_wrapper);
                  ATerm (SArr shift_matrix)]
  = Ok (mkSum float64 (2, 2)
          [SWrap shift_wrapper;
           SArr (added (zeros (2, 2) float64) [shift_matrix; shift_matrix])]).
Proof.
  exact (proj1 (@MatrixSum_init_terms R R_Scalar
                  [ATerm (SArr shift_matrix); ATerm (SWrap shift_wrapper);
                   ATerm (SArr shift_matrix)]
                  (SArr shift_matrix) [SWrap shift_wrapper; SArr shift_matrix]
                  eq_refl (float64_chain 3)
                  ltac:(repeat constructor))).
Defined.

(** X2. How the constructor of a sum raises.  Handed terms whose dtypes
    compare pairwise, it raises in two cases only: IndexError when there
    is no term at all, AssertionError when a term has another shape than
    the first; the assertion on the dtypes cannot fail there, the dtype
    of the sum being the highest among the terms.  Where dtypes do not
    compare that assertion can fail: two terms whose dtypes do not
    compare, as int64 and float32, raise AssertionError whatever their
    shapes. *)
Theorem MatrixSum_init_raises :
  forall (F : Type) (SF : Scalar F) (args : list (sum_arg F)),
    (dtype_chain (map summand_dtype (terms_of args)) ->
     forall e : exn,
       MatrixSum_init args = Raise e <->
       (terms_of args = [] /\ e = IndexError) \/
       (exists m0 rest,
           terms_of args = m0 :: rest /\
           Exists (fun m => summand_shape m <> summand_shape m0) rest /\
           e = AssertionError)) /\
    (forall m0 m1,
        terms_of args = [m0; m1] ->
        dtype_leb (summand_dtype m0) (summand_dtype m1) = false ->
        dtype_leb (summand_dtype m1) (summand_dtype m0) = false ->
        MatrixSum_init args = Raise AssertionError).
Proof.
  intros F SF args. split.
  - intros Hc e.
    assert (Hdec : forall (sh : nat * nat) (m : summand F),
               {summand_shape m = sh} + {summand_shape m <> sh})
      by (intros sh m; repeat decide equality).
    assert (Hrun : forall m0 rest,
               terms_of args = m0 :: rest ->
               Exists (fun m => summand_shape m <> summand_shape m0) rest ->
               MatrixSum_init args = Raise AssertionError).
    { intros m0 rest Hterms Hex. unfold MatrixSum_init. fold (terms_of args).
      rewrite Hterms in Hc |- *. fold (top_dtype m0 rest).
      rewrite (@fold_terms_misfit F SF (top_dtype m0 rest) (summand_shape m0)
                 (m0 :: rest) None [] (top_dtype_above Hc)
                 (Exists_cons_tl m0 Hex)).
      reflexivity. }
    split.
    + intros Hraise. destruct (terms_of args) as [|m0 rest] eqn:Hterms.
      * left. split; [reflexivity |].
        unfold MatrixSum_init in Hraise. fold (terms_of args) in Hraise.
        rewrite Hterms in Hraise. congruence.
      * right. exists m0, rest. split; [reflexivity |].
        destruct (Forall_Exists_dec _ (Hdec (summand_shape m0)) rest) as [Hall|Hex].
        -- rewrite (@MatrixSum_init_fits F SF args m0 rest Hterms Hc Hall) in Hraise.
           discriminate Hraise.
        -- split; [exact Hex |]. rewrite (Hrun m0 rest eq_refl Hex) in Hraise.
           congruence.
    + intros [[Hterms ->]|(m0 & rest & Hterms & Hex & ->)].
      * unfold MatrixSum_init. fold (terms_of args). rewrite Hterms. reflexivity.
      * exact (Hrun m0 rest Hterms Hex).
  - intros m0 m1 Hterms H01 H10.
    unfold MatrixSum_init. fold (terms_of args). rewrite Hterms.
    cbn [map fold_left]. unfold dtype_max. rewrite H01.
    cbn [fold_terms]. rewrite dtype_leb_refl. cbn [negb].
    destruct (shape_eqb (summand_shape m0) (summand_shape m0)); cbn [negb];
      [| reflexivity].
    destruct m0; cbn [fold_terms]; rewrite H10; reflexivity.
Qed.

(** An array of whole numbers, and one of single precision. *)
Definition whole_numbers : ndarray R := mkArr int64 (1, 1) [[1%R]].
Definition single_precision : ndarray R := mkArr float32 (1, 1) [[1%R]].

(** X2 at [[0 1] [0 0]] with an array of another shape, and at an int64
    and a float32 array of one shape. *)
Lemma MatrixSum_init_raises_witness :
  (MatrixSum_init [ATerm (SArr shift_matrix); ATerm (SArr whole_numbers)]
   = Raise AssertionError <->
   (terms_of [ATerm (SArr shift_matrix); ATerm (SArr whole_numbers)] = []
    /\ AssertionError = IndexError) \/
   (exists m0 rest,
       terms_of [ATerm (SArr shift_matrix); ATerm (SArr whole_numbers)]
       = m0 :: rest /\
       Exists (fun m => summand_shape m <> summand_shape m0) rest /\
       AssertionError = AssertionError)) /\
  MatrixSum_init [ATerm (SArr whole_numbers); ATerm (SArr single_precision)]
  = Raise AssertionError.
Proof.
  split.
  - apply (proj1 (@MatrixSum_init_raises R R_Scalar
                    [ATerm (SArr shift_matrix); ATerm (SArr whole_numbers)])).
    intros a b [<-|[<-|[]]] [<-|[<-|[]]]; (now left) || (now right).
  - exact (proj2 (@MatrixSum_init_raises R R_Scalar
                    [ATerm (SArr whole_numbers); ATerm (SArr single_precision)])
                 (SArr whole_numbers) (SArr single_precision)
                 eq_refl eq_refl eq_refl).
Defined.

(* ===================================================================== *)
(** * More of linalg.py: products with a sum, and the adjoint *)
(* ===================================================================== *)

Section ProductFacts.
Context {F : Type} {SF : Scalar F}.

(** One turn of the loop of [MatrixSum._matvec]. *)
Definition add_product (v : vec F) (acc : res (vec F)) (m : summand F) : res (vec F) :=
  let* w := acc in let* y := summand_dot m v in vec_iadd w y.

Lemma length_map_zip (op : F -> F -> F) (u v : vec F) :
  length u = length v -> length (zip_with op u v) = length u.
Proof. intros Hl. rewrite length_zip_with; congruence. Qed.

Lemma vec_iadd_length (w y w' : vec F) :
  vec_iadd w y = Ok w' ->
  length w' = length w /\ (length y = length w \/ length y = 1).
Proof.
  unfold vec_iadd. destruct (length w =? length y) eqn:Hl.
  - apply Nat.eqb_eq in Hl. intros Heq. injection Heq as <-.
    split; [apply length_map_zip; exact Hl | left; congruence].
  - destruct y as [|b [|c y]]; intros Heq; try discriminate Heq.
    injection Heq as <-. rewrite length_map. split; [reflexivity | right; reflexivity].
Qed.

Lemma products_after_raise (v : vec F) (e : exn) (ms : list (summand F)) :
  fold_left (add_product v) ms (Raise e) = Raise e.
Proof. induction ms as [|m ms IH]; [reflexivity | exact IH]. Qed.

Lemma products_length (v : vec F) (ms : list (summand F)) :
  forall w0 w : vec F,
    fold_left (add_product v) ms (Ok w0) = Ok w ->
    length w = length w0 /\
    Forall (fun m => exists y, summand_dot m v = Ok y /\
                               (length y = length w0 \/ length y = 1)) ms.
Proof.
  induction ms as [|m ms IH]; intros w0 w Hrun; cbn in Hrun.
  - injection Hrun as <-. split; [reflexivity | constructor].
  - destruct (summand_dot m v) as [y|e] eqn:Hy; cbn in Hrun.
    2:{ rewrite products_after_raise in Hrun. discriminate Hrun. }
    destruct (vec_iadd w0 y) as [w1|e] eqn:Hadd.
    2:{ rewrite products_after_raise in Hrun. discriminate Hrun. }
    destruct (vec_iadd_length _ _ Hadd) as [L1 Hfit].
    destruct (IH _ _ Hrun) as [L Hall]. rewrite L1 in L, Hall.
    split; [exact L |]. constructor; [| exact Hall].
    exists y. split; [exact Hy | exact Hfit].
Qed.

Lemma nth_of_column (X : list (vec F)) (i : nat) :
  forall j, nth j (map (fun r => nth i r F0) X) F0 = nth i (nth j X []) F0.
Proof.
  induction X as [|r X IH]; intros [|j]; cbn; try apply IH; try reflexivity;
    destruct i; reflexivity.
Qed.

Lemma map_nth_all {A : Type} (l : list A) (d : A) :
  map (fun i => nth i l d) (seq 0 (length l)) = l.
Proof.
  induction l as [|a l IH]; cbn; [reflexivity |].
  f_equal. rewrite <- seq_shift, map_map. exact IH.
Qed.

(** Transposing twice gives the array back. *)
Lemma transpose_transpose (A : ndarray F) :
  well_shaped A -> transpose (transpose A) = A.
Proof.
  destruct A as [t [n k] X]. unfold well_shaped, transpose, columns, col, nrows, ncols.
  cbn. intros [Hn Hk]. f_equal. subst n.
  rewrite <- (map_nth_all X []) at 2.
  apply map_ext_in. intros j Hj. apply in_seq in Hj.
  rewrite map_map.
  rewrite (map_ext _ (fun i => nth i (nth j X []) F0)).
  2:{ intros i. apply (nth_of_column X i j). }
  assert (Hlen : length (nth j X []) = k).
  { rewrite Forall_forall in Hk. apply Hk. apply nth_In. lia. }
  rewrite <- Hlen. apply map_nth_seq.
Qed.

Lemma well_shaped_conj (A : ndarray F) : well_shaped A -> well_shaped (conj A).
Proof.
  unfold well_shaped, conj, nrows, ncols. cbn. intros [Hn Hk].
  rewrite length_map. split; [exact Hn |].
  rewrite Forall_map. eapply Forall_impl; [| exact Hk].
  intros r Hr. cbn. rewrite length_map. exact Hr.
Qed.

Lemma conj_transpose (A : ndarray F) :
  Fconj F0 = F0 -> transpose (conj A) = conj (transpose A).
Proof.
  intros H0. unfold transpose, conj, columns, col, nrows, ncols. cbn.
  f_equal. rewrite map_map. apply map_ext. intros j.
  rewrite !map_map. apply map_ext. intros r.
  rewrite <- H0 at 1. apply map_nth.
Qed.

Lemma conj_conj (A : ndarray F) :
  (forall a, Fconj (Fconj a) = a) -> conj (conj A) = A.
Proof.
  intros Hinv. destruct A as [t sh X]. unfold conj. cbn. f_equal.
  rewrite map_map. rewrite <- (map_id X) at 2. apply map_ext. intros r.
  rewrite map_map. rewrite <- (map_id r) at 2. apply map_ext. exact Hinv.
Qed.

End ProductFacts.

(** X3. [MatrixSum._matvec] starts from zeros shaped like [v] and adds
    each term's product in place: a result it returns has the length of
    [v], and every term's product had the length of [v], or length one. *)
Theorem MatrixSum_matvec_length :
  forall (F : Type) (SF : Scalar F) (S0 : MatrixSum F) (v w : vec F),
    MatrixSum_matvec S0 v = Ok w ->
    length w = length v /\
    Forall (fun m => exists y, summand_dot m v = Ok y /\
                               (length y = length v \/ length y = 1))
           (matrices S0).
Proof.
  intros F SF S0 v w Hrun.
  destruct (@products_length F SF v (matrices S0) (repeat F0 (length v)) w Hrun)
    as [L Hall].
  rewrite repeat_length in L, Hall. split; assumption.
Qed.

(** X3 at the sum whose one term is [[0 1] [0 0]]. *)
Lemma MatrixSum_matvec_length_witness :
  length [(0 + (0 * 1 + (1 * 0 + 0)))%R; (0 + (0 * 1 + (0 * 0 + 0)))%R] = length [1%R; 0%R].
Proof.
  exact (proj1 (@MatrixSum_matvec_length R R_Scalar
                  (mkSum float64 (2, 2) [SArr shift_matrix]) [1%R; 0%R]
                  [(0 + (0 * 1 + (1 * 0 + 0)))%R; (0 + (0 * 1 + (0 * 0 + 0)))%R]
                  eq_refl)).
Defined.

(** X4. [_adjoint] never raises: it returns a wrapper of the transposed
    shape whose [_matvec] is, when the multiplication of entries
    commutes, the product [v.dot(conj(A))] of the vector from the left
    with the conjugated matrix. *)
Theorem MatrixWrapper_adjoint_matvec :
  forall (F : Type) (SF : Scalar F) (W : MatrixWrapper F) (v : vec F),
    (forall a b : F, Fmul a b = Fmul b a) ->
    exists W', MatrixWrapper_adjoint W = Ok W' /\
               mw_shape W' = (ncols (mw_A W), nrows (mw_A W)) /\
               MatrixWrapper_matvec W' v = vec_dot_nd v (conj (mw_A W)).
Proof.
  intros F SF W v Hcomm. eexists. split; [reflexivity |]. split; [reflexivity |].
  unfold MatrixWrapper_matvec, nd_dot_vec, vec_dot_nd. cbn.
  unfold ncols, nrows. cbn. rewrite (Nat.eqb_sym (length v)).
  destruct (fst (ashape (mw_A W)) =? length v); [| reflexivity].
  f_equal. apply map_ext. intros c. f_equal.
  clear - Hcomm. revert v. induction c as [|a c IH]; intros [|b v]; cbn; try reflexivity.
  rewrite Hcomm, IH. reflexivity.
Qed.

(** X4 for the wrapper of [[0 1] [0 0]] over the reals. *)
Lemma MatrixWrapper_adjoint_matvec_witness :
  exists W', MatrixWrapper_adjoint shift_wrapper = Ok W' /\
             mw_shape W' = (2, 2) /\
             MatrixWrapper_matvec W' [1%R; 0%R] = vec_dot_nd [1%R; 0%R] (conj shift_matrix).
Proof.
  exact (@MatrixWrapper_adjoint_matvec R R_Scalar shift_wrapper [1%R; 0%R] Rmult_comm).
Defined.

(** X5. The adjoint of the adjoint wraps the matrix itself, when the
    wrapped array has the rows its shape says and conjugation is an
    involution that keeps zero: [(A^H)^H = A]. *)
Theorem MatrixWrapper_adjoint_adjoint :
  forall (F : Type) (SF : Scalar F) (A : ndarray F),
    well_shaped A -> Fconj F0 = F0 -> (forall a : F, Fconj (Fconj a) = a) ->
    exists W W1 W2,
      MatrixWrapper_init (AnArray A) = Ok W /\
      MatrixWrapper_adjoint W = Ok W1 /\
      MatrixWrapper_adjoint W1 = Ok W2 /\
      W2 = W.
Proof.
  intros F SF A Hshape H0 Hinv.
  assert (HT : transpose (conj (transpose (conj A))) = A).
  { rewrite (@conj_transpose F SF (transpose (conj A)) H0).
    rewrite (@transpose_transpose F SF (conj A) (well_shaped_conj Hshape)).
    exact (@conj_conj F SF A Hinv). }
  exists (mkWrapper (ashape A) (adtype A) A).
  exists (mkWrapper (ashape (transpose (conj A))) (adtype (transpose (conj A)))
                    (transpose (conj A))).
  exists (mkWrapper (ashape (transpose (conj (transpose (conj A)))))
                    (adtype (transpose (conj (transpose (conj A)))))
                    (transpose (conj (transpose (conj A))))).
  split; [reflexivity |]. split; [reflexivity |]. split; [reflexivity |].
  rewrite HT. reflexivity.
Qed.

(** X5 for [[0 1] [0 0]] over the reals, where conjugation is the
    identity. *)
Lemma MatrixWrapper_adjoint_adjoint_witness :
  exists W W1 W2,
    MatrixWrapper_init (AnArray shift_matrix) = Ok W /\
    MatrixWrapper_adjoint W = Ok W1 /\
    MatrixWrapper_adjoint W1 = Ok W2 /\
    W2 = W.
Proof.
  exact (@MatrixWrapper_adjoint_adjoint R R_Scalar shift_matrix
           ltac:(split; [reflexivity | repeat constructor]) eq_refl
           (fun a => eq_refl)).
Defined.

(* ===================================================================== *)
(** * More of linalg.py: the finite-difference operator on a block *)
(* ===================================================================== *)

Section NumericalHessianBlock.
Context {F : Type} {SF : Scalar F} {W : Type}.
Local Open Scope py_scope.

(** [self.matvec(v)], the entry point that scipy's [LinearOperator] puts
    around [_matvec]: the vector must have as many entries as the operator
    has columns, and the result is reshaped to as many entries as the
    operator has rows. *)
Definition NumericalHessian_public_matvec (v : vec F)
  : M (NumericalHessian F W * W) (vec F) :=
  s <- get ;;
  if negb (length v =? snd (nh_shape (fst s))) then raise ValueError
  else
    y <- NumericalHessian_matvec v ;;
    if length y =? fst (nh_shape (fst s)) then ret y else raise ValueError.

(** [W[:, i] = y]: the column takes [y], or its one entry throughout. *)
Definition as_column (n : nat) (y : vec F) : res (vec F) :=
  if length y =? n then Ok y
  else match y with
       | [b] => Ok (repeat b n)
       | _ => Raise ValueError
       end.

(** [for i, v in enumerate(V.T): W[:, i] = self.matvec(v)] *)
Fixpoint matvec_each (n : nat) (vs : list (vec F))
  : M (NumericalHessian F W * W) (list (vec F)) :=
  match vs with
  | [] => ret []
  | v :: vs' =>
      y <- NumericalHessian_public_matvec v ;;
      c <- lift (as_column n y) ;;
      cs <- matvec_each n vs' ;;
      ret (c :: cs)
  end.

(** [_matmat]: an array shaped like [V], filled column by column. *)
Definition NumericalHessian_matmat (V : ndarray F)
  : M (NumericalHessian F W * W) (ndarray F) :=
  cs <- matvec_each (nrows V) (columns V) ;;
  ret (mkArr (adtype V) (ashape V)
             (map (fun i => map (fun c => nth i c F0) cs) (seq 0 (nrows V)))).

(** [H'] is [H] after [k] more counted products. *)
Definition counted (k : nat) (H H' : NumericalHessian F W) : Prop :=
  H' = nh_set_calls (nh_calls H + k) H.

Lemma counted_zero (H : NumericalHessian F W) : counted 0 H H.
Proof. unfold counted, nh_set_calls. rewrite Nat.add_0_r. now destruct H. Qed.

Lemma counted_more (j k : nat) (H H1 H2 : NumericalHessian F W) :
  counted j H H1 -> counted k H1 H2 -> counted (j + k) H H2.
Proof.
  unfold counted, nh_set_calls. intros -> ->. cbn. f_equal. lia.
Qed.

Lemma public_matvec_counts (v : vec F) (H : NumericalHessian F W) (w : W) :
  (length v <> snd (nh_shape H) /\
   NumericalHessian_public_matvec v (H, w) = (Raise ValueError, (H, w))) \/
  (length v = snd (nh_shape H) /\
   counted 1 H (fst (snd (NumericalHessian_public_matvec v (H, w))))).
Proof.
  assert (Hrun : NumericalHessian_public_matvec v (H, w)
                 = (if negb (length v =? snd (nh_shape H)) then raise ValueError
                    else bind (NumericalHessian_matvec v)
                              (fun y => if length y =? fst (nh_shape H)
                                        then ret y else raise ValueError)) (H, w))
    by reflexivity.
  rewrite Hrun. clear Hrun.
  destruct (length v =? snd (nh_shape H)) eqn:Hl; cbn [negb].
  - right. apply Nat.eqb_eq in Hl. split; [exact Hl |].
    pose proof (matvec_bumps_calls H v w) as Hb. unfold bind.
    destruct (NumericalHessian_matvec v (H, w)) as [[y|e] [H1 w1]];
      cbn [fst snd] in Hb |- *.
    + destruct (length y =? fst (nh_shape H)); exact Hb.
    + exact Hb.
  - left. apply Nat.eqb_neq in Hl. split; [exact Hl | reflexivity].
Qed.

Lemma matvec_each_cons (n : nat) (v : vec F) (vs : list (vec F))
      (s : NumericalHessian F W * W) :
  matvec_each n (v :: vs) s
  = match NumericalHessian_public_matvec v s with
    | (Ok y, s1) =>
        match as_column n y with
        | Ok c => match matvec_each n vs s1 with
                  | (Ok cs, s2) => (Ok (c :: cs), s2)
                  | (Raise e, s2) => (Raise e, s2)
                  end
        | Raise e => (Raise e, s1)
        end
    | (Raise e, s1) => (Raise e, s1)
    end.
Proof.
  cbn [matvec_each]. unfold bind, lift, ret.
  destruct (NumericalHessian_public_matvec v s) as [[y|e] s1]; [| reflexivity].
  destruct (as_column n y); reflexivity.
Qed.

Lemma matvec_each_counts (n : nat) (vs : list (vec F)) :
  forall (H : NumericalHessian F W) (w : W),
  exists k, k <= length vs /\
            counted k H (fst (snd (matvec_each n vs (H, w)))) /\
            (forall cs, fst (matvec_each n vs (H, w)) = Ok cs ->
                        k = length vs /\ length cs = length vs /\
                        Forall (fun c => length c = n) cs).
Proof.
  induction vs as [|v vs IH]; intros H w.
  - exists 0. cbn. split; [lia |]. split; [apply counted_zero |].
    intros cs Hcs. injection Hcs as <-. repeat split. constructor.
  - rewrite matvec_each_cons.
    destruct (public_matvec_counts v H w) as [[_ Hbad]|[_ Hone]].
    + rewrite Hbad. exists 0. cbn. split; [lia |]. split; [apply counted_zero |].
      intros cs Hcs. discriminate Hcs.
    + destruct (NumericalHessian_public_matvec v (H, w)) as [[y|e] [H1 w1]];
        cbn [fst snd] in Hone.
      2:{ exists 1. cbn. split; [lia |]. split; [exact Hone |].
          intros cs Hcs. discriminate Hcs. }
      destruct (as_column n y) as [c|e] eqn:Hc.
      2:{ exists 1. cbn. split; [lia |]. split; [exact Hone |].
          intros cs Hcs. discriminate Hcs. }
      destruct (IH H1 w1) as (k & Hk & Hcount & Hret).
      destruct (matvec_each n vs (H1, w1)) as [[cs|e] [H2 w2]];
        cbn [fst snd] in Hcount, Hret |- *.
      * exists (1 + k). split; [cbn; lia |].
        split; [eapply counted_more; eassumption |].
        intros cs' Hcs. injection Hcs as <-.
        destruct (Hret cs eq_refl) as (-> & Lcs & Hall).
        cbn. repeat split; [congruence |].
        constructor; [| exact Hall].
        unfold as_column in Hc. destruct (length y =? n) eqn:Hy.
        -- apply Nat.eqb_eq in Hy. congruence.
        -- destruct y as [|b [|b' y]]; try discriminate Hc.
           injection Hc as <-. apply repeat_length.
      * exists (1 + k). split; [cbn; lia |].
        split; [eapply counted_more; eassumption |].
        intros cs' Hcs. discriminate Hcs.
Qed.

End NumericalHessianBlock.

(** X6. [_matmat] of the finite-difference operator applies [matvec] to
    the columns of [V] one after the other.  However it ends, the operator
    comes out with [calls] raised by the number of products it got to, at
    most the number of columns, and nothing else changed; if it returns,
    [calls] is up by exactly the number of columns of [V], and the result
    has the dtype and the shape of [V], its rows as long as [V] has
    columns. *)
Theorem NumericalHessian_matmat_counts :
  forall (F : Type) (SF : Scalar F) (W : Type) (H : NumericalHessian F W) (w : W)
         (V : ndarray F),
    let out := NumericalHessian_matmat V (H, w) in
    (exists k, k <= ncols V /\
               fst (snd out) = nh_set_calls (nh_calls H + k) H) /\
    (forall Y, fst out = Ok Y ->
               fst (snd out) = nh_set_calls (nh_calls H + ncols V) H /\
               adtype Y = adtype V /\ ashape Y = ashape V /\
               length (rows Y) = nrows V /\
               Forall (fun r => length r = ncols V) (rows Y)).
Proof.
  intros F SF W H w V out. unfold out, NumericalHessian_matmat, bind, ret.
  destruct (@matvec_each_counts F SF W (nrows V) (columns V) H w)
    as (k & Hk & Hcount & Hret).
  rewrite length_columns in Hk, Hret.
  destruct (matvec_each (nrows V) (columns V) (H, w)) as [[cs|e] [H1 w1]]; cbn in *.
  - destruct (Hret cs eq_refl) as (-> & Lcs & Hall).
    split; [exists (ncols V); split; [lia | exact Hcount] |].
    intros Y HY. injection HY as <-. cbn.
    split; [exact Hcount |]. split; [reflexivity |]. split; [reflexivity |].
    rewrite length_map, length_seq. split; [reflexivity |].
    rewrite Forall_map, Forall_forall. intros i _. now rewrite length_map.
  - split; [exists k; split; assumption |]. intros Y HY. discriminate HY.
Qed.

(** A block of two columns on the line. *)
Definition two_probes : ndarray R := mkArr float64 (1, 2) [[1; 2]]%R.

(** X6 at the three-point probe of the quadratic, applied to two columns:
    it returns, and has counted two products. *)
Lemma NumericalHessian_matmat_counts_witness :
  (exists Y, fst (NumericalHessian_matmat two_probes (threepoint_probe, [])) = Ok Y) /\
  fst (snd (NumericalHessian_matmat two_probes (threepoint_probe, [])))
  = nh_set_calls (0 + 2) threepoint_probe.
Proof.
  split; [eexists; reflexivity |].
  eapply (proj2 (@NumericalHessian_matmat_counts R R_Scalar (list (vec R))
                   threepoint_probe [] two_probes)).
  reflexivity.
Defined.

(* ===================================================================== *)
(** * More of linalg.py: the projected operator from its construction *)
(* ===================================================================== *)

Section ProjectedMatrixFromInit.
Context {F : Type} {SF : Scalar F} {Op : Type}.
Variable op_dtype : Op -> dtype.
Variable op_dot : vec F -> M Op (vec F).

Lemma columns_empty_cols (n : nat) (t : dtype) : columns (empty_cols (F := F) n t) = [].
Proof. reflexivity. Qed.

Lemma well_shaped_empty_cols (n : nat) (t : dtype) :
  well_shaped (empty_cols (F := F) n t) /\ nrows (empty_cols (F := F) n t) = n.
Proof.
  unfold well_shaped, empty_cols, nrows, ncols. cbn.
  rewrite repeat_length. repeat split.
  apply Forall_forall. intros r Hr. apply repeat_spec in Hr. now subst.
Qed.

(** The constructor sets up what the applies rely on. *)
Lemma init_is_ok (A : Op) (Tm : ndarray F) :
  well_shaped Tm -> 0 < nrows Tm ->
  history_ok (ProjectedMatrix_init op_dtype A Tm) /\
  basis_ok (ProjectedMatrix_init op_dtype A Tm).
Proof.
  intros WT Hpos. unfold history_ok, basis_ok, ProjectedMatrix_init. cbn.
  destruct (well_shaped_empty_cols (nrows Tm) (op_dtype A)) as [We Ne].
  conjuncts; try assumption.
  unfold nrows, ncols. now destruct (ashape Tm).
Qed.

(** An apply in which the wrapped operator raises: the probe is already
    in [Vs], and stays there. *)
Lemma dot_operator_raises (v_m : vec F) (e : exn) (A' : Op)
      (pm : ProjectedMatrix F Op) :
  history_ok pm -> basis_ok pm ->
  length v_m = pm_dproj pm ->
  op_dot (lift_by (pm_Tm pm) v_m) (pm_A pm) = (Raise e, A') ->
  exists pm',
    ProjectedMatrix_dot op_dot v_m pm = (Raise e, pm') /\
    pm_A pm' = A' /\
    columns (pm_Vs pm') = columns (pm_Vs pm) ++ [lift_by (pm_Tm pm) v_m] /\
    pm_AVs pm' = pm_AVs pm /\ pm_Tm pm' = pm_Tm pm.
Proof.
  intros (WV & NV & WA & NA) (WT & ST & Hpos) Lv HA.
  assert (NT : nrows (pm_Tm pm) = pm_dtrue pm) by (unfold nrows; now rewrite ST).
  assert (CT : ncols (pm_Tm pm) = pm_dproj pm) by (unfold ncols; now rewrite ST).
  unfold ProjectedMatrix_dot, bind, get, lift, modify, call_A. cbn.
  unfold nd_dot_vec at 1. rewrite CT, Lv, Nat.eqb_refl. cbn.
  fold (lift_by (pm_Tm pm) v_m).
  assert (Ll : length (lift_by (pm_Tm pm) v_m) = pm_dtrue pm)
    by (rewrite length_lift_by; assumption).
  destruct (reshape_rows_vector (adtype (pm_Tm pm)) (lift_by (pm_Tm pm) v_m))
    as (vcol & Hr & Cv); [lia |].
  rewrite Ll in Hr. rewrite Hr. cbn.
  destruct (reshape_rows_shape _ _ _ Hr) as (Wc & Nc).
  destruct (hstack_columns WV Wc) as (Z & HZ & CZ & WZ & NZ); [congruence |].
  rewrite HZ. cbn. rewrite HA. cbn.
  eexists. split; [reflexivity |]. cbn. rewrite <- Cv.
  conjuncts; solve [assumption | reflexivity].
Qed.

(** An apply with a reduced vector of another length than the basis has
    columns is refused before anything is recorded. *)
Lemma dot_misfit (v_m : vec F) (pm : ProjectedMatrix F Op) :
  length v_m <> ncols (pm_Tm pm) ->
  ProjectedMatrix_dot op_dot v_m pm = (Raise ValueError, pm).
Proof.
  intros Hl. unfold ProjectedMatrix_dot, bind, get, lift. cbn.
  unfold nd_dot_vec. apply not_eq_sym, Nat.eqb_neq in Hl. rewrite Hl. reflexivity.
Qed.

End ProjectedMatrixFromInit.

(** X7. A projected operator as the constructor builds it, from a basis
    with the rows its shape says and at least one row: its shape is
    [(dproj, dproj)], its dtype that of the wrapped operator, and both
    histories have no column.  After a run of applies that return, with
    reduced vectors of length [dproj] and images of length [dtrue], the
    columns of [Vs] are exactly the probes [Tm @ v] and the columns of
    [AVs] exactly the images, in the order of the applies, one column for
    each apply. *)
Theorem ProjectedMatrix_init_history :
  forall (F : Type) (SF : Scalar F) (Op : Type) (op_dtype : Op -> dtype)
         (op_dot : vec F -> M Op (vec F)) (A : Op) (Tm : ndarray F),
    well_shaped Tm -> 0 < nrows Tm ->
    let pm := ProjectedMatrix_init op_dtype A Tm in
    pm_shape pm = (ncols Tm, ncols Tm) /\ pm_dtype pm = op_dtype A /\
    ashape (pm_Vs pm) = (nrows Tm, 0) /\ ashape (pm_AVs pm) = (nrows Tm, 0) /\
    columns (pm_Vs pm) = [] /\ columns (pm_AVs pm) = [] /\
    (forall (vs ws : list (vec F)) (A' : Op),
        Forall (fun v => length v = ncols Tm) vs ->
        op_run op_dot (map (lift_by Tm) vs) A = (Ok ws, A') ->
        Forall (fun w => length w = nrows Tm) ws ->
        exists pm',
          ProjectedMatrix_dots op_dot vs pm = (Ok (map (project_by Tm) ws), pm') /\
          columns (pm_Vs pm') = map (lift_by Tm) vs /\
          columns (pm_AVs pm') = ws /\
          ncols (pm_Vs pm') = length vs /\ ncols (pm_AVs pm') = length vs).
Proof.
  intros F SF Op op_dtype op_dot A Tm WT Hpos pm.
  destruct (init_is_ok op_dtype A WT Hpos) as [Hok Hb]. fold pm in Hok, Hb.
  conjuncts; try reflexivity.
  intros vs ws A' Hvs Hrun Hws.
  destruct (@dots_return F SF Op op_dot vs ws A' pm Hok Hb Hvs Hrun Hws)
    as (pm' & Hdots & _ & Hg).
  destruct Hg as (_ & _ & _ & _ & CV & CA & _).
  exists pm'. split; [exact Hdots |]. cbn in CV, CA.
  split; [exact CV |]. split; [exact CA |].
  rewrite <- !length_columns, CV, CA, length_map.
  split; [reflexivity |].
  clear - Hrun. revert A A' ws Hrun. induction vs as [|v vs IH]; intros A A' ws Hrun.
  - cbn in Hrun. injection Hrun as <- _. reflexivity.
  - cbn in Hrun. unfold bind in Hrun.
    destruct (op_dot (lift_by Tm v) A) as [[w|e] A1]; [| discriminate Hrun].
    destruct (op_run op_dot (map (lift_by Tm) vs) A1) as [[ws1|e] A2] eqn:HR;
      [| discriminate Hrun].
    cbn in Hrun. injection Hrun as <- _. cbn. f_equal. exact (IH A1 A2 ws1 HR).
Qed.

(** X7 at the projected stretch, applied once. *)
Lemma ProjectedMatrix_init_history_witness :
  exists pm',
    ProjectedMatrix_dots dense_dot [[1%R]] projected_stretch
    = (Ok (map (project_by first_axis)
               [[(2 * (1 * 1 + 0) + (0 * (0 * 1 + 0) + 0))%R;
                 (0 * (1 * 1 + 0) + (3 * (0 * 1 + 0) + 0))%R]]), pm') /\
    columns (pm_Vs pm') = map (lift_by first_axis) [[1%R]] /\
    columns (pm_AVs pm')
    = [[(2 * (1 * 1 + 0) + (0 * (0 * 1 + 0) + 0))%R;
        (0 * (1 * 1 + 0) + (3 * (0 * 1 + 0) + 0))%R]] /\
    ncols (pm_Vs pm') = 1 /\ ncols (pm_AVs pm') = 1.
Proof.
  exact (proj2 (proj2 (proj2 (proj2 (proj2 (proj2
           (@ProjectedMatrix_init_history R R_Scalar (ndarray R) (@adtype R) dense_dot
              stretch first_axis
              ltac:(split; [reflexivity | repeat constructor]) ltac:(cbn; lia)))))))
           [[1%R]]
           [[(2 * (1 * 1 + 0) + (0 * (0 * 1 + 0) + 0))%R;
             (0 * (1 * 1 + 0) + (3 * (0 * 1 + 0) + 0))%R]]
           stretch ltac:(repeat constructor) eq_refl ltac:(repeat constructor)).
Defined.

(** X8. Two ways an apply of the projected operator fails.  A reduced
    vector whose length is not the number of columns of the basis is
    refused with ValueError, and the operator is left as it was.  If the
    wrapped operator raises, the apply raises the same exception after the
    probe [Tm @ v] has been appended to [Vs]: [Vs] is then one column
    ahead of [AVs], which is unchanged. *)
Theorem ProjectedMatrix_dot_failures :
  forall (F : Type) (SF : Scalar F) (Op : Type) (op_dot : vec F -> M Op (vec F))
         (pm : ProjectedMatrix F Op) (v_m : vec F),
    history_ok pm -> basis_ok pm ->
    (length v_m <> pm_dproj pm ->
     ProjectedMatrix_dot op_dot v_m pm = (Raise ValueError, pm)) /\
    (forall (e : exn) (A' : Op),
        length v_m = pm_dproj pm ->
        op_dot (lift_by (pm_Tm pm) v_m) (pm_A pm) = (Raise e, A') ->
        exists pm',
          ProjectedMatrix_dot op_dot v_m pm = (Raise e, pm') /\
          columns (pm_Vs pm') = columns (pm_Vs pm) ++ [lift_by (pm_Tm pm) v_m] /\
          pm_AVs pm' = pm_AVs pm /\
          ncols (pm_Vs pm') = ncols (pm_Vs pm) + 1).
Proof.
  intros F SF Op op_dot pm v_m Hok Hb. split.
  - intros Hl. apply dot_misfit. destruct Hb as (_ & ST & _).
    unfold ncols. rewrite ST. exact Hl.
  - intros e A' Lv HA.
    destruct (@dot_operator_raises F SF Op op_dot v_m e A' pm Hok Hb Lv HA)
      as (pm' & Hdot & _ & CV & CA & _).
    exists pm'. split; [exact Hdot |]. split; [exact CV |]. split; [exact CA |].
    rewrite <- !length_columns, CV, length_app. reflexivity.
Qed.

(** A wrapped operator that refuses every vector. *)
Definition refusing_dot (v : vec R) : M (ndarray R) (vec R) :=
  fun A => (Raise ValueError, A).

(** X8 at the projected stretch: a vector of length two is refused, and
    with the refusing operator the probe stays behind in [Vs]. *)
Lemma ProjectedMatrix_dot_failures_witness :
  ProjectedMatrix_dot dense_dot [1%R; 1%R] projected_stretch
  = (Raise ValueError, projected_stretch) /\
  exists pm',
    ProjectedMatrix_dot refusing_dot [1%R] projected_stretch = (Raise ValueError, pm') /\
    columns (pm_Vs pm') = [] ++ [lift_by first_axis [1%R]] /\
    pm_AVs pm' = pm_AVs projected_stretch /\
    ncols (pm_Vs pm') = 0 + 1.
Proof.
  split.
  - exact (proj1 (@ProjectedMatrix_dot_failures R R_Scalar (ndarray R) dense_dot
                    projected_stretch [1%R; 1%R]
                    (proj1 projected_stretch_ok) (proj2 projected_stretch_ok))
                 ltac:(cbn; lia)).
  - exact (proj2 (@ProjectedMatrix_dot_failures R R_Scalar (ndarray R) refusing_dot
                    projected_stretch [1%R]
                    (proj1 projected_stretch_ok) (proj2 projected_stretch_ok))
                 ValueError stretch eq_refl eq_refl).
Defined.

(* ===================================================================== *)
(** * More of sella_old.py: the keys of the constraints *)
(* ===================================================================== *)

Section KeyFacts.

Lemma hd_rev (ix : indices) : hd 0 (rev ix) = last ix 0.
Proof.
  destruct ix as [|a l] using rev_ind; [reflexivity |].
  rewrite rev_app_distr, last_last. reflexivity.
Qed.

Lemma last_rev (ix : indices) : last (rev ix) 0 = hd 0 ix.
Proof.
  destruct ix as [|a l]; [reflexivity |]. cbn [rev hd]. apply last_last.
Qed.

(** On a tuple that is not empty the function compares the two ends. *)
Lemma sort_by_ends (ix : indices) :
  ix <> [] ->
  _sort_constr_indices ix = if hd 0 ix <? last ix 0 then ix else rev ix.
Proof. destruct ix as [|a l]; [contradiction | reflexivity]. Qed.

Lemma rev_not_nil (ix : indices) : ix <> [] -> rev ix <> [].
Proof.
  intros Hne Hr. apply Hne. rewrite <- (rev_involutive ix), Hr. reflexivity.
Qed.

End KeyFacts.

(** X9. [_sort_constr_indices] gives a tuple and its reverse the same
    key, when the tuple's two ends differ: the key is the one of the two
    whose first entry is below its last, and it is a fixed point of the
    function. *)
Theorem sort_constr_indices_canonical :
  forall ix : indices,
    ix <> [] -> hd 0 ix <> last ix 0 ->
    _sort_constr_indices (rev ix) = _sort_constr_indices ix /\
    (_sort_constr_indices ix = ix \/ _sort_constr_indices ix = rev ix) /\
    hd 0 (_sort_constr_indices ix) < last (_sort_constr_indices ix) 0 /\
    _sort_constr_indices (_sort_constr_indices ix) = _sort_constr_indices ix.
Proof.
  intros ix Hne Hends.
  rewrite (sort_by_ends (rev_not_nil Hne)), (sort_by_ends Hne).
  rewrite hd_rev, last_rev, rev_involutive.
  destruct (hd 0 ix <? last ix 0) eqn:Hlt.
  - apply Nat.ltb_lt in Hlt.
    assert (Hgt : (last ix 0 <? hd 0 ix) = false) by (apply Nat.ltb_ge; lia).
    rewrite Hgt. rewrite (sort_by_ends Hne).
    apply Nat.ltb_lt in Hlt. rewrite Hlt. apply Nat.ltb_lt in Hlt. auto.
  - apply Nat.ltb_ge in Hlt.
    assert (Hgt : (last ix 0 <? hd 0 ix) = true) by (apply Nat.ltb_lt; lia).
    rewrite Hgt. rewrite (sort_by_ends (rev_not_nil Hne)).
    rewrite hd_rev, last_rev, Hgt. apply Nat.ltb_lt in Hgt. auto.
Qed.

(** X9 at the dihedral [(3, 2, 1, 0)]. *)
Lemma sort_constr_indices_canonical_witness :
  _sort_constr_indices (rev [3; 2; 1; 0]) = _sort_constr_indices [3; 2; 1; 0] /\
  (_sort_constr_indices [3; 2; 1; 0] = [3; 2; 1; 0] \/
   _sort_constr_indices [3; 2; 1; 0] = rev [3; 2; 1; 0]) /\
  hd 0 (_sort_constr_indices [3; 2; 1; 0]) < last (_sort_constr_indices [3; 2; 1; 0]) 0 /\
  _sort_constr_indices (_sort_constr_indices [3; 2; 1; 0])
  = _sort_constr_indices [3; 2; 1; 0].
Proof.
  exact (@sort_constr_indices_canonical [3; 2; 1; 0]
           ltac:(discriminate) ltac:(cbn; lia)).
Defined.

Section DictFacts.
Context {F : Type} {SF : Scalar F} {GEO : Geometry F}.

Lemma indices_eqb_eq (a b : indices) : indices_eqb a b = true <-> a = b.
Proof.
  unfold indices_eqb. destruct (list_eq_dec Nat.eq_dec a b); split; congruence.
Qed.

Lemma indices_eqb_neq (a b : indices) : indices_eqb a b = false <-> a <> b.
Proof.
  unfold indices_eqb. destruct (list_eq_dec Nat.eq_dec a b); split; congruence.
Qed.

Lemma dict_get_set_same (d : targets F) (k : indices) (v : F) :
  dict_get (dict_set d k v) k = Ok v.
Proof.
  induction d as [|[k0 v0] d IH]; cbn.
  - now rewrite (proj2 (indices_eqb_eq k k) eq_refl).
  - destruct (indices_eqb k0 k) eqn:Hk; cbn; rewrite Hk; [reflexivity | exact IH].
Qed.

Lemma dict_get_set_other (d : targets F) (k k' : indices) (v : F) :
  k' <> k -> dict_get (dict_set d k v) k' = dict_get d k'.
Proof.
  intros Hne. induction d as [|[k0 v0] d IH]; cbn.
  - now rewrite (proj2 (indices_eqb_neq k k') (not_eq_sym Hne)).
  - destruct (indices_eqb k0 k) eqn:Hk; cbn.
    + apply indices_eqb_eq in Hk. subst k0.
      now rewrite (proj2 (indices_eqb_neq k k') (not_eq_sym Hne)).
    + destruct (indices_eqb k0 k'); [reflexivity | exact IH].
Qed.

(** Setting a key keeps the keys where they are, and adds a new one at
    the end. *)
Lemma dict_set_keys (d : targets F) (k : indices) (v : F) :
  (In k (map fst d) -> map fst (dict_set d k v) = map fst d) /\
  (~ In k (map fst d) -> map fst (dict_set d k v) = map fst d ++ [k]).
Proof.
  induction d as [|[k0 v0] d [IH1 IH2]]; cbn [dict_set map fst app].
  - split; [intros [] | reflexivity].
  - destruct (indices_eqb k0 k) eqn:Hk; cbn [map fst].
    + apply indices_eqb_eq in Hk. subst k0. split; [reflexivity |].
      intros Hout. exfalso. apply Hout. now left.
    + apply indices_eqb_neq in Hk. split.
      * intros [He|Hin]; [contradiction |]. now rewrite IH1.
      * intros Hout. rewrite IH2; [reflexivity |].
        intros Hin. apply Hout. now right.
Qed.

Lemma dict_set_NoDup (d : targets F) (k : indices) (v : F) :
  NoDup (map fst d) -> NoDup (map fst (dict_set d k v)).
Proof.
  intros Hd. destruct (dict_set_keys d k v) as [Hold Hnew].
  destruct (in_dec (list_eq_dec Nat.eq_dec) k (map fst d)) as [Hin|Hout].
  - rewrite Hold by exact Hin. exact Hd.
  - rewrite Hnew by exact Hout.
    apply NoDup_app; [exact Hd | repeat constructor; intros [] |].
    intros x Hx [<-|[]]. contradiction.
Qed.

Lemma dict_set_length (d : targets F) (k : indices) (v : F) :
  length d <= length (dict_set d k v) <= S (length d).
Proof.
  rewrite <- !(length_map fst). destruct (dict_set_keys d k v) as [Hold Hnew].
  destruct (in_dec (list_eq_dec Nat.eq_dec) k (map fst d)) as [Hin|Hout].
  - rewrite Hold by exact Hin. lia.
  - rewrite Hnew by exact Hout. rewrite length_app. cbn. lia.
Qed.

(** The key and the value an entry of the user's list stands for. *)
Definition entry_key (e : entry F) : indices :=
  _sort_constr_indices (match e with WithTarget _ ix => ix | Bare ix => ix end).
Definition entry_indices (e : entry F) : indices :=
  match e with WithTarget _ ix => ix | Bare ix => ix end.
Definition entry_value (measure : indices -> F) (e : entry F) : F :=
  match e with WithTarget t _ => t | Bare ix => measure ix end.

(** An entry the constructor reads as it is meant: given with its target,
    [(target, indices)], or bare with the [n] indices of its kind of
    constraint.  A bare entry of another length is taken apart otherwise
    by the code: two numbers meant as an angle are read as a target and
    an index, three meant as a bond cannot be unpacked. *)
Definition reads_as (n : nat) (e : entry F) : Prop :=
  match e with
  | WithTarget _ ix => ix <> []
  | Bare ix => length ix = n
  end.

Lemma add_entry_sets (measure : indices -> F) (d : targets F) (e : entry F) :
  add_entry measure d e = dict_set d (entry_key e) (entry_value measure e).
Proof. destruct e; reflexivity. Qed.

(** The loop that fills one of the dicts of the constructor. *)
Lemma entries_fold (measure : indices -> F) (es : list (entry F)) :
  forall d : targets F,
    NoDup (map fst d) ->
    let d' := fold_left (add_entry measure) es d in
    NoDup (map fst d') /\
    length d' <= length d + length es /\
    (forall k, In k (map fst d') <->
               In k (map fst d) \/ In k (map entry_key es)) /\
    (forall k, ~ In k (map entry_key es) -> dict_get d' k = dict_get d k).
Proof.
  induction es as [|e es IH]; intros d Hd; cbn.
  - split; [exact Hd |]. split; [lia |]. split; [| reflexivity].
    intros k. tauto.
  - rewrite add_entry_sets.
    destruct (IH (dict_set d (entry_key e) (entry_value measure e))
                 (dict_set_NoDup _ _ _ Hd)) as (Hn & Hl & Hk & Hg).
    cbn in Hn, Hl, Hk, Hg.
    pose proof (dict_set_length d (entry_key e) (entry_value measure e)) as Hs.
    split; [exact Hn |]. split; [lia |]. split.
    + intros k. rewrite Hk.
      destruct (dict_set_keys d (entry_key e) (entry_value measure e)) as [Hold Hnew].
      destruct (in_dec (list_eq_dec Nat.eq_dec) (entry_key e) (map fst d)) as [Hin|Hout].
      * rewrite Hold by exact Hin. split; [tauto |]. intros [H1|[<-|H3]]; tauto.
      * rewrite Hnew by exact Hout. rewrite in_app_iff. cbn. tauto.
    + intros k Hout. rewrite Hg by tauto.
      apply dict_get_set_other. intros ->. apply Hout. now left.
Qed.

(** The last entry for a key decides its value. *)
Lemma entries_last_wins (measure : indices -> F) (pre post : list (entry F))
      (e : entry F) (d : targets F) :
  ~ In (entry_key e) (map entry_key post) ->
  dict_get (fold_left (add_entry measure) (pre ++ e :: post) d) (entry_key e)
  = Ok (entry_value measure e).
Proof.
  intros Hout. rewrite fold_left_app. cbn [fold_left]. rewrite add_entry_sets.
  set (d1 := dict_set _ _ _).
  revert d1. generalize (fold_left (add_entry measure) pre d). intros d0 d1.
  assert (Hget : dict_get d1 (entry_key e) = Ok (entry_value measure e))
    by apply dict_get_set_same.
  clearbody d1. clear d0. revert d1 Hget.
  induction post as [|p post IH]; intros d1 Hget; [exact Hget |].
  cbn [fold_left]. apply IH.
  - intros Hin. apply Hout. now right.
  - rewrite add_entry_sets, dict_get_set_other; [exact Hget |].
    intros Heq. apply Hout. left. now symmetry.
Qed.

Lemma or_empty_if_any {A : Type} (l : list A) : or_empty (if_any l) = l.
Proof. destruct l; reflexivity. Qed.

End DictFacts.

(** X10. The constraint dicts the constructor builds from the user's
    lists, when each entry is given with its target and a non-empty index
    tuple, or bare with exactly two indices for a bond, three for an
    angle, four for a dihedral.  Each of the three dicts has one entry
    for each distinct key among the entries of its list, the key of an
    entry being its index tuple put in order by [_sort_constr_indices];
    [nconstr] is the number of these entries, at most the number of
    entries the user gave; and the value under a key is that of the last
    entry with that key: the target given with it, or else the value
    measured on the structure (in radians for angles and dihedrals). *)
Theorem MinModeAtoms_init_constraints :
  forall (F : Type) (SF : Scalar F) (GEO : Geometry F)
         (atoms : Atoms F) (calculator : Calculator F) (trajectory : bool)
         (uc : user_constraints F),
    Forall (reads_as 2) (or_empty (uc_bonds uc)) ->
    Forall (reads_as 3) (or_empty (uc_angles uc)) ->
    Forall (reads_as 4) (or_empty (uc_dihedrals uc)) ->
    let self := MinModeAtoms_init atoms calculator trajectory (Some uc) in
    exists cs,
      ma_constraints self = Some cs /\
      NoDup (map fst (or_empty (cs_bonds cs))) /\
      NoDup (map fst (or_empty (cs_angles cs))) /\
      NoDup (map fst (or_empty (cs_dihedrals cs))) /\
      ma_nconstr self = length (or_empty (cs_bonds cs)) +
                        length (or_empty (cs_angles cs)) +
                        length (or_empty (cs_dihedrals cs)) /\
      ma_nconstr self <= length (or_empty (uc_bonds uc)) +
                         length (or_empty (uc_angles uc)) +
                         length (or_empty (uc_dihedrals uc)) /\
      (forall k, (In k (map fst (or_empty (cs_bonds cs))) <->
                  In k (map entry_key (or_empty (uc_bonds uc)))) /\
                 (In k (map fst (or_empty (cs_angles cs))) <->
                  In k (map entry_key (or_empty (uc_angles uc)))) /\
                 (In k (map fst (or_empty (cs_dihedrals cs))) <->
                  In k (map entry_key (or_empty (uc_dihedrals uc))))) /\
      (forall pre e post,
          ~ In (entry_key e) (map entry_key post) ->
          (or_empty (uc_bonds uc) = pre ++ e :: post ->
           dict_get (or_empty (cs_bonds cs)) (entry_key e)
           = Ok (entry_value (get_distance atoms) e)) /\
          (or_empty (uc_angles uc) = pre ++ e :: post ->
           dict_get (or_empty (cs_angles cs)) (entry_key e)
           = Ok (entry_value (fun ix => deg_to_rad (get_angle atoms ix)) e)) /\
          (or_empty (uc_dihedrals uc) = pre ++ e :: post ->
           dict_get (or_empty (cs_dihedrals cs)) (entry_key e)
           = Ok (entry_value (fun ix => deg_to_rad (get_dihedral atoms ix)) e))).
Proof.
  intros F SF GEO atoms calculator trajectory uc _ _ _ self.
  unfold self, MinModeAtoms_init. cbn [ma_constraints ma_nconstr].
  eexists. split; [reflexivity |].
  cbn [cs_bonds cs_angles cs_dihedrals]. rewrite !or_empty_if_any.
  assert (Hnil : NoDup (map fst (@nil (indices * F)))) by constructor.
  destruct (entries_fold (get_distance atoms) (or_empty (uc_bonds uc)) [] Hnil)
    as (Nb & Lb & Kb & _).
  destruct (entries_fold (fun ix => deg_to_rad (get_angle atoms ix))
                         (or_empty (uc_angles uc)) [] Hnil) as (Na & La & Ka & _).
  destruct (entries_fold (fun ix => deg_to_rad (get_dihedral atoms ix))
                         (or_empty (uc_dihedrals uc)) [] Hnil) as (Nd & Ld & Kd & _).
  cbn [length map] in Lb, La, Ld, Kb, Ka, Kd.
  split; [exact Nb |]. split; [exact Na |]. split; [exact Nd |].
  split; [reflexivity |]. split; [lia |]. split.
  - intros k. rewrite Kb, Ka, Kd. cbn [In]. tauto.
  - intros pre e post Hout. repeat split; intros ->; now apply entries_last_wins.
Qed.

(** The chain with one bond given twice, once in each direction. *)
Definition twice_bonded : MinModeAtoms R :=
  MinModeAtoms_init (GEO := measured_geometry 0) chain spring false
                    (Some (mkUser None (Some [WithTarget 1%R [0; 1]; WithTarget 2%R [1; 0]])
                                  None None)).

(** X10 at the chain with the bond between its first two atoms given
    twice: one constraint, with the later target. *)
Lemma MinModeAtoms_init_constraints_witness :
  exists cs,
    ma_constraints twice_bonded = Some cs /\
    ma_nconstr twice_bonded = length (or_empty (cs_bonds cs)) +
                              length (or_empty (cs_angles cs)) +
                              length (or_empty (cs_dihedrals cs)) /\
    dict_get (or_empty (cs_bonds cs)) (entry_key (WithTarget 2%R [1; 0])) = Ok 2%R.
Proof.
  destruct (@MinModeAtoms_init_constraints R R_Scalar (measured_geometry 0)
              chain spring false
              (mkUser None (Some [WithTarget 1%R [0; 1]; WithTarget 2%R [1; 0]]) None None)
              ltac:(repeat constructor; discriminate)
              (Forall_nil _) (Forall_nil _))
    as (cs & Hcs & _ & _ & _ & Hn & _ & _ & Hlast).
  exists cs. split; [exact Hcs |]. split; [exact Hn |].
  exact (proj1 (Hlast [WithTarget 1%R [0; 1]] (WithTarget 2%R [1; 0]) []
                      (fun H : False => H)) eq_refl).
Defined.

(* ===================================================================== *)
(** * More of sella_old.py: what an evaluation does to the structure *)
(* ===================================================================== *)

Section EvaluationFacts.
Context {F : Type} {SF : Scalar F} {GEO : Geometry F}.

Lemma is_fixed_In (fixd : list nat) (i : nat) : is_fixed fixd i = true <-> In i fixd.
Proof.
  unfold is_fixed. rewrite existsb_exists. split.
  - intros (j & Hj & He). apply Nat.eqb_eq in He. now subst.
  - intros Hin. exists i. split; [exact Hin | apply Nat.eqb_refl].
Qed.

(** Distinct fixed atoms of the structure leave [N - len(fix)] free. *)
Lemma count_free (fixd : list nat) (N : nat) :
  NoDup fixd -> Forall (fun i => i < N) fixd ->
  length (free_of fixd (seq 0 N)) = N - length fixd /\ length fixd <= N.
Proof.
  intros Hnd Hin. unfold free_of.
  pose proof (filter_length (is_fixed fixd) (seq 0 N)) as Hsum.
  rewrite length_seq in Hsum.
  assert (Hfix : length (filter (is_fixed fixd) (seq 0 N)) = length fixd).
  { apply Nat.le_antisymm.
    - apply NoDup_incl_length; [apply NoDup_filter, seq_NoDup |].
      intros i Hi. apply filter_In in Hi. now apply is_fixed_In.
    - apply NoDup_incl_length; [exact Hnd |].
      intros i Hi. apply filter_In. split; [| now apply is_fixed_In].
      apply in_seq. rewrite Forall_forall in Hin. specialize (Hin i Hi). lia. }
  lia.
Qed.

(** [x.reshape((-1, 3))] returns exactly when the length is a multiple of
    three, and raises ValueError otherwise. *)
Lemma reshape3_inv (n : nat) :
  forall x : vec F,
    length x <= n ->
    match reshape3 x with
    | Ok xin => ravel3 xin = x /\ length x = 3 * length xin
    | Raise e => e = ValueError /\ forall k, length x <> 3 * k
    end.
Proof.
  induction n as [|n IH]; intros x Hl.
  - destruct x; [cbn; split; reflexivity | cbn in Hl; lia].
  - destruct x as [|a [|b [|c x]]]; cbn [reshape3].
    + split; reflexivity.
    + split; [reflexivity |]. intros k. cbn. lia.
    + split; [reflexivity |]. intros k. cbn. lia.
    + specialize (IH x). cbn in Hl.
      destruct (reshape3 x) as [t|e]; cbn [res_bind].
      * destruct IH as [Hr Hlen]; [lia |]. split.
        -- unfold ravel3 in *. cbn. now rewrite Hr.
        -- cbn [length]. lia.
      * destruct IH as [-> Hno]; [lia |]. split; [reflexivity |].
        intros k Hk. cbn in Hk. destruct k as [|k]; [lia |]. apply (Hno k). lia.
Qed.

Lemma skipn_repeat {A : Type} (a : A) (k m : nat) :
  skipn k (repeat a m) = repeat a (m - k).
Proof.
  revert m. induction k as [|k IH]; intros m.
  - now rewrite Nat.sub_0_r.
  - destruct m; [reflexivity | apply IH].
Qed.

(** The controller after an evaluation that returns: the positions are
    [pos], and the trajectory, if there is one, has them as a new frame. *)
Definition moved (pos : list (xyz F)) (self : MinModeAtoms F) : MinModeAtoms F :=
  mkMinModeAtoms (mkAtoms pos (calc (ma_atoms self))) (ma_x0 self) (ma_d self)
                 (ma_constraints self) (ma_nconstr self)
                 (option_map (fun t => t ++ [pos]) (ma_trajectory self)).

(** The evaluation when no atom is fixed. *)
Lemma eval_eg_free_path (x : vec F) (xin : list (xyz F)) (self : MinModeAtoms F) :
  fixed_atoms self = Ok None -> reshape3 x = Ok xin ->
  eval_eg x self
  = if length xin =? length (positions (ma_atoms self))
    then (Ok (get_potential_energy (calc (ma_atoms self)) xin,
              ravel3 (map neg3 (get_forces (calc (ma_atoms self)) xin))),
          moved xin self)
    else (Raise ValueError, self).
Proof.
  intros Hfa Hxin.
  unfold eval_eg, bind, lift, get, ret, set_positions, write_trajectory.
  rewrite Hxin. cbn. rewrite Hfa. cbn.
  destruct (length xin =? length (positions (ma_atoms self))); reflexivity.
Qed.

(** The evaluation with fixed atoms: all depends on the first loop. *)
Lemma eval_eg_fixed_path (x : vec F) (xin x0 : list (xyz F)) (fixd : list nat)
      (self : MinModeAtoms F) :
  fixed_atoms self = Ok (Some fixd) -> reshape3 x = Ok xin ->
  reshape3 (ma_x0 self) = Ok x0 ->
  (forall pos, length (get_forces (calc (ma_atoms self)) pos) = length pos) ->
  let ids := seq 0 (length (positions (ma_atoms self))) in
  match scatter fixd x0 xin ids 0 with
  | Ok pos =>
      eval_eg x self
      = (Ok (get_potential_energy (calc (ma_atoms self)) pos,
             ravel3 (free_rows fixd ids (map neg3 (get_forces (calc (ma_atoms self)) pos))
                     ++ repeat zero3 (length xin - length (free_of fixd ids)))),
         moved pos self) /\
      length pos = length (positions (ma_atoms self)) /\
      length (free_of fixd ids) <= length xin
  | Raise e => eval_eg x self = (Raise e, self)
  end.
Proof.
  intros Hfa Hxin Hr Hforces ids.
  unfold eval_eg, bind, lift, get, ret, set_positions, write_trajectory.
  rewrite Hxin. cbn. rewrite Hfa. cbn. rewrite Hr. cbn. fold ids.
  destruct (scatter fixd x0 xin ids 0) as [pos|e] eqn:Hs; cbn; [| reflexivity].
  destruct (scatter_rows _ _ _ _ _ Hs) as (L & _ & Hfree).
  assert (Lids : length ids = length (positions (ma_atoms self)))
    by (unfold ids; apply length_seq).
  assert (Hn : length (free_of fixd ids) <= length xin).
  { pose proof (length_free_rows fixd ids pos L) as Hl.
    rewrite Hfree, skipn_O, length_firstn in Hl. lia. }
  rewrite L, Lids, Nat.eqb_refl. cbn. fold ids.
  rewrite (@gather_rows F fixd _ ids
             (map neg3 (get_forces (calc (ma_atoms self)) pos))).
  - cbn. rewrite skipn_repeat.
    split; [reflexivity |]. split; [congruence | exact Hn].
  - unfold ids.
    replace (length (positions (ma_atoms self)))
      with (length (map neg3 (get_forces (calc (ma_atoms self)) pos)))
      by (rewrite length_map, Hforces; congruence).
    apply rows_by_index.
  - rewrite repeat_length. lia.
Qed.

(** The exceptions that [eval_eg] raises itself: ValueError from a
    reshape or from [set_positions], IndexError from its first loop,
    AttributeError where there is no dict of constraints. *)
Definition refusal (e : exn) : Prop :=
  e = ValueError \/ e = IndexError \/ e = AttributeError.

Lemma scatter_raises (fixd : list nat) (x0 xin : list (xyz F)) :
  forall (ids : list nat) (n : nat) (e : exn),
    scatter fixd x0 xin ids n = Raise e -> e = IndexError.
Proof.
  induction ids as [|i ids IH]; intros n e; cbn [scatter]; [discriminate |].
  destruct (is_fixed fixd i).
  - unfold row at 1. destruct (nth_error x0 i); cbn [res_bind]; [| congruence].
    destruct (scatter fixd x0 xin ids n) as [t|e0] eqn:Hs; cbn [res_bind];
      [discriminate |].
    intros Heq. injection Heq as <-. now apply (IH n).
  - unfold row at 1. destruct (nth_error xin n); cbn [res_bind]; [| congruence].
    destruct (scatter fixd x0 xin ids (S n)) as [t|e0] eqn:Hs; cbn [res_bind];
      [discriminate |].
    intros Heq. injection Heq as <-. now apply (IH (S n)).
Qed.

(** An evaluation refuses [x] and leaves the controller as it was, or
    returns the energy at the positions it has set. *)
Lemma eval_eg_cases (x : vec F) (self : MinModeAtoms F) :
  (forall pos, length (get_forces (calc (ma_atoms self)) pos) = length pos) ->
  (exists e, eval_eg x self = (Raise e, self) /\ refusal e) \/
  (exists pos g,
      eval_eg x self
      = (Ok (get_potential_energy (calc (ma_atoms self)) pos, g), moved pos self) /\
      length pos = length (positions (ma_atoms self))).
Proof.
  intros Hforces.
  pose proof (reshape3_inv (n := length x) x (le_n _)) as Hinv.
  destruct (reshape3 x) as [xin|e] eqn:Hxin.
  2:{ left. exists e. destruct Hinv as [-> _].
      split; [| now left]. unfold eval_eg, bind, lift. now rewrite Hxin. }
  clear Hinv.
  destruct (fixed_atoms self) as [[fixd|]|e] eqn:Hfa.
  - pose proof (reshape3_inv (n := length (ma_x0 self)) (ma_x0 self) (le_n _)) as Hinv.
    destruct (reshape3 (ma_x0 self)) as [x0|e] eqn:Hr.
    2:{ left. exists e. destruct Hinv as [-> _]. split; [| now left].
        unfold eval_eg, bind, lift, get. rewrite Hxin. cbn.
        rewrite Hfa. cbn. now rewrite Hr. }
    pose proof (@eval_eg_fixed_path x xin x0 fixd self Hfa Hxin Hr Hforces) as Hpath.
    cbn zeta in Hpath.
    destruct (scatter fixd x0 xin _ 0) as [pos|e] eqn:Hs.
    + right. destruct Hpath as (Hrun & L & _). do 2 eexists. split; [exact Hrun | exact L].
    + left. exists e. split; [exact Hpath |].
      rewrite (scatter_raises _ _ _ _ _ Hs). right. now left.
  - rewrite (@eval_eg_free_path x xin self Hfa Hxin).
    destruct (length xin =? length (positions (ma_atoms self))) eqn:Hl.
    + right. apply Nat.eqb_eq in Hl. do 2 eexists. split; [reflexivity | exact Hl].
    + left. exists ValueError. split; [reflexivity | now left].
  - left. exists e. split.
    + unfold eval_eg, bind, lift, get. rewrite Hxin. cbn. now rewrite Hfa.
    + unfold fixed_atoms in Hfa. destruct (ma_constraints self); [discriminate |].
      injection Hfa as <-. right. now right.
Qed.

(** The first loop stops with IndexError when [xin] runs out of rows. *)
Lemma scatter_short (fixd : list nat) (x0 xin : list (xyz F)) :
  forall (ids : list nat) (n : nat),
    (forall i, In i ids -> i < length x0) ->
    n <= length xin ->
    length xin < n + length (free_of fixd ids) ->
    scatter fixd x0 xin ids n = Raise IndexError.
Proof.
  induction ids as [|i ids IH]; intros n Hin Hn Hshort; [cbn in Hshort; lia |].
  cbn [scatter]. unfold free_of in Hshort. cbn [filter] in Hshort.
  destruct (is_fixed fixd i) eqn:Hi; cbn [negb length] in Hshort.
  - destruct (nth_error x0 i) as [p|] eqn:Hp.
    2:{ apply nth_error_None in Hp. specialize (Hin i (or_introl eq_refl)). lia. }
    rewrite (proj2 (row_Some x0 i p) Hp). cbn [res_bind].
    rewrite IH; [reflexivity | | exact Hn | exact Hshort].
    intros j Hj. apply Hin. now right.
  - unfold row at 1. destruct (nth_error xin n) as [p|] eqn:Hp; [| reflexivity].
    cbn [res_bind]. rewrite IH; [reflexivity | | |].
    + intros j Hj. apply Hin. now right.
    + change (n < length xin). apply nth_error_Some. congruence.
    + fold (free_of fixd ids) in Hshort. lia.
Qed.

End EvaluationFacts.

(** X11. [eval_eg] makes its own checks before it moves the structure.
    The calculator and the trajectory writer are taken to return, as they
    do in this embedding, the calculator with a force for each atom.
    Then, if [eval_eg] raises, it is one of its refusals of [x]
    (ValueError from a reshape or from [set_positions], IndexError from
    its first loop, AttributeError where there is no dict of
    constraints), and the controller and its structure are exactly as
    before; if it returns, the energy is that of the positions it has
    set, which are as many as before, the trajectory, if there is one,
    has these positions as one new last frame, and nothing else of the
    controller has changed. *)
Theorem eval_eg_all_or_nothing :
  forall (F : Type) (SF : Scalar F) (self : MinModeAtoms F) (x : vec F),
    (forall pos, length (get_forces (calc (ma_atoms self)) pos) = length pos) ->
    (forall e self',
        eval_eg x self = (Raise e, self') ->
        self' = self /\ (e = ValueError \/ e = IndexError \/ e = AttributeError)) /\
    (forall en g self',
        eval_eg x self = (Ok (en, g), self') ->
        exists pos,
          positions (ma_atoms self') = pos /\
          length pos = length (positions (ma_atoms self)) /\
          en = get_potential_energy (calc (ma_atoms self)) pos /\
          ma_trajectory self' = option_map (fun t => t ++ [pos]) (ma_trajectory self) /\
          calc (ma_atoms self') = calc (ma_atoms self) /\
          ma_x0 self' = ma_x0 self /\ ma_d self' = ma_d self /\
          ma_constraints self' = ma_constraints self /\
          ma_nconstr self' = ma_nconstr self).
Proof.
  intros F SF self x Hforces.
  destruct (eval_eg_cases x self Hforces) as [(e0 & Hr & Hkind)|(pos & g0 & Hr & L)];
    rewrite Hr; split.
  - intros e self' Heq. injection Heq as <- <-. split; [reflexivity | exact Hkind].
  - intros en g self' Heq. discriminate Heq.
  - intros e self' Heq. discriminate Heq.
  - intros en g self' Heq. injection Heq as <- _ <-.
    exists pos. cbn. repeat split. exact L.
Qed.

(** The two atoms with the first one fixed, and a trajectory. *)
Definition traced : MinModeAtoms R :=
  MinModeAtoms_init (GEO := no_internals) two_atoms spring true
                    (Some (mkUser (Some [0]) None None None)).

(** X11 at the traced controller: two numbers are refused, three are
    evaluated and the trajectory has its one frame. *)
Lemma eval_eg_all_or_nothing_witness :
  snd (eval_eg [3; 0]%R traced) = traced /\
  exists pos,
    positions (ma_atoms (snd (eval_eg [3; 0; 0]%R traced))) = pos /\
    length pos = 2 /\
    ma_trajectory (snd (eval_eg [3; 0; 0]%R traced))
    = Some ([] ++ [pos]).
Proof.
  split.
  { exact (proj1 (proj1 (@eval_eg_all_or_nothing R R_Scalar traced [3; 0]%R
                           (fun pos => length_map neg3 pos))
                        ValueError (snd (eval_eg [3; 0]%R traced)) eq_refl)). }
  destruct (proj2 (@eval_eg_all_or_nothing R R_Scalar traced [3; 0; 0]%R
                     (fun pos => length_map neg3 pos))
                  (get_potential_energy spring [(0, 0, 0); (3, 0, 0)]%R)
                  (ravel3 (free_rows [0] (seq 0 2)
                                     (map neg3 (get_forces spring [(0, 0, 0); (3, 0, 0)]%R))))
                  (snd (eval_eg [3; 0; 0]%R traced))
                  eq_refl)
    as (pos & Hpos & L & _ & Ht & _).
  exists pos. split; [exact Hpos |]. split; [exact L | exact Ht].
Defined.

(** X12. With no fixed atom in the constraints, [eval_eg] takes [x] as the
    positions of all atoms: for [x] of length [3 N] it sets the positions
    to the rows of [x] and returns the energy there and the negated forces,
    flattened; for any other length it raises ValueError and leaves the
    controller as it was. *)
Theorem eval_eg_without_fixed :
  forall (F : Type) (SF : Scalar F)
         (self : MinModeAtoms F) (cs : ConstraintSet F) (x : vec F),
    ma_constraints self = Some cs ->
    cs_fix cs = None \/ cs_fix cs = Some [] ->
    let N := length (positions (ma_atoms self)) in
    (length x = 3 * N ->
     exists pos,
       reshape3 x = Ok pos /\ ravel3 pos = x /\
       eval_eg x self
       = (Ok (get_potential_energy (calc (ma_atoms self)) pos,
              ravel3 (map neg3 (get_forces (calc (ma_atoms self)) pos))),
          moved pos self)) /\
    (length x <> 3 * N -> eval_eg x self = (Raise ValueError, self)).
Proof.
  intros F SF self cs x Hcs Hfix N.
  assert (Hfa : fixed_atoms self = Ok None).
  { unfold fixed_atoms. rewrite Hcs. now destruct Hfix as [-> | ->]. }
  pose proof (reshape3_inv (n := length x) x (le_n _)) as Hinv.
  destruct (reshape3 x) as [xin|e] eqn:Hxin.
  - destruct Hinv as [Hrav Hlen].
    rewrite (@eval_eg_free_path F SF x xin self Hfa Hxin). fold N. split.
    + intros Lx. exists xin. split; [reflexivity |]. split; [exact Hrav |].
      assert (Hl : length xin = N) by lia. now rewrite Hl, Nat.eqb_refl.
    + intros Lx. assert (Hl : length xin <> N) by lia.
      apply Nat.eqb_neq in Hl. now rewrite Hl.
  - destruct Hinv as [-> Hno]. split.
    + intros Lx. now destruct (Hno N).
    + intros _. unfold eval_eg, bind, lift. now rewrite Hxin.
Qed.

(** The two atoms with no constraint at all. *)
Definition unconstrained : MinModeAtoms R :=
  MinModeAtoms_init (GEO := no_internals) two_atoms spring false None.

(** X12 at the two unconstrained atoms: six coordinates are accepted,
    three are refused. *)
Lemma eval_eg_without_fixed_witness :
  (exists pos,
      reshape3 [1; 0; 0; 2; 0; 0]%R = Ok pos /\ ravel3 pos = [1; 0; 0; 2; 0; 0]%R /\
      eval_eg [1; 0; 0; 2; 0; 0]%R unconstrained
      = (Ok (get_potential_energy spring pos, ravel3 (map neg3 (get_forces spring pos))),
         moved pos unconstrained)) /\
  eval_eg [1; 0; 0]%R unconstrained
  = (Raise ValueError, unconstrained).
Proof.
  split.
  - exact (proj1 (@eval_eg_without_fixed R R_Scalar unconstrained
                    (mkConstraints None None None None) [1; 0; 0; 2; 0; 0]%R
                    eq_refl (or_introl eq_refl)) eq_refl).
  - exact (proj2 (@eval_eg_without_fixed R R_Scalar unconstrained
                    (mkConstraints None None None None) [1; 0; 0]%R
                    eq_refl (or_introl eq_refl)) ltac:(cbn; lia)).
Defined.

(** X13. For a ['fix'] list of distinct atoms of the structure, the
    dimension [d] the constructor computes, [3 (N - len(fix))], is three
    times the number of atoms [eval_eg] treats as free; and on a
    calculator that returns a force for each atom, an evaluation of the
    new controller at any [x] of length [d] returns a gradient of length
    [d]. *)
Theorem MinModeAtoms_d_is_gradient_length :
  forall (F : Type) (SF : Scalar F) (GEO : Geometry F)
         (atoms : Atoms F) (calculator : Calculator F) (trajectory : bool)
         (uc : user_constraints F) (fixd : list nat),
    uc_fix uc = Some fixd ->
    NoDup fixd -> Forall (fun i => i < length (positions atoms)) fixd ->
    (forall pos, length (get_forces calculator pos) = length pos) ->
    let N := length (positions atoms) in
    let self := MinModeAtoms_init atoms calculator trajectory (Some uc) in
    ma_d self = 3 * (N - length fixd) /\
    ma_d self = 3 * length (free_of fixd (seq 0 N)) /\
    (forall x, length x = ma_d self ->
               exists en g self',
                 eval_eg x self = (Ok (en, g), self') /\ length g = ma_d self).
Proof.
  intros F SF GEO atoms calculator trajectory uc fixd Hfix Hnd Hin Hforces N self.
  destruct (count_free Hnd Hin) as [Hfree Hle]. fold N in Hfree, Hle.
  assert (Hd : ma_d self = 3 * (N - length fixd)).
  { unfold self, MinModeAtoms_init. rewrite Hfix. cbn [ma_d or_empty]. fold N. lia. }
  split; [exact Hd |]. split; [rewrite Hd, Hfree; reflexivity |].
  intros x Lx. rewrite Hd in Lx.
  destruct fixd as [|i fixd'] eqn:Hfixd.
  - assert (Hfa : fixed_atoms self = Ok None).
    { unfold self, MinModeAtoms_init, fixed_atoms. rewrite Hfix. reflexivity. }
    cbn [length] in Lx. rewrite Nat.sub_0_r in Lx.
    destruct (reshape3_length N x Lx) as (xin & Hxin & Lxin & _).
    rewrite (@eval_eg_free_path F SF x xin self Hfa Hxin).
    assert (HN : length (positions (ma_atoms self)) = N).
    { unfold self, MinModeAtoms_init. rewrite Hfix. reflexivity. }
    rewrite HN, Lxin, Nat.eqb_refl. do 3 eexists. split; [reflexivity |].
    rewrite length_ravel3, length_map.
    assert (Hc : calc (ma_atoms self) = calculator).
    { unfold self, MinModeAtoms_init. rewrite Hfix. reflexivity. }
    rewrite Hc, Hforces, Lxin, Hd. cbn [length]. lia.
  - rewrite <- Hfixd in *.
    assert (Hne : fixd <> []) by (rewrite Hfixd; discriminate).
    destruct (init_holds_fixed atoms calculator trajectory uc Hfix Hne) as [Hh _].
    fold self in Hh.
    assert (Hc : calc (ma_atoms self) = calculator).
    { unfold self, MinModeAtoms_init. rewrite Hfix. reflexivity. }
    destruct (@eval_eg_returns F SF fixd (positions atoms) x self Hh) as
        (xin & pos & self' & Hxin & Hrun & Hpos & Lpos & _).
    + fold N. rewrite Hfree. exact Lx.
    + rewrite Hc. exact Hforces.
    + do 3 eexists. split; [exact Hrun |].
      rewrite length_ravel3, length_free_rows.
      * fold N. rewrite Hfree, Hd. reflexivity.
      * rewrite length_map, Hc, Hforces, length_seq. exact Lpos.
Qed.

(** X13 at the two atoms with the first one fixed. *)
Lemma MinModeAtoms_d_is_gradient_length_witness :
  ma_d first_atom_fixed = 3 * (2 - 1) /\
  exists en g self',
    eval_eg [3; 0; 0]%R first_atom_fixed = (Ok (en, g), self') /\
    length g = ma_d first_atom_fixed.
Proof.
  destruct (@MinModeAtoms_d_is_gradient_length R R_Scalar no_internals two_atoms spring
              false (mkUser (Some [0]) None None None) [0] eq_refl
              ltac:(repeat constructor; intros [])
              ltac:(repeat constructor)
              (fun pos => length_map neg3 pos))
    as (Hd & _ & Hrun).
  split; [exact Hd |]. exact (Hrun [3; 0; 0]%R eq_refl).
Defined.

(** With an atom named twice in the ['fix'] list, [d] counts it twice,
    while the evaluation still wants the one free atom's coordinates. *)
Lemma duplicate_fix_miscounts :
  let self := MinModeAtoms_init (GEO := no_internals) two_atoms spring false
                                (Some (mkUser (Some [0; 0]) None None None)) in
  ma_d self = 0 /\
  exists en g self', eval_eg [3; 0; 0]%R self = (Ok (en, g), self') /\ length g = 3.
Proof. cbn. split; [reflexivity |]. do 3 eexists. split; reflexivity. Qed.

(** X14. With fixed atoms, [eval_eg] does not check the length of [x]
    from above.  On a controller built with a non-empty ['fix'] list,
    after any run of evaluations, with [x] of [k] rows of three and
    [nfree] atoms not fixed: for [k < nfree] it raises IndexError and
    changes nothing; for [k >= nfree] it returns, the free atoms taking
    the first [nfree] rows of [x], the fixed ones their initial positions,
    and the gradient is the negated forces on the free atoms followed by
    [k - nfree] rows of zeros, as long as [x]. *)
Theorem eval_eg_fixed_length_of_x :
  forall (F : Type) (SF : Scalar F) (GEO : Geometry F)
         (atoms : Atoms F) (calculator : Calculator F) (trajectory : bool)
         (uc : user_constraints F) (fixd : list nat)
         (xs : list (vec F)) (x : vec F) (xin : list (xyz F)),
    uc_fix uc = Some fixd -> fixd <> [] ->
    (forall pos, length (get_forces calculator pos) = length pos) ->
    reshape3 x = Ok xin ->
    let ids := seq 0 (length (positions atoms)) in
    let nfree := length (free_of fixd ids) in
    let self := evaluations xs (MinModeAtoms_init atoms calculator trajectory (Some uc)) in
    (length xin < nfree -> eval_eg x self = (Raise IndexError, self)) /\
    (nfree <= length xin ->
     exists pos g,
       eval_eg x self = (Ok (get_potential_energy calculator pos, g), moved pos self) /\
       g = ravel3 (free_rows fixd ids (map neg3 (get_forces calculator pos))
                   ++ repeat zero3 (length xin - nfree)) /\
       length g = length x /\
       free_rows fixd ids pos = firstn nfree xin /\
       (forall i, i < length (positions atoms) -> is_fixed fixd i = true ->
                  nth_error pos i = nth_error (positions atoms) i)).
Proof.
  intros F SF GEO atoms calculator trajectory uc fixd xs x xin Hfix Hne Hforces Hxin
         ids nfree self.
  destruct (init_holds_fixed atoms calculator trajectory uc Hfix Hne) as [H0 _].
  pose proof (evaluations_hold_fixed xs H0) as Hh. fold self in Hh.
  destruct (evaluations_statics xs (MinModeAtoms_init atoms calculator trajectory (Some uc)))
    as [_ Hc]. fold self in Hc.
  assert (Hc0 : calc (ma_atoms self) = calculator).
  { rewrite Hc. unfold MinModeAtoms_init. rewrite Hfix. reflexivity. }
  pose proof (fixed_atoms_of Hh) as Hfa.
  pose proof Hh as (Hx0 & HN & _ & _ & _).
  assert (Hr : reshape3 (ma_x0 self) = Ok (positions atoms))
    by (rewrite Hx0; apply reshape3_ravel3).
  assert (Hf : forall pos, length (get_forces (calc (ma_atoms self)) pos) = length pos)
    by (rewrite Hc0; exact Hforces).
  pose proof (@eval_eg_fixed_path F SF x xin (positions atoms) fixd self Hfa Hxin Hr Hf)
    as Hpath.
  cbn zeta in Hpath. rewrite HN in Hpath. fold ids in Hpath. fold nfree in Hpath.
  rewrite Hc0 in Hpath.
  assert (Hids : forall i, In i ids -> i < length (positions atoms)).
  { intros i Hi. apply in_seq in Hi. lia. }
  split.
  - intros Hshort.
    rewrite (@scatter_short F fixd (positions atoms) xin ids 0 Hids (Nat.le_0_l _))
      in Hpath by (fold nfree; lia).
    exact Hpath.
  - intros Hlong.
    destruct (@scatter_runs F fixd (positions atoms) xin ids 0 Hids) as (pos & Hs);
      [fold nfree; lia |].
    rewrite Hs in Hpath. destruct Hpath as (Hrun & L & _).
    destruct (scatter_rows _ _ _ _ _ Hs) as (_ & Hk & Hfree).
    exists pos. eexists. split; [exact Hrun |]. split; [reflexivity |].
    split; [| split].
    + rewrite length_ravel3, length_app, repeat_length, length_free_rows.
      * fold nfree. pose proof (reshape3_inv (n := length x) x (le_n _)) as Hlen.
        rewrite Hxin in Hlen. destruct Hlen as [_ Hlen].
        rewrite Hlen. lia.
      * unfold ids. rewrite length_map, Hforces, length_seq. congruence.
    + rewrite Hfree, skipn_O. reflexivity.
    + intros i Hi Hfixed. apply Hk; [| exact Hfixed].
      unfold ids. rewrite nth_error_seq.
      destruct (Nat.ltb_spec i (length (positions atoms))); [reflexivity | lia].
Qed.

(** X14 at the two atoms with the first one fixed, handed the coordinates
    of both atoms: six numbers come back, the last three of them zero. *)
Lemma eval_eg_fixed_length_of_x_witness :
  exists pos g,
    eval_eg [3; 0; 0; 5; 0; 0]%R first_atom_fixed
    = (Ok (get_potential_energy spring pos, g), moved pos first_atom_fixed) /\
    g = ravel3 (free_rows [0] (seq 0 2) (map neg3 (get_forces spring pos))
                ++ repeat (0, 0, 0)%R (2 - 1)) /\
    length g = 6.
Proof.
  destruct (proj2 (@eval_eg_fixed_length_of_x R R_Scalar no_internals two_atoms spring
                     false (mkUser (Some [0]) None None None) [0] []
                     [3; 0; 0; 5; 0; 0]%R [(3, 0, 0); (5, 0, 0)]%R
                     eq_refl first_is_fixed (fun pos => length_map neg3 pos) eq_refl)
                  ltac:(cbn; lia))
    as (pos & g & Hrun & Hg & Lg & _).
  exists pos, g. split; [exact Hrun |]. split; [exact Hg | exact Lg].
Defined.

(* ===================================================================== *)
(** * More of sella_old.py: what the methods of MinMode leave alone *)
(* ===================================================================== *)

Section ControllerFrame.
Context {F : Type} {SF : Scalar F} {EX : Collaborators F} {W : Type}.

(** The attributes no method assigns after the constructor. *)
Definition statics_kept (a b : MinMode F W) : Prop :=
  mm_f b = mm_f a /\ mm_d b = mm_d a /\ mm_minmode b = mm_minmode a /\
  mm_shift_factor b = mm_shift_factor a /\ mm_v0 b = mm_v0 a /\
  mm_constraints b = mm_constraints a.

(** A method that, however it ends, has kept them. *)
Definition keeps {A : Type} (c : M (st F W) A) : Prop :=
  forall s, statics_kept (fst s) (fst (snd (c s))).

Lemma statics_kept_refl (a : MinMode F W) : statics_kept a a.
Proof. repeat split. Qed.

Lemma statics_kept_trans (a b c : MinMode F W) :
  statics_kept a b -> statics_kept b c -> statics_kept a c.
Proof. unfold statics_kept. intuition congruence. Qed.

Lemma keeps_ret {A : Type} (a : A) : keeps (ret a).
Proof. intros s. apply statics_kept_refl. Qed.

Lemma keeps_raise {A : Type} (e : exn) : keeps (raise (A := A) e).
Proof. intros s. apply statics_kept_refl. Qed.

Lemma keeps_lift {A : Type} (r : res A) : keeps (lift r).
Proof. intros s. apply statics_kept_refl. Qed.

Lemma keeps_not_none {A : Type} (e : exn) (o : option A) : keeps (not_none e o).
Proof. destruct o; [apply keeps_ret | apply keeps_raise]. Qed.

Lemma keeps_self : keeps self_.
Proof. intros s. apply statics_kept_refl. Qed.

Lemma keeps_bind {A B : Type} (c : M (st F W) A) (k : A -> M (st F W) B) :
  keeps c -> (forall a, keeps (k a)) -> keeps (bind c k).
Proof.
  intros Hc Hk s. unfold bind. specialize (Hc s).
  destruct (c s) as [[a|e] s1]; cbn in *; [| exact Hc].
  eapply statics_kept_trans; [exact Hc | apply Hk].
Qed.

Lemma keeps_update (g : MinMode F W -> MinMode F W) :
  (forall a, statics_kept a (g a)) -> keeps (update g).
Proof. intros Hg s. apply Hg. Qed.

Lemma keeps_call_f (x : vec F) : keeps (call_f x).
Proof.
  intros s. unfold call_f. destruct (mm_f (fst s) x (snd s)). apply statics_kept_refl.
Qed.

Lemma keeps_call_minmode (H : NumericalHessian F W) (maxres : F) (P T : ndarray F)
      (shift : F) :
  keeps (call_minmode H maxres P T shift).
Proof.
  intros s. unfold call_minmode.
  destruct (mm_minmode (fst s) maxres P T shift (H, snd s)) as [[out|e] [H' w]];
    apply statics_kept_refl.
Qed.

Lemma keeps_if {A : Type} (b : bool) (c1 c2 : M (st F W) A) :
  keeps c1 -> keeps c2 -> keeps (if b then c1 else c2).
Proof. destruct b; auto. Qed.

End ControllerFrame.

Create HintDb frame discriminated.
#[export] Hint Resolve keeps_ret keeps_raise keeps_lift keeps_not_none keeps_self
  keeps_call_f keeps_call_minmode statics_kept_refl : frame.

(** One step of the bookkeeping: a bind, an assignment to an attribute
    that is not static, a test. *)
Ltac frame_step :=
  match goal with
  | |- keeps (bind _ _) => apply keeps_bind; [| intros ?]
  | |- keeps (update _) => apply keeps_update; intros ?; repeat split
  | |- keeps (if _ then _ else _) => apply keeps_if
  | |- keeps (match ?o with Some _ => _ | None => _ end) => destruct o
  | |- keeps (match ?l with [] => _ | _ :: _ => _ end) => destruct l
  | |- keeps (let (_, _) := ?p in _) => destruct p
  | |- keeps _ => solve [auto with frame]
  end.

Section ControllerMethods.
Context {F : Type} {SF : Scalar F} {EX : Collaborators F} {W : Type}.

Lemma keeps_f_update (x : vec F) : keeps (f_update (W := W) x).
Proof. unfold f_update. repeat frame_step. Qed.

Lemma keeps_f_minmode (args : list (pyval F)) : keeps (f_minmode (W := W) args).
Proof.
  unfold f_minmode. repeat (frame_step || apply keeps_f_update).
Qed.

Lemma keeps_f_dimer (x0 : vec F) (args : list (pyval F)) :
  keeps (f_dimer (W := W) x0 args).
Proof.
  unfold f_dimer. repeat (frame_step || apply keeps_f_minmode).
Qed.

Lemma keeps_kick (step : vec F) (minmode : bool) : keeps (kick (W := W) step minmode).
Proof.
  unfold kick. repeat (frame_step || apply keeps_f_minmode || apply keeps_f_update).
Qed.

Lemma keeps_xpolate (alpha : F) : keeps (xpolate (W := W) alpha).
Proof. unfold xpolate. repeat frame_step. Qed.

Lemma keeps_dx (x : vec F) : keeps (dx (W := W) x).
Proof. unfold dx. repeat frame_step. Qed.

Lemma keeps_constr_res (x : vec F) : keeps (constr_res (W := W) x).
Proof. unfold constr_res. repeat frame_step. Qed.

(** A call of one of the methods of the class. *)
Inductive method : Type :=
| Call_dx (x : vec F)
| Call_kick (step : vec F) (minmode : bool)
| Call_f_update (x : vec F)
| Call_f_minmode (args : list (pyval F))
| Call_f_dimer (x0 : vec F) (args : list (pyval F))
| Call_xpolate (alpha : F)
| Call_constr_res (x : vec F).

(** The controller and the world after the call, whether it has returned
    or raised. *)
Definition invoke (m : method) (s : st F W) : st F W :=
  match m with
  | Call_dx x => snd (dx x s)
  | Call_kick step minmode => snd (kick step minmode s)
  | Call_f_update x => snd (f_update x s)
  | Call_f_minmode args => snd (f_minmode args s)
  | Call_f_dimer x0 args => snd (f_dimer x0 args s)
  | Call_xpolate alpha => snd (xpolate alpha s)
  | Call_constr_res x => snd (constr_res x s)
  end.

(** A run of calls, one after the other. *)
Definition session (ms : list method) (s : st F W) : st F W :=
  fold_left (fun s m => invoke m s) ms s.

Lemma invoke_keeps (m : method) (s : st F W) :
  statics_kept (fst s) (fst (invoke m s)).
Proof.
  destruct m; cbn [invoke];
    [ apply keeps_dx | apply keeps_kick | apply keeps_f_update | apply keeps_f_minmode
    | apply keeps_f_dimer | apply keeps_xpolate | apply keeps_constr_res ].
Qed.

Lemma session_keeps (ms : list method) :
  forall s : st F W, statics_kept (fst s) (fst (session ms s)).
Proof.
  induction ms as [|m ms IH]; intros s; [apply statics_kept_refl |].
  cbn. eapply statics_kept_trans; [apply invoke_keeps | apply IH].
Qed.

End ControllerMethods.

(** X15. Whatever methods of a generic controller are called after its
    construction, in whatever order and whether they return or raise,
    the potential, the dimension, the eigensolver, the shift factor and
    [v0] stay those given to the constructor, and [constraints] stays
    [None]: [constr_res] then returns the empty residual with its
    [0 x d] Jacobian and changes nothing, and its NotImplementedError
    cannot be reached. *)
Theorem MinMode_statics_never_change :
  forall (F : Type) (SF : Scalar F) (EX : Collaborators F) (W : Type)
         (f : vec F -> M W (F * vec F)) (d : nat) (minmode : eigensolver F W)
         (H0 : option (ndarray F)) (v0 : option (vec F)) (trshift trshift_factor : F)
         (w : W) (ms : list (method (F := F))) (x : vec F),
    let s := session ms (MinMode_init f d minmode H0 v0 trshift trshift_factor, w) in
    mm_f (fst s) = f /\ mm_d (fst s) = d /\ mm_minmode (fst s) = minmode /\
    mm_shift_factor (fst s) = trshift_factor /\ mm_v0 (fst s) = v0 /\
    mm_constraints (fst s) = None /\
    constr_res x s = (Ok ([], mkArr float64 (0, d) []), s).
Proof.
  intros F SF EX W f d minmode H0 v0 trshift trshift_factor w ms x s.
  destruct (session_keeps ms (MinMode_init f d minmode H0 v0 trshift trshift_factor, w))
    as (Hf & Hd & Hm & Hs & Hv & Hc).
  fold s in Hf, Hd, Hm, Hs, Hv, Hc. cbn in Hf, Hd, Hm, Hs, Hv, Hc.
  repeat split; try assumption.
  unfold constr_res, bind, self_, ret. cbn. rewrite Hc, Hd. reflexivity.
Qed.

(* ===================================================================== *)
(** * More of sella_old.py: an evaluation that fails *)
(* ===================================================================== *)

Section FailedEvaluation.
Context {F : Type} {SF : Scalar F} {EX : Collaborators F} {W : Type}.

(** What a failed evaluation has left alone: the cache, the eigenvalues
    and eigenvectors, the shift.  The model Hessian is not among them: it
    is assigned before [eigh] is called on it. *)
Definition cache_kept (a b : MinMode F W) : Prop :=
  mm_flast b = mm_flast a /\ mm_xlast b = mm_xlast a /\ mm_xlast2 b = mm_xlast2 a /\
  mm_glast b = mm_glast a /\ mm_lams b = mm_lams a /\
  mm_vecs b = mm_vecs a /\ mm_shift b = mm_shift a.

(** The counter goes up before the potential is called. *)
Lemma f_update_counts (self : MinMode F W) (w : W) (x : vec F) :
  mm_calls (fst (snd (f_update x (self, w))))
  = mm_calls self + (if is_last self x then 0 else 1).
Proof.
  destruct self.
  unfold f_update, bind, self_, ret, update, modify, call_f, lift, not_none, raise.
  cbn. destruct (is_last _ x); [cbn; lia |].
  run_method; reflexivity.
Qed.

(** The cache is written last, after everything that can raise. *)
Lemma f_update_raise_keeps_cache (self : MinMode F W) (w : W) (x : vec F) (e : exn) :
  fst (f_update x (self, w)) = Raise e ->
  cache_kept self (fst (snd (f_update x (self, w)))).
Proof.
  destruct self.
  unfold f_update, bind, self_, ret, update, modify, call_f, lift, not_none, raise,
    cache_kept.
  run_method; intros Heq; try discriminate Heq; repeat split.
Qed.

(** The world is what the potential has made of it. *)
Lemma f_update_world (self : MinMode F W) (w : W) (x : vec F) :
  snd (snd (f_update x (self, w)))
  = if is_last self x then w else snd (mm_f self x w).
Proof.
  destruct self.
  unfold f_update, bind, self_, ret, update, modify, call_f, lift, not_none, raise.
  cbn. destruct (is_last _ x); [reflexivity |].
  run_method; reflexivity.
Qed.

(** With a value cached and no model Hessian, a new position cannot be
    evaluated: the call raises before it comes to the Hessian update. *)
Lemma f_update_needs_model (self : MinMode F W) (w : W) (x : vec F) (fl : F) :
  mm_flast self = Some fl -> mm_H self = None -> is_last self x = false ->
  (exists e, fst (f_update x (self, w)) = Raise e) /\
  mm_H (fst (snd (f_update x (self, w)))) = None.
Proof.
  intros Hfl HH Hnew.
  unfold f_update, bind, self_, ret, update, modify, call_f, lift, not_none, raise.
  cbn. rewrite Hnew, Hfl, HH.
  run_method; (split; [eexists; reflexivity | assumption || reflexivity]).
Qed.

(** The first evaluation of a new controller does not touch the model. *)
Lemma f_update_first_keeps_model (self self1 : MinMode F W) (w w1 : W) (x : vec F)
      (r : option F * option (vec F)) :
  mm_xlast self = None ->
  f_update x (self, w) = (Ok r, (self1, w1)) ->
  mm_H self1 = mm_H self /\ mm_xlast self1 = Some x /\ mm_xlast2 self1 = None /\
  exists f, mm_flast self1 = Some f.
Proof.
  intros Hx.
  unfold f_update, bind, self_, ret, update, modify, call_f, lift, not_none, raise,
    is_last.
  cbn. rewrite Hx.
  run_method; intros Heq; try discriminate Heq; injection Heq as <- <- <-; cbn;
    repeat split; try assumption; eexists; reflexivity.
Qed.

End FailedEvaluation.

(** X16. [f_update] counts the evaluation before it calls the potential:
    for [x] of the length of the cached position, [calls] goes up by one
    whenever [x] is not that position, also when the potential or the
    bookkeeping after it raises.  And when [f_update] raises, the cached
    position, value and gradient, the previous position, the eigenvalues
    and eigenvectors, and the shift are as they were.  (Nothing is said
    of [H] there: it is assigned before [eigh] is called on it.) *)
Theorem f_update_counts_attempts :
  forall (F : Type) (SF : Scalar F) (EX : Collaborators F) (W : Type)
         (self : MinMode F W) (w : W) (x : vec F),
    (forall xl, mm_xlast self = Some xl -> length xl = length x) ->
    let out := f_update x (self, w) in
    let self' := fst (snd out) in
    mm_calls self' = mm_calls self + (if is_last self x then 0 else 1) /\
    (forall e, fst out = Raise e ->
               mm_flast self' = mm_flast self /\ mm_xlast self' = mm_xlast self /\
               mm_xlast2 self' = mm_xlast2 self /\ mm_glast self' = mm_glast self /\
               mm_lams self' = mm_lams self /\
               mm_vecs self' = mm_vecs self /\ mm_shift self' = mm_shift self).
Proof.
  intros F SF EX W self w x _ out self'. split.
  - apply f_update_counts.
  - intros e He. exact (f_update_raise_keeps_cache self w x He).
Qed.

(** A potential that refuses every position. *)
Definition refusing_potential : vec R -> M (list (vec R)) (R * vec R) :=
  fun x log => (Raise ValueError, log ++ [x]).

Definition refused_controller : MinMode R (list (vec R)) :=
  MinMode_init (EX := diagonal_model) refusing_potential 1 idle_solver
               None None 1000%R 4%R.

(** X16 at a potential that raises: the call is counted, nothing is
    cached. *)
Lemma f_update_counts_attempts_witness :
  mm_calls (fst (snd (f_update (EX := diagonal_model) [1%R] (refused_controller, []))))
  = 0 + 1 /\
  mm_xlast (fst (snd (f_update (EX := diagonal_model) [1%R] (refused_controller, []))))
  = None.
Proof.
  destruct (@f_update_counts_attempts R R_Scalar diagonal_model (list (vec R))
              refused_controller [] [1%R]
              ltac:(intros xl Hxl; discriminate Hxl)) as [Hc Hr].
  split; [exact Hc |].
  destruct (Hr ValueError eq_refl) as (_ & Hx & _). exact Hx.
Defined.

(** X17. A controller constructed without [H0] can be evaluated at one
    position only, as long as [f_minmode] has not given it a Hessian:
    once an evaluation has returned, [f_update] at every other position
    of the same length raises, on its way through the predicted change
    of the value.  The potential has been called all the same and the
    call is counted; the cache still holds the first position, and there
    is still no Hessian. *)
Theorem f_update_without_model_raises :
  forall (F : Type) (SF : Scalar F) (EX : Collaborators F) (W : Type)
         (f : vec F -> M W (F * vec F)) (d : nat) (minmode : eigensolver F W)
         (v0 : option (vec F)) (trshift trshift_factor : F)
         (w w1 : W) (x1 x2 : vec F) (r : option F * option (vec F))
         (self1 : MinMode F W),
    f_update x1 (MinMode_init f d minmode None v0 trshift trshift_factor, w)
    = (Ok r, (self1, w1)) ->
    length x2 = length x1 ->
    np_all_eq x2 x1 = false ->
    exists e self2,
      f_update x2 (self1, w1) = (Raise e, (self2, snd (f x2 w1))) /\
      mm_calls self2 = 2 /\
      mm_xlast self2 = Some x1 /\ mm_flast self2 = fst r /\ mm_glast self2 = snd r /\
      mm_H self2 = None.
Proof.
  intros F SF EX W f d minmode v0 trshift trshift_factor w w1 x1 x2 r self1 Hrun
         _ Hnew.
  set (self0 := MinMode_init f d minmode None v0 trshift trshift_factor) in *.
  assert (Hmiss : is_last self0 x1 = false) by reflexivity.
  destruct (f_update_returns self0 w x1 Hmiss Hrun) as (Hx & Hf & Hg & Hc).
  destruct (f_update_first_keeps_model self0 w x1 eq_refl Hrun)
    as (HH & _ & _ & fl & Hfl).
  pose proof (keeps_f_update x1 (self0, w)) as Hpot.
  rewrite Hrun in Hpot. destruct Hpot as (Hpot & _). cbn in Hpot.
  assert (Hnew1 : is_last self1 x2 = false) by (unfold is_last; now rewrite Hx).
  change (mm_H self0) with (@None (ndarray F)) in HH.
  destruct (f_update_needs_model self1 w1 x2 Hfl HH Hnew1) as ((e & He) & HH2).
  pose proof (f_update_counts self1 w1 x2) as Hcount.
  pose proof (f_update_world self1 w1 x2) as Hworld.
  pose proof (f_update_raise_keeps_cache self1 w1 x2 He) as Hkept.
  rewrite Hnew1 in Hcount, Hworld. rewrite Hpot in Hworld.
  destruct (f_update x2 (self1, w1)) as [out [self2 w2]].
  cbn in He, Hcount, Hworld, Hkept, HH2. subst out w2.
  destruct Hkept as (Kf & Kx & _ & Kg & _).
  exists e, self2. split; [reflexivity |].
  split; [rewrite Hcount, Hc; reflexivity |].
  repeat split; congruence.
Qed.

(** X17 on the line: the fresh controller, evaluated at 0 and then
    at 1. *)
Lemma f_update_without_model_raises_witness :
  exists e self2,
    f_update (EX := diagonal_model) [1%R]
             (snd (f_update (EX := diagonal_model) [0%R] (fresh_controller, [])))
    = (Raise e, (self2, [[0%R]; [1%R]])) /\
    mm_calls self2 = 2 /\ mm_xlast self2 = Some [0%R] /\ mm_H self2 = None.
Proof.
  destruct (@f_update_without_model_raises R R_Scalar diagonal_model (list (vec R))
              (watched quadratic) 1 idle_solver None 1000%R 4%R
              [] [[0%R]] [0%R] [1%R] (Some ((0 * 0 + 0) / 2)%R, Some [0%R])
              (fst (snd (f_update (EX := diagonal_model) [0%R] (fresh_controller, []))))
              eq_refl eq_refl one_is_not_zero_position)
    as (e & self2 & Hrun & Hc & Hx & _ & _ & HH).
  exists e, self2. split; [exact Hrun |]. split; [exact Hc |]. split; assumption.
Defined.

(* ===================================================================== *)
(** * More of sella_old.py: the decomposition kept with the Hessian *)
(* ===================================================================== *)

Section EigenCache.
Context {F : Type} {SF : Scalar F} {EX : Collaborators F} {W : Type}.

(** [lams, vecs] are [eigh(H)], or all three are [None]. *)
Definition in_sync (self : MinMode F W) : Prop :=
  mm_lams self = option_map (fun H => fst (eigh H)) (mm_H self) /\
  mm_vecs self = option_map (fun H => snd (eigh H)) (mm_H self).

(** What a method has established when it returns. *)
Definition establishes {A : Type} (Q : MinMode F W -> Prop) (c : M (st F W) A) : Prop :=
  forall s r s', c s = (Ok r, s') -> Q (fst s').

(** It is the last statements of a method that decide. *)
Lemma establishes_bind {A B : Type} (Q : MinMode F W -> Prop)
      (c : M (st F W) A) (k : A -> M (st F W) B) :
  (forall a, establishes Q (k a)) -> establishes Q (bind c k).
Proof.
  intros Hk s r s'. unfold bind.
  destruct (c s) as [[a|e] s1]; [apply Hk | discriminate].
Qed.

(** An evaluation that returns has either left the Hessian and its
    decomposition alone or assigned all three. *)
Lemma f_update_in_sync (self self' : MinMode F W) (w w' : W) (x : vec F)
      (r : option F * option (vec F)) :
  in_sync self -> f_update x (self, w) = (Ok r, (self', w')) -> in_sync self'.
Proof.
  destruct self. unfold in_sync. cbn. intros [Hl Hv].
  unfold f_update, bind, self_, ret, update, modify, call_f, lift, not_none, raise.
  run_method; intros Heq; try discriminate Heq; injection Heq as _ <- _; cbn;
    split; assumption || reflexivity.
Qed.

(** After a search that returns: a Hessian, its decomposition, and the
    shift taken from its last eigenvalue. *)
Definition searched (self : MinMode F W) : Prop :=
  in_sync self /\
  exists H lam rest,
    mm_H self = Some H /\ rev (fst (eigh H)) = lam :: rest /\
    mm_shift self = Fmul (mm_shift_factor self) lam.

Lemma f_minmode_searched (args : list (pyval F)) :
  establishes searched (f_minmode (W := W) args).
Proof.
  unfold f_minmode.
  do 12 (apply establishes_bind; intros;
         repeat match goal with
                | |- establishes _ (let (_, _) := ?p in _) => destruct p
                end).
  intros [self w] r [self' w'].
  unfold bind, self_, update, modify, ret, raise. cbn.
  destruct (rev (fst (eigh (update_H (mm_H self) (Columns _) (Columns _)))))
    as [|lam rest] eqn:Hrev; cbn; [discriminate |].
  intros Heq. injection Heq as _ <- _. unfold searched, in_sync. cbn.
  split; [split; reflexivity |].
  do 3 eexists. split; [reflexivity |]. split; [exact Hrev | reflexivity].
Qed.

(** An evaluation at a new position moves the last position to the one
    before it. *)
Lemma f_update_shifts_positions (self self1 : MinMode F W) (w w1 : W) (x : vec F)
      (r : option F * option (vec F)) :
  is_last self x = false ->
  f_update x (self, w) = (Ok r, (self1, w1)) ->
  mm_xlast2 self1 = mm_xlast self /\ mm_xlast self1 = Some x.
Proof.
  intros Hmiss. unfold f_update, bind, self_, ret, update, modify, call_f, lift,
    not_none, raise. cbn. rewrite Hmiss.
  run_method; intros Heq; try discriminate Heq;
    injection Heq as <- <- <-; cbn; auto.
Qed.

End EigenCache.

(** X18. The eigenvalues and eigenvectors a generic controller keeps are
    those of its model Hessian: [lams, vecs = eigh(H)], or all three are
    [None].  The controller the constructor returns is so, every
    [f_update] that returns keeps it so, and every [f_minmode] that
    returns leaves it so, with a Hessian present and [shift] set to
    [shift_factor] times the last of its eigenvalues.  (A call that
    raises can leave [H] ahead of its decomposition: [H] is assigned
    before [eigh] is called.) *)
Theorem eigen_cache_in_sync :
  forall (F : Type) (SF : Scalar F) (EX : Collaborators F) (W : Type),
    (forall (f : vec F -> M W (F * vec F)) (d : nat) (minmode : eigensolver F W)
            (H0 : option (ndarray F)) (v0 : option (vec F)) (trshift trshift_factor : F),
        in_sync (MinMode_init f d minmode H0 v0 trshift trshift_factor)) /\
    (forall (self self' : MinMode F W) (w w' : W) (x : vec F)
            (r : option F * option (vec F)),
        in_sync self -> f_update x (self, w) = (Ok r, (self', w')) -> in_sync self') /\
    (forall (self self' : MinMode F W) (w w' : W) (args : list (pyval F))
            (r : option F * option (vec F)),
        f_minmode args (self, w) = (Ok r, (self', w')) ->
        in_sync self' /\
        exists H lam rest,
          mm_H self' = Some H /\ rev (fst (eigh H)) = lam :: rest /\
          mm_shift self' = Fmul (mm_shift_factor self) lam).
Proof.
  intros F SF EX W. split; [| split].
  - intros f d minmode H0 v0 trshift trshift_factor. split; reflexivity.
  - intros self self' w w' x r. apply f_update_in_sync.
  - intros self self' w w' args r Hrun.
    destruct (f_minmode_searched args _ Hrun) as (Hs & H & lam & rest & HH & Hrev & Hshift).
    split; [exact Hs |]. exists H, lam, rest. split; [exact HH |]. split; [exact Hrev |].
    pose proof (keeps_f_minmode args (self, w)) as Hk. rewrite Hrun in Hk.
    destruct Hk as (_ & _ & _ & Hsf & _). cbn in Hsf, Hshift. congruence.
Qed.

(** An eigensolver that makes no probe and reports one mode, of
    curvature 2. *)
Definition one_mode_solver : eigensolver R (list (vec R)) :=
  fun _ _ T _ s => (Ok ([2%R], T, T), s).

(** A controller on the line with that solver, and no Hessian yet. *)
Definition searching_controller : MinMode R (list (vec R)) :=
  MinMode_init (EX := diagonal_model) (watched quadratic) 1 one_mode_solver
               None None 1000%R 4%R.

(** X18 on the line: the stiff controller after an evaluation, and the
    searching one after its search, from the position 1. *)
Lemma eigen_cache_in_sync_witness :
  in_sync (EX := diagonal_model)
          (fst (snd (f_update (EX := diagonal_model) [1%R] (stiff_controller, [])))) /\
  in_sync (EX := diagonal_model)
          (fst (snd (f_minmode (EX := diagonal_model) [PyArr [1%R]]
                               (searching_controller, [])))).
Proof.
  destruct (@eigen_cache_in_sync R R_Scalar diagonal_model (list (vec R)))
    as (Hinit & Hupd & Hsearch).
  split.
  - exact (Hupd stiff_controller
                (fst (snd (f_update (EX := diagonal_model) [1%R] (stiff_controller, []))))
                []
                (snd (snd (f_update (EX := diagonal_model) [1%R] (stiff_controller, []))))
                [1%R] (Some ((1 * 1 + 0) / 2)%R, Some [1%R])
                (Hinit (watched quadratic) 1 idle_solver
                       (Some (mkArr float64 (1, 1) [[4%R]])) None 1000%R 4%R)
                eq_refl).
  - exact (proj1 (Hsearch searching_controller
                    (fst (snd (f_minmode (EX := diagonal_model) [PyArr [1%R]]
                                         (searching_controller, []))))
                    []
                    (snd (snd (f_minmode (EX := diagonal_model) [PyArr [1%R]]
                                         (searching_controller, []))))
                    [PyArr [1%R]] (Some ((1 * 1 + 0) / 2)%R, Some [1%R]) eq_refl)).
Defined.

(** X19. [xpolate] works on the last two positions evaluated.  After an
    [f_update] that has returned from a new position [x]: if it was the
    first evaluation, [xpolate] raises TypeError; if the position before
    was [xl], of the length of [x], [xpolate(alpha)] returns
    [xl + alpha (x - xl)].  Either way it changes nothing. *)
Theorem xpolate_after_f_update :
  forall (F : Type) (SF : Scalar F) (EX : Collaborators F) (W : Type)
         (self self1 : MinMode F W) (w w1 : W) (x : vec F)
         (r : option F * option (vec F)) (alpha : F),
    is_last self x = false ->
    f_update x (self, w) = (Ok r, (self1, w1)) ->
    (mm_xlast self = None ->
     xpolate alpha (self1, w1) = (Raise TypeError, (self1, w1))) /\
    (forall xl, mm_xlast self = Some xl -> length xl = length x ->
                xpolate alpha (self1, w1)
                = (Ok (zip_with Fadd xl (map (Fmul alpha) (zip_with Fsub x xl))),
                   (self1, w1))).
Proof.
  intros F SF EX W self self1 w w1 x r alpha Hmiss Hrun.
  destruct (f_update_shifts_positions self w x Hmiss Hrun) as [H2 H1].
  unfold xpolate, bind, self_, not_none, ret, raise, lift. cbn. rewrite H2, H1.
  split.
  - intros ->. reflexivity.
  - intros xl -> Lx. cbn. unfold vsub, vadd, scale.
    rewrite (broadcast_same_length Fsub x xl) by congruence. cbn.
    rewrite (broadcast_same_length Fadd xl) by
        (rewrite length_map, length_zip_with; congruence).
    reflexivity.
Qed.

Lemma second_step_returns :
  f_update (EX := diagonal_model) [1%R] (fst after_first_step, snd after_first_step)
  = (Ok (Some ((1 * 1 + 0) / 2)%R, Some [1%R]),
     (fst after_second_step, snd after_second_step)).
Proof.
  change (fst after_first_step, snd after_first_step) with after_first_step.
  unfold after_second_step.
  destruct (f_update [1%R] after_first_step) as [o [s w]] eqn:E. cbn [fst snd].
  f_equal. apply (f_equal fst) in E. cbn [fst] in E. rewrite <- E.
  unfold after_first_step. cbn.
  destruct (Req_dec_T 1 0) as [E0|_]; [exfalso; lra | reflexivity].
Qed.

(** X19 on the line: the stiff controller, evaluated at 0 and then at 1. *)
Lemma xpolate_after_f_update_witness :
  xpolate 2%R (fst after_second_step, snd after_second_step)
  = (Ok [(0 + 2 * (1 - 0))%R], (fst after_second_step, snd after_second_step)).
Proof.
  exact (proj2 (@xpolate_after_f_update R R_Scalar diagonal_model (list (vec R))
                  (fst after_first_step) (fst after_second_step)
                  (snd after_first_step) (snd after_second_step) [1%R]
                  (Some ((1 * 1 + 0) / 2)%R, Some [1%R]) 2%R
                  one_is_not_zero_position second_step_returns)
               [0%R] eq_refl eq_refl).
Defined.

(* ===================================================================== *)
(** * More of sella_old.py: the residual of the constraints *)
(* ===================================================================== *)

Section ResidualLoops.
Context {F : Type} {SF : Scalar F} {GEO : Geometry F}.








(** [res_constr] reads the controller and writes nothing. *)
Lemma res_constr_pure (x : vec F) (self : MinModeAtoms F) :
  snd (res_constr x self) = self.
Proof.
  unfold res_constr, bind, lift, get, ret, not_none, raise.
  destruct (reshape3 x); cbn; [| reflexivity].
  destruct (ma_constraints self); cbn; [| reflexivity].
  destruct (scatter_flat _ _ _ _ _); cbn; [| reflexivity].
  destruct (subtract_targets _ _ _ 0) as [[r1 n1]|e]; cbn; [| reflexivity].
  destruct (subtract_targets _ _ r1 n1) as [[r2 n2]|e]; cbn; [| reflexivity].
  destruct (wrap_dihedrals _ _ _ _); cbn; [| reflexivity].
  destruct (free_columns _ _ _ _); reflexivity.
Qed.

End ResidualLoops.




(* ===================================================================== *)
(** * More of sella_old.py: the Jacobian of the free atoms *)
(* ===================================================================== *)

Section JacobianFacts.
Context {F : Type} {SF : Scalar F}.

Lemma length_concat_uniform (w : nat) (X : list (vec F)) :
  Forall (fun r => length r = w) X -> length (concat X) = length X * w.
Proof.
  induction 1 as [|r X Hr HX IH]; [reflexivity |].
  cbn. rewrite length_app, IH, Hr. reflexivity.
Qed.

(** Cutting the concatenation of rows of one width at that width gives
    the rows back. *)
Lemma blocks_of_concat (w : nat) (X : list (vec F)) :
  Forall (fun r => length r = w) X ->
  map (fun i => firstn w (skipn (i * w) (concat X))) (seq 0 (length X)) = X.
Proof.
  induction 1 as [|r X Hr HX IH]; [reflexivity |].
  cbn [length seq map concat]. f_equal.
  - cbn [Nat.mul skipn]. rewrite firstn_app, Hr, Nat.sub_diag, firstn_O, app_nil_r.
    rewrite <- Hr. apply firstn_all.
  - rewrite (map_seq_offset _ 1).
    transitivity (map (fun i => firstn w (skipn (i * w) (concat X))) (seq 0 (length X)));
      [| exact IH].
    apply map_ext. intros i. f_equal.
    rewrite skipn_app, Hr, skipn_all2 by lia. cbn [app]. f_equal. lia.
Qed.

(** [a.reshape(-1, w)] of rows of width [w] laid end to end. *)
Lemma reshape_width_concat (w : nat) (t : dtype) (X : list (vec F)) :
  0 < w -> Forall (fun r => length r = w) X ->
  reshape_width w t (concat X) = Ok (mkArr t (length X, w) X).
Proof.
  intros Hw HX. unfold reshape_width.
  destruct (Nat.eqb_spec w 0) as [E|_]; [lia |].
  rewrite (length_concat_uniform HX), Nat.Div0.mod_mul. cbn [Nat.eqb negb].
  rewrite Nat.div_mul by lia. now rewrite (blocks_of_concat HX).
Qed.

(** The columns of the free atoms, cut out of one row of the Jacobian. *)
Definition free_block (unfix : list nat) (b : vec F) : vec F :=
  flat_map (fun i => firstn 3 (skipn (3 * i) b)) unfix.

Lemma length_free_block (N : nat) (unfix : list nat) (b : vec F) :
  length b = 3 * N -> Forall (fun i => i < N) unfix ->
  length (free_block unfix b) = 3 * length unfix.
Proof.
  intros Hb. induction 1 as [|i unfix Hi Hrest IH]; [reflexivity |].
  unfold free_block in *. cbn [flat_map length].
  rewrite length_app, IH, length_firstn, length_skipn. lia.
Qed.

(** Column [3 k + c] of the cut is column [3 i + c] of the row, for the
    [k]-th free atom [i]. *)
Lemma nth_free_block (N : nat) (b : vec F) :
  length b = 3 * N ->
  forall (unfix : list nat) (k i c : nat),
    Forall (fun i => i < N) unfix ->
    nth_error unfix k = Some i -> c < 3 ->
    nth (3 * k + c) (free_block unfix b) F0 = nth (3 * i + c) b F0.
Proof.
  intros Hb. induction unfix as [|i0 unfix IH]; intros [|k] i c Hall Hk Hc;
    cbn in Hk; try discriminate.
  - injection Hk as ->. unfold free_block. cbn [flat_map].
    apply Forall_cons_iff in Hall as [Hi _].
    rewrite Nat.mul_0_r, Nat.add_0_l, app_nth1
      by (rewrite length_firstn, length_skipn; lia).
    rewrite nth_firstn. destruct (Nat.ltb_spec c 3); [| lia]. apply nth_skipn.
  - apply Forall_cons_iff in Hall as [Hi0 Hall].
    unfold free_block. cbn [flat_map].
    assert (L : length (firstn 3 (skipn (3 * i0) b)) = 3)
      by (rewrite length_firstn, length_skipn; lia).
    replace (3 * S k + c) with (length (firstn 3 (skipn (3 * i0) b)) + (3 * k + c))
      by lia.
    rewrite app_nth2_plus. now apply IH.
Qed.

Lemma free_columns_runs (N d : nat) (unfix : list nat) (drdx : ndarray F) :
  well_shaped drdx -> ncols drdx = 3 * N ->
  Forall (fun i => i < N) unfix ->
  0 < N -> 0 < d -> d = 3 * length unfix ->
  free_columns N d unfix drdx
  = Ok (mkArr (adtype drdx) (nrows drdx, d) (map (free_block unfix) (rows drdx))).
Proof.
  intros [Hn Hc] Hcols Hall HN Hd Hdim. unfold free_columns.
  rewrite Hcols in Hc.
  rewrite (reshape_width_concat (adtype drdx) (X := rows drdx)) by (lia || exact Hc).
  cbn [res_bind rows]. fold (free_block unfix).
  rewrite (reshape_width_concat (adtype drdx) (w := d)).
  - rewrite length_map. unfold free_block. do 3 f_equal. exact Hn.
  - exact Hd.
  - apply Forall_map. eapply Forall_impl; [| exact Hc].
    intros b Hb. change (length (free_block unfix b) = d).
    rewrite (length_free_block b Hb Hall). lia.
Qed.

(** With no degree of freedom left there is nothing to reshape to. *)
Lemma free_columns_nothing_free (N : nat) (unfix : list nat) (drdx : ndarray F) :
  free_columns N 0 unfix drdx = Raise ValueError.
Proof.
  unfold free_columns.
  destruct (reshape_width (3 * N) (adtype drdx) (concat (rows drdx))) as [blocks|e] eqn:E.
  - reflexivity.
  - cbn [res_bind]. unfold reshape_width in E.
    destruct (3 * N =? 0); [congruence |].
    destruct (negb _); congruence.
Qed.

End JacobianFacts.

(** X21. The last line of [res_constr] keeps, of each row of the
    Jacobian, the three columns of every free atom, in the order of the
    atoms.  For a Jacobian of [3 N] columns and the free atoms [unfix],
    all below [N]: with [d = 3 len(unfix) > 0] the result has the dtype
    and the rows of the Jacobian, [d] columns, and its column [3 k + c]
    is column [3 i + c] of the Jacobian, [i] being the [k]-th free atom;
    with [d = 0] the reshape raises ValueError. *)
Theorem free_columns_keeps_free_blocks :
  forall (F : Type) (SF : Scalar F) (N d : nat) (unfix : list nat) (drdx : ndarray F),
    well_shaped drdx -> ncols drdx = 3 * N ->
    Forall (fun i => i < N) unfix ->
    (d = 0 -> free_columns N d unfix drdx = Raise ValueError) /\
    (0 < d -> d = 3 * length unfix ->
     exists J,
       free_columns N d unfix drdx = Ok J /\
       adtype J = adtype drdx /\ ashape J = (nrows drdx, d) /\ well_shaped J /\
       forall j b, nth_error (rows drdx) j = Some b ->
                   exists b', nth_error (rows J) j = Some b' /\
                              forall k i c, nth_error unfix k = Some i -> c < 3 ->
                                            nth (3 * k + c) b' F0 = nth (3 * i + c) b F0).
Proof.
  intros F SF N d unfix drdx Hws Hcols Hall. split.
  - intros ->. apply free_columns_nothing_free.
  - intros Hd Hdim.
    assert (HN : 0 < N).
    { destruct unfix as [|i unfix]; [cbn in Hdim; lia |].
      apply Forall_cons_iff in Hall as [Hi _]. lia. }
    eexists. split; [apply (free_columns_runs Hws Hcols Hall HN Hd Hdim) |].
    destruct Hws as [Hn Hc]. rewrite Hcols in Hc.
    split; [reflexivity |]. split; [reflexivity |]. split.
    + split; cbn; [now rewrite length_map |].
      apply Forall_map. eapply Forall_impl; [| exact Hc].
      intros b Hb. change (length (free_block unfix b) = d).
      rewrite (length_free_block b Hb Hall). lia.
    + intros j b Hj. exists (free_block unfix b). cbn [rows].
      split; [now rewrite nth_error_map, Hj |].
      intros k i c Hk Hc3. apply (nth_free_block (N := N)); try assumption.
      rewrite Forall_forall in Hc. apply Hc. eapply nth_error_In. exact Hj.
Qed.

(** X21 at a Jacobian of one row for two atoms, the first of them fixed. *)
Lemma free_columns_keeps_free_blocks_witness :
  exists J,
    free_columns 2 3 [1] (mkArr float64 (1, 6) [[1; 2; 3; 4; 5; 6]%R]) = Ok J /\
    ashape J = (1, 3) /\
    exists b', nth_error (rows J) 0 = Some b' /\
               nth (3 * 0 + 2) b' 0%R = nth (3 * 1 + 2) [1; 2; 3; 4; 5; 6]%R 0%R.
Proof.
  destruct (proj2 (@free_columns_keeps_free_blocks R R_Scalar 2 3 [1]
                     (mkArr float64 (1, 6) [[1; 2; 3; 4; 5; 6]%R])
                     ltac:(split; repeat constructor) eq_refl
                     ltac:(repeat constructor))
                  ltac:(lia) eq_refl)
    as (J & Hrun & _ & Hshape & _ & Hrows).
  exists J. split; [exact Hrun |]. split; [exact Hshape |].
  destruct (Hrows 0 [1; 2; 3; 4; 5; 6]%R eq_refl) as (b' & Hb & Hcol).
  exists b'. split; [exact Hb |]. exact (Hcol 0 1 2 eq_refl ltac:(lia)).
Defined.

(** X22. [res_constr] is a query: whatever [x] is and however it ends,
    the controller is as before.  And on a controller whose ['fix'] list
    names as many atoms as the structure has, so that [d = 0], it raises
    for every [x], also after any run of evaluations. *)
Theorem res_constr_is_a_query :
  forall (F : Type) (SF : Scalar F) (GEO : Geometry F),
    (forall (self : MinModeAtoms F) (x : vec F), snd (res_constr x self) = self) /\
    (forall (atoms : Atoms F) (calculator : Calculator F) (trajectory : bool)
            (uc : user_constraints F) (fixd : list nat) (xs : list (vec F)) (x : vec F),
        uc_fix uc = Some fixd -> length fixd = length (positions atoms) ->
        let self := evaluations xs (MinModeAtoms_init atoms calculator trajectory (Some uc)) in
        exists e, res_constr x self = (Raise e, self)).
Proof.
  intros F SF GEO. split; [intros self x; apply res_constr_pure |].
  intros atoms calculator trajectory uc fixd xs x Hfix Hlen self.
  pose proof (res_constr_pure x self) as Hpure.
  assert (Hd : ma_d self = 0).
  { unfold self.
    rewrite (proj1 (evaluations_statics xs
                      (MinModeAtoms_init atoms calculator trajectory (Some uc)))).
    unfold MinModeAtoms_init. rewrite Hfix. cbn [ma_d or_empty]. lia. }
  destruct (res_constr x self) as [[out|e] self'] eqn:Hrun; cbn in Hpure; subst self'.
  - exfalso. revert Hrun.
    unfold res_constr, bind, lift, get, ret, not_none, raise.
    destruct (reshape3 x); cbn; [| discriminate].
    destruct (ma_constraints self); cbn; [| discriminate].
    destruct (scatter_flat _ _ _ _ _); cbn; [| discriminate].
    destruct (subtract_targets _ _ _ 0) as [[r1 n1]|e]; cbn; [| discriminate].
    destruct (subtract_targets _ _ r1 n1) as [[r2 n2]|e]; cbn; [| discriminate].
    destruct (wrap_dihedrals _ _ _ _); cbn; [| discriminate].
    rewrite Hd, free_columns_nothing_free. discriminate.
  - exists e. reflexivity.
Qed.

(** The two atoms, both of them fixed. *)
Definition both_fixed : MinModeAtoms R :=
  MinModeAtoms_init (GEO := no_internals) two_atoms spring false
                    (Some (mkUser (Some [0; 1]) None None None)).

(** X22 at the two atoms, both fixed. *)
Lemma res_constr_is_a_query_witness :
  exists e, res_constr (GEO := no_internals) [] both_fixed = (Raise e, both_fixed).
Proof.
  exact (proj2 (@res_constr_is_a_query R R_Scalar no_internals)
               two_atoms spring false (mkUser (Some [0; 1]) None None None) [0; 1] [] []
               eq_refl eq_refl).
Defined.

(* ===================================================================== *)
(** * More of sella_old.py: MinModeAtoms.f_update *)
(* ===================================================================== *)

Section MinModeAtomsUpdate.
Context {F : Type} {SF : Scalar F} {EX : Collaborators F}.
Local Open Scope py_scope.

(** An object of the subclass: the attributes of [MinMode], and with them
    those that [MinModeAtoms] adds, which are all the potential of such a
    controller can reach. *)
Definition atoms_st : Type := st F (MinModeAtoms F).

(** [self.eval_eg(x)] *)
Definition call_eval_eg (x : vec F) : M atoms_st (F * vec F) :=
  fun s => let (r, a) := eval_eg x (snd s) in (r, (fst s, a)).

(** [MinModeAtoms.f_update]: the method of the subclass, which calls
    [self.eval_eg] where the inherited one calls [self.f]. *)
Definition MinModeAtoms_f_update (x : vec F)
  : M atoms_st (option F * option (vec F)) :=
  self <- self_ ;;
  if is_last self x then ret (mm_flast self, mm_glast self)
  else
    update (fun s => set_calls (mm_calls s + 1) s) ;;
    '(f, g) <- call_eval_eg x ;;
    (match mm_flast self with
     | Some fl =>
         update (set_df (Some (Fsub f fl))) ;;
         xl <- not_none TypeError (mm_xlast self) ;;
         dx <- lift (vsub x xl) ;;
         gl <- not_none AttributeError (mm_glast self) ;;
         lin <- lift (inner gl dx) ;;
         H <- not_none TypeError (mm_H self) ;;
         dxH <- lift (vec_dot_nd dx H) ;;
         quad <- lift (inner dxH dx) ;;
         let df_pred := Fadd lin (Fdiv quad (Fdec 2 0)) in
         update (set_df_pred (Some df_pred)) ;;
         update (set_ratio (Some (Fdiv df_pred (Fsub f fl))))
     | None => ret tt
     end) ;;
    (match mm_xlast self, mm_glast self with
     | Some xl, Some gl =>
         dx <- lift (vsub x xl) ;;
         dg <- lift (vsub g gl) ;;
         let H' := update_H (mm_H self) (OneVec dx) (OneVec dg) in
         update (set_H (Some H')) ;;
         update (set_lams (Some (fst (eigh H')))) ;;
         update (set_vecs (Some (snd (eigh H'))))
     | _, _ => ret tt
     end) ;;
    update (set_flast (Some f)) ;;
    update (set_xlast2 (mm_xlast self)) ;;
    update (set_xlast (Some x)) ;;
    update (set_glast (Some g)) ;;
    ret (Some f, Some g).

(** With [self.f] bound to [self.eval_eg], as the constructor binds it,
    the method of the subclass is the inherited one. *)
Lemma MinModeAtoms_f_update_inherited (self : MinMode F (MinModeAtoms F))
      (a : MinModeAtoms F) (x : vec F) :
  mm_f self = eval_eg ->
  MinModeAtoms_f_update x (self, a) = f_update x (self, a).
Proof.
  destruct self as [f d m H fl x2 xl gl sh sf c df dfp ra v0 cs la ve].
  cbn [mm_f]. intros ->.
  unfold MinModeAtoms_f_update, f_update, call_eval_eg, call_f, bind, self_, update,
    modify.
  cbn [fst snd mm_f set_calls].
  destruct (is_last _ x); [reflexivity |].
  destruct (eval_eg x a) as [[[f g]|e] a1]; reflexivity.
Qed.

Lemma MinModeAtoms_f_update_hit (self : MinMode F (MinModeAtoms F))
      (a : MinModeAtoms F) (x : vec F) :
  is_last self x = true ->
  MinModeAtoms_f_update x (self, a) = (Ok (mm_flast self, mm_glast self), (self, a)).
Proof.
  intros Hhit. unfold MinModeAtoms_f_update, bind, self_, ret. cbn. rewrite Hhit.
  reflexivity.
Qed.

Lemma MinModeAtoms_f_update_counts (self : MinMode F (MinModeAtoms F))
      (a : MinModeAtoms F) (x : vec F) :
  mm_calls (fst (snd (MinModeAtoms_f_update x (self, a))))
  = mm_calls self + (if is_last self x then 0 else 1).
Proof.
  destruct self.
  unfold MinModeAtoms_f_update, bind, self_, ret, update, modify, call_eval_eg, lift,
    not_none, raise.
  cbn. destruct (is_last _ x); [cbn; lia |].
  run_method; reflexivity.
Qed.

(** The structure is what the evaluation has made of it. *)
Lemma MinModeAtoms_f_update_structure (self : MinMode F (MinModeAtoms F))
      (a : MinModeAtoms F) (x : vec F) :
  snd (snd (MinModeAtoms_f_update x (self, a)))
  = if is_last self x then a else snd (eval_eg x a).
Proof.
  destruct self.
  unfold MinModeAtoms_f_update, bind, self_, ret, update, modify, call_eval_eg, lift,
    not_none, raise.
  cbn. destruct (is_last _ x); [reflexivity |].
  run_method; reflexivity.
Qed.

(** What is returned from a new position is what [eval_eg] returned. *)
Lemma MinModeAtoms_f_update_value (self : MinMode F (MinModeAtoms F))
      (a : MinModeAtoms F) (x : vec F) (r : option F * option (vec F)) :
  is_last self x = false ->
  fst (MinModeAtoms_f_update x (self, a)) = Ok r ->
  exists f g, fst (eval_eg x a) = Ok (f, g) /\ r = (Some f, Some g).
Proof.
  intros Hmiss. destruct self.
  unfold MinModeAtoms_f_update, bind, self_, ret, update, modify, call_eval_eg, lift,
    not_none, raise.
  cbn -[eval_eg]. rewrite Hmiss. cbn [fst snd].
  destruct (eval_eg x a) as [[[f g]|e] a1]; cbn; [| discriminate].
  run_method; intros Heq; try discriminate Heq; injection Heq as <-;
    exists f, g; split; reflexivity.
Qed.

(** An evaluation that raises is not caught. *)
Lemma MinModeAtoms_f_update_raise (self : MinMode F (MinModeAtoms F))
      (a : MinModeAtoms F) (x : vec F) (e : exn) :
  is_last self x = false ->
  fst (eval_eg x a) = Raise e ->
  fst (MinModeAtoms_f_update x (self, a)) = Raise e.
Proof.
  intros Hmiss. destruct self.
  unfold MinModeAtoms_f_update, bind, self_, ret, update, modify, call_eval_eg, lift,
    not_none, raise.
  cbn -[eval_eg]. rewrite Hmiss. cbn [fst snd].
  destruct (eval_eg x a) as [[[f g]|e0] a1]; cbn; [discriminate |].
  intros Heq. now injection Heq as ->.
Qed.

End MinModeAtomsUpdate.

(** X23. [MinModeAtoms.f_update] and the structure, for [x] of the length
    of the cached position.  With [self.f] bound to [self.eval_eg], as
    the constructor binds it, the method is the one inherited from
    [MinMode].  At the cached position it returns the cache and touches
    neither the structure nor the trajectory.  At a new position it
    counts the call and leaves the structure as [eval_eg] has left it,
    whatever happens to the bookkeeping afterwards: an exception of
    [eval_eg] is passed on, and where [eval_eg] has returned the
    structure is at the positions evaluated, which are one new frame of
    the trajectory, and the value returned, if the call returns, is the
    energy at these positions with the gradient [eval_eg] gave. *)
Theorem MinModeAtoms_f_update_frames :
  forall (F : Type) (SF : Scalar F) (EX : Collaborators F)
         (self : MinMode F (MinModeAtoms F)) (a : MinModeAtoms F) (x : vec F),
    (forall xl, mm_xlast self = Some xl -> length xl = length x) ->
    (forall pos, length (get_forces (calc (ma_atoms a)) pos) = length pos) ->
    let out := MinModeAtoms_f_update x (self, a) in
    (mm_f self = eval_eg -> out = f_update x (self, a)) /\
    (is_last self x = true ->
     out = (Ok (mm_flast self, mm_glast self), (self, a))) /\
    (is_last self x = false ->
     mm_calls (fst (snd out)) = mm_calls self + 1 /\
     snd (snd out) = snd (eval_eg x a) /\
     (forall e, fst (eval_eg x a) = Raise e -> fst out = Raise e) /\
     (forall en g a1,
         eval_eg x a = (Ok (en, g), a1) ->
         exists pos,
           a1 = moved pos a /\
           length pos = length (positions (ma_atoms a)) /\
           en = get_potential_energy (calc (ma_atoms a)) pos /\
           forall r, fst out = Ok r -> r = (Some en, Some g))).
Proof.
  intros F SF EX self a x _ Hforces out. split; [| split].
  - intros Hf. now apply MinModeAtoms_f_update_inherited.
  - intros Hhit. now apply MinModeAtoms_f_update_hit.
  - intros Hmiss.
    pose proof (MinModeAtoms_f_update_counts self a x) as Hc.
    pose proof (MinModeAtoms_f_update_structure self a x) as Hs.
    rewrite Hmiss in Hc, Hs. fold out in Hc, Hs.
    split; [exact Hc |]. split; [exact Hs |]. split.
    + intros e He. now apply MinModeAtoms_f_update_raise.
    + intros en g a1 Hev.
      destruct (eval_eg_cases x a Hforces) as [(e & He & _)|(pos & g0 & He & L)];
        rewrite He in Hev; [discriminate Hev |].
      injection Hev as <- <- <-.
      exists pos. split; [reflexivity |]. split; [exact L |]. split; [reflexivity |].
      intros r Hout.
      destruct (MinModeAtoms_f_update_value self a x Hmiss Hout) as (f0 & g1 & Hv & ->).
      rewrite He in Hv. cbn in Hv. now injection Hv as <- <-.
Qed.

(** The controller of the two traced atoms, on the structure itself. *)
Definition traced_controller : MinMode R (MinModeAtoms R) :=
  MinMode_init (EX := diagonal_model) eval_eg 3
               (fun _ _ T _ s => (Ok ([], T, T), s)) None None 1000%R 4%R.

(** X23 at the two traced atoms: the first call writes the first frame. *)
Lemma MinModeAtoms_f_update_frames_witness :
  mm_calls (fst (snd (MinModeAtoms_f_update (EX := diagonal_model) [3; 0; 0]%R
                        (traced_controller, traced)))) = 0 + 1 /\
  ma_trajectory (snd (snd (MinModeAtoms_f_update (EX := diagonal_model) [3; 0; 0]%R
                             (traced_controller, traced))))
  = Some [[(0, 0, 0); (3, 0, 0)]%R].
Proof.
  destruct (proj2 (proj2 (@MinModeAtoms_f_update_frames R R_Scalar diagonal_model
                            traced_controller traced [3; 0; 0]%R
                            ltac:(intros xl Hxl; discriminate Hxl)
                            (fun pos => length_map neg3 pos)))
                  eq_refl) as (Hc & Hs & _).
  split; [exact Hc |]. rewrite Hs. reflexivity.
Defined.
